(** * netpulse: scheduler and probe subsystem

    A shallow embedding of the job scheduler (internal/daemon) and of the
    probes (internal/probes) of netpulse, with the properties of the
    specification stated over it.

    Conventions.  A Go [int] or [time.Duration] is a [Z] whose 64-bit
    wrap-around is written out with [int_wrap]; an instant ([time.Time]) is
    a [Z] counting nanoseconds; a Go [float64] is an IEEE 754 binary64
    of [SpecFloat]; a Go [error] is an [option] of an error value, [None]
    standing for [nil]; strings are [string]; a goroutine is
    a component of an explicit state, every critical section or channel
    operation being one step of a step relation. *)

From Stdlib Require Import ZArith List Lia Permutation Ascii String.
From Stdlib Require SpecFloat.
From stdpp Require Import base option list strings gmap.

Open Scope Z_scope.

(** ** Machine integers *)

Definition max_int : Z := 2 ^ 63 - 1.

(** Two's complement wrap-around of a 64-bit signed integer. *)
Definition int_wrap (z : Z) : Z := (z + 2 ^ 63) mod 2 ^ 64 - 2 ^ 63.

(** ** Floating point *)

Module Float64.

(** A [float64] is a binary64: 53 bits of precision, exponents below
    1024.  Every operation rounds to the nearest value, ties going to the
    even mantissa. *)
Definition prec : Z := 53.
Definition emax : Z := 1024.

Definition float64 : Type := SpecFloat.spec_float.

(** The zero value of the type. *)
Definition zero : float64 := SpecFloat.S754_zero false.

(** The conversion [float64(z)] of an integer. *)
Definition of_int (z : Z) : float64 :=
  SpecFloat.binary_normalize prec emax z 0 false.

(** [x / y] *)
Definition div (x y : float64) : float64 := SpecFloat.SFdiv prec emax x y.

(** The [float64] that is nearest to the quotient of a natural number by
    a positive one, the two taken exactly: the quotient is rounded once.
    It is the infinity [+Inf] when the quotient exceeds the largest finite
    [float64] by half a unit in the last place or more, and 0 when the
    quotient is at most half the smallest positive one. *)
Definition nearest (num : Z) (den : positive) : float64 :=
  match num with
  | Zpos m =>
      SpecFloat.SFdiv prec emax (SpecFloat.S754_finite false m 0)
                      (SpecFloat.S754_finite false den 0)
  | _ => zero
  end.

End Float64.

(** ** Errors and contexts *)

(** The error values that reach the code: the two context errors of the Go
    runtime, a [*net.OpError] with its fields [Op], [Net], [Source], [Addr]
    and [Err], and any other failure, carried with its message.  An
    address is [None] when the field is nil and the text of its [String()]
    otherwise; the package [net] makes no [*net.OpError] whose [Err] is
    nil. *)
Inductive error : Type :=
  | Canceled
  | DeadlineExceeded
  | OpError (op net : string) (source addr : option string) (err : error)
  | Failure (msg : string).

(** A [context.Context] as a probe observes it: [Done ctx n] tells whether
    the [n]-th poll of [<-ctx.Done()] finds the channel closed, and
    [Err ctx] is what [ctx.Err()] returns once it is. *)
Record context : Type := mkContext {
  Done : nat -> bool;
  Err : error
}.

(** [err.Error()]. *)
Fixpoint Error (e : error) : string :=
  match e with
  | Canceled => "context canceled"
  | DeadlineExceeded => "context deadline exceeded"
  | OpError op net source addr err =>
      op
      +:+ (if String.eqb net EmptyString then EmptyString else " " +:+ net)
      +:+ match source with
          | Some s => " " +:+ s
          | None => EmptyString
          end
      +:+ match addr with
          | Some a =>
              (match source with Some _ => "->" | None => " " end) +:+ a
          | None => EmptyString
          end
      +:+ ": " +:+ Error err
  | Failure msg => msg
  end.

(** ** internal/daemon/scheduler.go *)

Module Scheduler.

(** [type Job struct]: the exported fields, then the state. *)
Record Job : Type := mkJob {
  Name : string;
  Interval : Z;
  Run : context -> option error;
  lastRun : Z;
  nextRun : Z;
  lastError : option error;
  errorCount : Z;
  running : bool
}.

(** The job literal of [registerJobs]: only the exported fields are set. *)
Definition newJob (name : string) (interval : Z)
    (run : context -> option error) : Job :=
  mkJob name interval run 0 0 None 0 false.

Definition second : Z := 1000000000.

(** [AddJob] on the job itself: [job.nextRun = time.Now().Add(5s)]. *)
Definition AddJob_job (now : Z) (job : Job) : Job :=
  mkJob (Name job) (Interval job) (Run job) (lastRun job)
        (now + second * 5) (lastError job) (errorCount job) (running job).

(** The guard of [checkJobs], read under the job's lock. *)
Definition shouldRun (now : Z) (job : Job) : bool :=
  negb (running job) && (nextRun job <? now).

(** First critical section of [runJob]: [None] is the early return taken
    when the job is already running. *)
Definition runJob_begin (now : Z) (job : Job) : option Job :=
  if running job then None
  else Some (mkJob (Name job) (Interval job) (Run job) now
                   (nextRun job) (lastError job) (errorCount job) true).

(** Second critical section of [runJob], entered with the value [err]
    returned by [job.Run(ctx)]; [now] is the [time.Now()] read there. *)
Definition runJob_end (err : option error) (now : Z) (job : Job) : Job :=
  match err with
  | Some e =>
      mkJob (Name job) (Interval job) (Run job) (lastRun job)
            (now + Z.quot (Interval job) 2) (Some e)
            (int_wrap (errorCount job + 1)) false
  | None =>
      mkJob (Name job) (Interval job) (Run job) (lastRun job)
            (now + Interval job) None (errorCount job) false
  end.

(** One whole call of [runJob]: it starts at [t0], [job.Run] observes
    [ctx], and the completion reads the clock at [t1]. *)
Definition runJob (t0 t1 : Z) (ctx : context) (job : Job) : Job :=
  match runJob_begin t0 job with
  | None => job
  | Some j => runJob_end (Run j ctx) t1 j
  end.

(** Successive executions of one job, one triple [(t0, t1, ctx)] each. *)
Fixpoint executions (runs : list (Z * Z * context)) (job : Job) : Job :=
  match runs with
  | [] => job
  | (t0, t1, ctx) :: rest => executions rest (runJob t0 t1 ctx job)
  end.

(** [TriggerJob] on the job found by name. *)
Definition TriggerJob_job (now : Z) (job : Job) : Job :=
  mkJob (Name job) (Interval job) (Run job) (lastRun job)
        now (lastError job) (errorCount job) (running job).

(** *** The scheduler as a transition system

    A cell is a job together with two counters that the code does not
    store: the goroutines [go s.runJob(job)] started by [checkJobs] that
    have not yet taken the job's lock, and the calls of [job.Run] that are
    in flight. *)
Record cell : Type := mkCell {
  job : Job;
  spawned : nat;
  inflight : nat
}.

Definition state : Type := list cell.

(** [NewScheduler]: no job. *)
Definition NewScheduler : state := [].

Definition AddJob (now : Z) (j : Job) (s : state) : state :=
  s ++ [mkCell (AddJob_job now j) 0 0].

(** One iteration of the loop of [checkJobs]. *)
Definition check (now : Z) (c : cell) : cell :=
  if shouldRun now (job c)
  then mkCell (job c) (S (spawned c)) (inflight c)
  else c.

(** A whole tick: [checkJobs] over every job. *)
Definition checkJobs (now : Z) (s : state) : state := map (check now) s.

(** A spawned goroutine takes the lock. *)
Definition launch (now : Z) (c : cell) : option cell :=
  match spawned c with
  | O => None
  | S n =>
      match runJob_begin now (job c) with
      | None => Some (mkCell (job c) n (inflight c))
      | Some j => Some (mkCell j n (S (inflight c)))
      end
  end.

(** An execution in flight returns and takes the lock again. *)
Definition complete (ctx : context) (now : Z) (c : cell) : option cell :=
  match inflight c with
  | O => None
  | S n => Some (mkCell (runJob_end (Run (job c) ctx) now (job c))
                        (spawned c) n)
  end.

Definition trigger (now : Z) (c : cell) : cell :=
  mkCell (TriggerJob_job now (job c)) (spawned c) (inflight c).

Inductive step : state -> state -> Prop :=
  | step_add now name interval run s :
      step s (AddJob now (newJob name interval run) s)
  | step_check now i c s :
      s !! i = Some c ->
      step s (<[i := check now c]> s)
  | step_tick now s :
      step s (checkJobs now s)
  | step_launch now i c c' s :
      s !! i = Some c -> launch now c = Some c' ->
      step s (<[i := c']> s)
  | step_complete ctx now i c c' s :
      s !! i = Some c -> complete ctx now c = Some c' ->
      step s (<[i := c']> s)
  | step_trigger now i c s :
      s !! i = Some c ->
      step s (<[i := trigger now c]> s).

Inductive reachable : state -> Prop :=
  | reachable_init : reachable NewScheduler
  | reachable_step s s' : reachable s -> step s s' -> reachable s'.

(** The in-flight counter agrees with the [running] flag. *)
Definition cell_ok (c : cell) : Prop :=
  inflight c = if running (job c) then 1%nat else 0%nat.

End Scheduler.

(** ** internal/daemon/jobs.go *)

Module Jobs.

(** The loop of [runTraceroute]: before each target the context is polled
    and, when it is done, [ctx.Err()] is returned; a failed trace or a
    failed save is logged and the loop goes on, so neither reaches the
    returned value.  [poll] counts the polls made so far. *)
Fixpoint runTraceroute_from (poll : nat) (targets : list string)
    (ctx : context) : option error :=
  match targets with
  | [] => None
  | _ :: rest =>
      if Done ctx poll then Some (Err ctx)
      else runTraceroute_from (S poll) rest ctx
  end.

Definition runTraceroute (targets : list string) (ctx : context)
    : option error :=
  runTraceroute_from 0 targets ctx.

(** What the specification asks of an execution ended by the
    cancellation of the root context: the wrapper neither counts an error
    nor schedules the half-interval retry. *)
Definition cancellation_exempt (job : Scheduler.Job) (ctx : context)
    (t0 t1 : Z) : Prop :=
  Scheduler.Run job ctx = Some Canceled ->
  Scheduler.errorCount (Scheduler.runJob t0 t1 ctx job)
  = Scheduler.errorCount job
  /\ Scheduler.nextRun (Scheduler.runJob t0 t1 ctx job)
     <> t1 + Z.quot (Scheduler.Interval job) 2.

(** The traceroute job of [registerJobs]. *)
Definition traceroute_job (interval : Z) (targets : list string)
    : Scheduler.Job :=
  Scheduler.newJob "traceroute" interval (runTraceroute targets).

End Jobs.

(** ** internal/probes/ip.go *)

Module IP.

(** [counts[ip]++] for every collected address. *)
Definition count_one (counts : gmap string Z) (ip : string) : gmap string Z :=
  <[ip := int_wrap (default 0 (counts !! ip) + 1)]> counts.

Definition tally (ips : list string) : gmap string Z :=
  fold_left count_one ips ∅.

(** Body of the second loop of [consensus]; the accumulator is
    [(maxIP, maxCount)]. *)
Definition pick (acc : string * Z) (entry : string * Z) : string * Z :=
  if snd acc <? snd entry then entry else acc.

(** [consensus] when the runtime ranges over the map in the order
    [order]. *)
Definition consensus_in (order : list (string * Z)) : string :=
  fst (fold_left pick order (EmptyString, 0)).

(** Go leaves the iteration order of a map unspecified: any enumeration
    of the entries, each once, may be the one taken. *)
Definition range_order (counts : gmap string Z)
    (order : list (string * Z)) : Prop :=
  order ≡ₚ map_to_list counts.

(** [consensus] with one fixed enumeration, to compute with. *)
Definition consensus (ips : list string) : string :=
  consensus_in (map_to_list (tally ips)).

(** What one [select] of the collection loop receives. *)
Inductive event : Type :=
  | RecvResult (ip : string)
  | RecvError (e : error)
  | TimeoutFired
  | CtxDone.

(** [fmt] of a slice of errors under [%v]. *)
Definition show_errors (errs : list error) : string :=
  "[" +:+ String.concat " " (map Error errs) +:+ "]".

(** The code after the collection loop. *)
Definition decide_ip (pick_order : gmap string Z -> list (string * Z))
    (ips : list string) (errs : list error) : string * option error :=
  match ips with
  | [] =>
      match errs with
      | _ :: _ =>
          (EmptyString,
           Some (Failure ("all providers failed: " +:+ show_errors errs)))
      | [] => (EmptyString, Some (Failure "no IP providers responded"))
      end
  | _ :: _ => (consensus_in (pick_order (tally ips)), None)
  end.

(** The collection loop, [n] iterations left, on the events [evs] that the
    successive [select]s receive.  [None]: the events are exhausted and the
    [select] blocks.  The [break] of the timeout case leaves the [select]
    only, so the iteration is spent and the loop goes on. *)
Fixpoint collect (n : nat) (evs : list event) (ctx : context)
    (pick_order : gmap string Z -> list (string * Z))
    (ips : list string) (errs : list error)
    : option (string * option error) :=
  match n with
  | O => Some (decide_ip pick_order ips errs)
  | S n' =>
      match evs with
      | [] => None
      | RecvResult ip :: rest =>
          collect n' rest ctx pick_order (ips ++ [ip]) errs
      | RecvError e :: rest =>
          collect n' rest ctx pick_order ips (errs ++ [e])
      | TimeoutFired :: rest =>
          collect n' rest ctx pick_order ips errs
      | CtxDone :: _ => Some (EmptyString, Some (Err ctx))
      end
  end.

(** [GetPublicIP] for [providers] goroutines. *)
Definition GetPublicIP (providers : nat) (evs : list event) (ctx : context)
    (pick_order : gmap string Z -> list (string * Z))
    : option (string * option error) :=
  collect providers evs ctx pick_order [] [].

(** The addresses the loop has appended to [ips] on [evs]. *)
Fixpoint collected (n : nat) (evs : list event) : list string :=
  match n, evs with
  | S n', RecvResult ip :: rest => ip :: collected n' rest
  | S n', RecvError _ :: rest => collected n' rest
  | S n', TimeoutFired :: rest => collected n' rest
  | _, _ => []
  end.

(** How many times [ip] occurs among [ips]. *)
Definition occurrences (ip : string) (ips : list string) : Z :=
  Z.of_nat (length (filter (fun x => x = ip) ips)).


(** Whether the loop meets a cancellation within its [n] iterations. *)
Fixpoint cancelled (n : nat) (evs : list event) : bool :=
  match n, evs with
  | S n', CtxDone :: _ => true
  | S n', _ :: rest => cancelled n' rest
  | _, _ => false
  end.

End IP.

(** ** internal/probes traceroute *)

Module Traceroute.

(** [type TraceHop struct] of internal/model, without the database
    keys. *)
Record TraceHop : Type := mkHop {
  HopNum : Z;
  IP : string;
  Hostname : string;
  LatencyMs : Float64.float64;
  Lost : bool
}.

(** *** The character classes of the hop pattern *)

Definition code (c : ascii) : N := Ascii.N_of_ascii c.

(** [\d] *)
Definition is_digit (c : ascii) : bool :=
  ((48 <=? code c) && (code c <=? 57))%N.

(** [\s], which for Go is tab, line feed, form feed, carriage return and
    space. *)
Definition is_space (c : ascii) : bool :=
  ((code c =? 9) || (code c =? 10) || (code c =? 12) || (code c =? 13)
   || (code c =? 32))%N.

Definition is_char (x : ascii) (c : ascii) : bool := Ascii.eqb x c.

(** *** A backtracking matcher

    The fragment of the regular expressions that the hop pattern uses:
    repetition applies to one character class, and every repetition is
    greedy.  The matcher tries the alternatives in the order in which a
    backtracking search does, which is the match Go's [regexp] reports. *)
Inductive regex : Type :=
  | Chr (p : ascii -> bool)
  | Star (p : ascii -> bool)
  | Plus (p : ascii -> bool)
  | Quest (p : ascii -> bool)
  | Cat (r1 r2 : regex)
  | Alt (r1 r2 : regex)
  | Group (i : nat) (r : regex).

(** The text between the start of [s] and its suffix [rest]. *)
Definition consumed (s rest : string) : string :=
  String.substring 0 (String.length s - String.length rest) s.

Fixpoint star_k {A : Type} (p : ascii -> bool) (k : string -> option A)
    (s : string) : option A :=
  match s with
  | String c s' =>
      if p c then
        match star_k p k s' with
        | Some r => Some r
        | None => k s
        end
      else k s
  | EmptyString => k s
  end.

Fixpoint run (r : regex) (s : string) (caps : list string)
    (k : string -> list string -> option (list string))
    : option (list string) :=
  match r with
  | Chr p =>
      match s with
      | String c s' => if p c then k s' caps else None
      | EmptyString => None
      end
  | Star p => star_k p (fun s' => k s' caps) s
  | Plus p =>
      match s with
      | String c s' =>
          if p c then star_k p (fun s'' => k s'' caps) s' else None
      | EmptyString => None
      end
  | Quest p =>
      match s with
      | String c s' =>
          if p c then
            match k s' caps with
            | Some m => Some m
            | None => k s caps
            end
          else k s caps
      | EmptyString => k s caps
      end
  | Cat r1 r2 => run r1 s caps (fun s' caps' => run r2 s' caps' k)
  | Alt r1 r2 =>
      match run r1 s caps k with
      | Some m => Some m
      | None => run r2 s caps k
      end
  | Group i r =>
      run r s caps (fun s' caps' => k s' (<[i := consumed s s']> caps'))
  end.

(** The texts that a pattern describes. *)
Inductive all_chars (p : ascii -> bool) : string -> Prop :=
  | all_chars_nil : all_chars p EmptyString
  | all_chars_cons c s :
      p c = true -> all_chars p s -> all_chars p (String c s).

Inductive matches : regex -> string -> Prop :=
  | matches_chr p c :
      p c = true -> matches (Chr p) (String c EmptyString)
  | matches_star p s : all_chars p s -> matches (Star p) s
  | matches_plus p c s :
      p c = true -> all_chars p s -> matches (Plus p) (String c s)
  | matches_quest_none p : matches (Quest p) EmptyString
  | matches_quest_some p c :
      p c = true -> matches (Quest p) (String c EmptyString)
  | matches_cat r1 r2 s1 s2 :
      matches r1 s1 -> matches r2 s2 -> matches (Cat r1 r2) (s1 +:+ s2)
  | matches_alt_l r1 r2 s : matches r1 s -> matches (Alt r1 r2) s
  | matches_alt_r r1 r2 s : matches r2 s -> matches (Alt r1 r2) s
  | matches_group i r s : matches r s -> matches (Group i r) s.

(** A continuation whose success does not depend on the groups. *)
Definition blind (k : string -> list string -> option (list string)) : Prop :=
  forall s c1 c2, is_Some (k s c1) -> is_Some (k s c2).

(** A line that starts with a text of the pattern. *)
Definition has_prefix_in (r : regex) (line : string) : Prop :=
  exists pre rest, line = pre +:+ rest /\ matches r pre.

Fixpoint cats (rs : list regex) (last : regex) : regex :=
  match rs with
  | [] => last
  | r :: rs' => Cat r (cats rs' last)
  end.

Definition dot : regex := Chr (is_char ".").
Definition star_sign : regex := Chr (is_char "*").

(** First alternative: group 2 is four runs of digits joined by points,
    then white space, then group 3, a run of digits, an optional point and
    more digits, then optional white space and the letters ms. *)
Definition answered : regex :=
  cats [Group 2 (cats [Plus is_digit; dot; Plus is_digit; dot;
                       Plus is_digit; dot] (Plus is_digit));
        Plus is_space;
        Group 3 (cats [Plus is_digit; Quest (is_char ".")] (Star is_digit));
        Star is_space;
        Chr (is_char "m")]
       (Chr (is_char "s")).

(** Second alternative: three asterisks separated by white space. *)
Definition unanswered : regex :=
  cats [star_sign; Plus is_space; star_sign; Plus is_space] star_sign.

(** [hopRegex], after its anchor. *)
Definition hopRegex : regex :=
  cats [Star is_space; Group 1 (Plus is_digit); Plus is_space]
       (Alt answered unanswered).

(** [hopRegex.FindStringSubmatch(line)]: the pattern is anchored, so the
    only attempt is at the start of the line; a group that took no part in
    the match is the empty string. *)
Definition FindStringSubmatch (line : string) : option (list string) :=
  run hopRegex line [EmptyString; EmptyString; EmptyString; EmptyString]
      (fun rest caps => Some (<[0%nat := consumed line rest]> caps)).

(** *** Numerals *)

Definition digit_value (c : ascii) : Z := Z.of_N (code c) - 48.

Fixpoint all_digits (s : string) : bool :=
  match s with
  | EmptyString => true
  | String c s' => is_digit c && all_digits s'
  end.

Fixpoint decimal_value (acc : Z) (s : string) : Z :=
  match s with
  | EmptyString => acc
  | String c s' => decimal_value (acc * 10 + digit_value c) s'
  end.

(** An unsigned run of digits under [strconv.Atoi], whose error result
    the parser drops: invalid syntax gives 0 and a value out of range is
    clamped. *)
Definition Atoi_unsigned (neg : bool) (s : string) : Z :=
  match s with
  | EmptyString => 0
  | _ =>
      if all_digits s then
        if neg then Z.max (- decimal_value 0 s) (- 2 ^ 63)
        else Z.min (decimal_value 0 s) max_int
      else 0
  end.

Definition Atoi (s : string) : Z :=
  match s with
  | String "-" s' => Atoi_unsigned true s'
  | String "+" s' => Atoi_unsigned false s'
  | _ => Atoi_unsigned false s
  end.

Definition pow10 (k : nat) : positive := Nat.iter k (Pos.mul 10) 1%positive.

(** The digits of [s] before and after its first point. *)
Fixpoint split_point (s : string) : string * option string :=
  match s with
  | EmptyString => (EmptyString, None)
  | String c s' =>
      if is_char "." c then (EmptyString, Some s')
      else let '(a, b) := split_point s' in (String c a, b)
  end.

(** [strconv.ParseFloat(s, 64)] on the numerals that group 3 can hold,
    digits with at most one point after the first digit: the [float64]
    nearest to the decimal, which is [+Inf] for a numeral too large and 0
    for one too small.  Its error is dropped by the caller, and anything
    else is read as 0. *)
Definition ParseFloat (s : string) : Float64.float64 :=
  match split_point s with
  | (whole, None) =>
      if all_digits whole then Float64.nearest (decimal_value 0 whole) 1
      else Float64.zero
  | (whole, Some frac) =>
      if all_digits whole && all_digits frac then
        Float64.nearest (decimal_value 0 (whole +:+ frac))
                        (pow10 (String.length frac))
      else Float64.zero
  end.

(** *** Lines *)

Definition MaxScanTokenSize : Z := 64 * 1024.

(** [dropCR] of bufio. *)
Fixpoint dropCR (s : string) : string :=
  match s with
  | EmptyString => EmptyString
  | String c EmptyString => if is_char "013" c then EmptyString else s
  | String c s' => String c (dropCR s')
  end.

(** The text up to the first line feed, and what follows it, if any. *)
Fixpoint cut_line (s : string) : string * option string :=
  match s with
  | EmptyString => (EmptyString, None)
  | String c s' =>
      if is_char "010" c then (EmptyString, Some s')
      else let '(a, b) := cut_line s' in (String c a, b)
  end.

(** The tokens of a [bufio.Scanner] with the default split function
    [ScanLines] over [s]: the text is cut at each line feed, a final
    line that is not terminated counts when it is not empty, and the scan
    stops at a line that does not fit the buffer.  [fuel] bounds the
    number of lines. *)
Fixpoint scan_lines (fuel : nat) (s : string) : list string :=
  match fuel with
  | O => []
  | S fuel' =>
      match s with
      | EmptyString => []
      | _ =>
          let '(line, rest) := cut_line s in
          if MaxScanTokenSize <=? Z.of_nat (String.length line) then []
          else
            match rest with
            | None => [dropCR line]
            | Some s' => dropCR line :: scan_lines fuel' s'
            end
      end
  end.

(** Every line takes at least one byte of a terminated text, so the
    length of the text is fuel enough. *)
Definition lines (s : string) : list string :=
  scan_lines (String.length s) s.

(** *** parseTracerouteOutput *)

(** The body of the scanning loop for one line: the hop appended, if
    any. *)
Definition parse_line (line : string) : option TraceHop :=
  match FindStringSubmatch line with
  | None => None
  | Some matches =>
      if (2 <=? length matches)%nat then
        let hopNum := Atoi (matches !!! 1%nat) in
        if (4 <=? length matches)%nat
           && negb (String.eqb (matches !!! 2%nat) EmptyString)
        then
          Some (mkHop hopNum (matches !!! 2%nat) EmptyString
                  (if negb (String.eqb (matches !!! 3%nat) EmptyString)
                   then ParseFloat (matches !!! 3%nat) else Float64.zero)
                  false)
        else Some (mkHop hopNum EmptyString EmptyString Float64.zero true)
      else None
  end.

Definition scan_step (hops : list TraceHop) (line : string)
    : list TraceHop :=
  match parse_line line with
  | Some hop => hops ++ [hop]
  | None => hops
  end.

(** The function never returns an error. *)
Definition parseTracerouteOutput (output : string)
    : list TraceHop * option error :=
  (fold_left scan_step (lines output) [], None).

End Traceroute.

(** ** The text interface of Go's [net] package

    [net.ParseCIDR] and [IP.String] belong to the Go library.  Their
    behaviour on IPv4 text is written out below; the IPv6 side is a
    parameter of the functions that need it. *)

Module Net.

(** [net.IP] and [net.IPMask]: slices of bytes; [[]] is [nil]. *)
Definition IP : Type := list Z.

Record IPNet : Type := mkIPNet {
  net_IP : IP;
  net_Mask : list Z
}.

Definition v4InV6Prefix : list Z := [0; 0; 0; 0; 0; 0; 0; 0; 0; 0; 255; 255].

Definition bytes_eqb (a b : list Z) : bool :=
  bool_decide (a = b).

Definition allFF (b : list Z) : bool := forallb (Z.eqb 255) b.

(** [ip.To4()] *)
Definition To4 (ip : IP) : IP :=
  if (length ip =? 4)%nat then ip
  else if (length ip =? 16)%nat && bytes_eqb (take 12 ip) v4InV6Prefix
       then drop 12 ip
       else [].

(** [CIDRMask(ones, bits)] for [0 <= ones <= bits]; [l] bytes are left
    to fill and [n] ones left to place. *)
Fixpoint mask_bytes (l : nat) (n : Z) : list Z :=
  match l with
  | O => []
  | S l' =>
      if 8 <=? n then 255 :: mask_bytes l' (n - 8)
      else Z.land (Z.lnot (Z.shiftr 255 n)) 255 :: mask_bytes l' 0
  end.

Definition CIDRMask (ones bits : Z) : list Z :=
  if (bits =? 32) || (bits =? 128) then
    if (0 <=? ones) && (ones <=? bits)
    then mask_bytes (Z.to_nat (bits / 8)) ones
    else []
  else [].

Fixpoint and_bytes (a b : list Z) : list Z :=
  match a, b with
  | x :: a', y :: b' => Z.land x y :: and_bytes a' b'
  | _, _ => []
  end.

(** [ip.Mask(mask)] *)
Definition Mask (ip : IP) (mask : list Z) : IP :=
  let mask' :=
    if (length mask =? 16)%nat && (length ip =? 4)%nat
       && allFF (take 12 mask)
    then drop 12 mask else mask in
  let ip' :=
    if (length mask' =? 4)%nat && (length ip =? 16)%nat
       && bytes_eqb (take 12 ip) v4InV6Prefix
    then drop 12 ip else ip in
  if (length ip' =? length mask')%nat then and_bytes ip' mask' else [].

(** [networkNumberAndMask(n)] *)
Definition networkNumberAndMask (n : IPNet) : IP * list Z :=
  let ip := match To4 (net_IP n) with
            | [] => if (length (net_IP n) =? 16)%nat then net_IP n else []
            | ip4 => ip4
            end in
  match ip with
  | [] => ([], [])
  | _ =>
      let m := net_Mask n in
      if (length m =? 4)%nat then
        if (length ip =? 4)%nat then (ip, m) else ([], [])
      else if (length m =? 16)%nat then
        if (length ip =? 4)%nat then (ip, drop 12 m) else (ip, m)
      else ([], [])
  end.

(** [n.Contains(ip)] *)
Definition Contains (n : IPNet) (ip : IP) : bool :=
  let '(nn, m) := networkNumberAndMask n in
  let ip' := match To4 ip with [] => ip | x => x end in
  if (length ip' =? length nn)%nat
  then bytes_eqb (and_bytes nn m) (and_bytes ip' m)
  else false.

(** *** IPv4 text *)

Definition is_digit (c : ascii) : bool := Traceroute.is_digit c.

(** The loop of [parseIPv4Fields] of net/netip over the text [s]:
    [val] and [digLen] describe the field being read, [fields] holds the
    fields already closed, [first] tells whether [s] starts the text. *)
Fixpoint parseIPv4Fields (s : string) (first : bool) (val : Z)
    (digLen : nat) (fields : list Z) : option (list Z) :=
  match s with
  | EmptyString =>
      if (length fields <? 3)%nat then None else Some (fields ++ [val])
  | String c s' =>
      if is_digit c then
        if (digLen =? 1)%nat && (val =? 0) then None
        else
          let val' := val * 10 + Traceroute.digit_value c in
          if 255 <? val' then None
          else parseIPv4Fields s' false val' (S digLen) fields
      else if Ascii.eqb c "." then
        if first || (digLen =? 0)%nat
           || match s' with EmptyString => true | _ => false end
        then None
        else if (length fields =? 3)%nat then None
        else parseIPv4Fields s' false 0 0 (fields ++ [val])
      else None
  end.

Definition parseIPv4 (s : string) : option IP :=
  parseIPv4Fields s true 0 0 [].

(** Which parser [netip.ParseAddr] hands the text to: the first of a
    point, a colon or a percent sign decides. *)
Inductive family : Type := IPv4Text | IPv6Text | NoAddress.

Fixpoint address_family (s : string) : family :=
  match s with
  | EmptyString => NoAddress
  | String c s' =>
      if Ascii.eqb c "." then IPv4Text
      else if Ascii.eqb c ":" then IPv6Text
      else if Ascii.eqb c "%" then NoAddress
      else address_family s'
  end.

Definition big : Z := 16777215.

(** [dtoi] over a whole text: [None] when a byte is not a digit, when
    there is no digit, or when the number reaches [big]. *)
Fixpoint dtoi_from (n : Z) (seen : bool) (s : string) : option Z :=
  match s with
  | EmptyString => if seen then Some n else None
  | String c s' =>
      if is_digit c then
        let n' := n * 10 + Traceroute.digit_value c in
        if big <=? n' then None else dtoi_from n' true s'
      else None
  end.

Definition dtoi (s : string) : option Z := dtoi_from 0 false s.

(** The text before and after the first slash. *)
Fixpoint cut_slash (s : string) : option (string * string) :=
  match s with
  | EmptyString => None
  | String c s' =>
      if Ascii.eqb c "/" then Some (EmptyString, s')
      else match cut_slash s' with
           | Some (a, b) => Some (String c a, b)
           | None => None
           end
  end.

(** The number that four bytes write, most significant byte first, and
    the four bytes of a number. *)
Definition ip_value (ip : IP) : Z :=
  fold_left (fun acc b => acc * 256 + b) ip 0.

Definition ip_of_value (v : Z) : IP :=
  [v / 16777216 mod 256; v / 65536 mod 256; v / 256 mod 256; v mod 256].

Definition byte_ok (b : Z) : Prop := 0 <= b < 256.

(** The network of all IPv4 addresses. *)
Definition everything : IPNet := mkIPNet [0; 0; 0; 0] [0; 0; 0; 0].

Section Text.

(** [net.ParseCIDR] on text whose address is handed to the IPv6 parser,
    and [IP.String] on a 16-byte address that is not an IPv4 one. *)
Variable ParseCIDR6 : string -> option (IP * IPNet).
Variable String16 : IP -> string.

(** [net.ParseCIDR]: the address as 16 bytes, and the network. *)
Definition ParseCIDR (s : string) : option (IP * IPNet) :=
  match cut_slash s with
  | None => None
  | Some (addr, mask) =>
      match address_family addr with
      | NoAddress => None
      | IPv6Text => ParseCIDR6 s
      | IPv4Text =>
          match parseIPv4 addr, dtoi mask with
          | Some ip4, Some n =>
              if 32 <? n then None
              else
                let m := CIDRMask n 32 in
                let addr16 := v4InV6Prefix ++ ip4 in
                Some (addr16, mkIPNet (Mask addr16 m) m)
          | _, _ => None
          end
      end
  end.

Fixpoint digits_of (fuel : nat) (n : Z) (acc : string) : string :=
  match fuel with
  | O => acc
  | S fuel' =>
      let acc' := String (ascii_of_N (Z.to_N (48 + n mod 10))) acc in
      if n <? 10 then acc' else digits_of fuel' (n / 10) acc'
  end.

(** A byte in decimal. *)
Definition utoa (n : Z) : string := digits_of 3 n EmptyString.

(** [ip.String()] *)
Definition IPString (ip : IP) : string :=
  match To4 ip with
  | [a; b; c; d] => utoa a +:+ "." +:+ utoa b +:+ "." +:+ utoa c +:+ "." +:+ utoa d
  | _ => match ip with
         | [] => "<nil>"
         | _ => String16 ip
         end
  end.

End Text.

End Net.

(** ** The worker pool of the sweep and of the port scan

    [SweepSubnet] and [ScanHost] share one arrangement of goroutines: a
    sender that puts the items on the buffered channel [jobs] and closes
    it, [workers] that take items from [jobs] and put what they obtain on
    the buffered channel [results], a goroutine that closes [results] when
    every worker has returned, and the caller, which appends what it
    receives until [results] is closed.  Both channels have room for as
    many values as there are items, so no send on them blocks.  Each
    channel operation is one step. *)

Module Pool.

Section Pool.

(** Items, what a worker sends for an item, what the caller appends, and
    what a worker or the caller reads from outside (a clock). *)
Context {T R H E : Type}.

(** The call made by a worker on an item, [None] when it sends nothing,
    and the value appended by the caller for a value received. *)
Variable fn : E -> T -> option R.
Variable conv : E -> R -> H.

Inductive worker : Type :=
  | Receiving
  | Holding (x : T)
  | Exited.

(** The goroutines and the channels.  [log] and [taken] are not in the
    code: the items on which [fn] was called, with what it gave, and the
    values received by the caller, both in order. *)
Record pool : Type := mkPool {
  unsent : list T;
  jobs : list T;
  jobs_closed : bool;
  workers : list worker;
  results : list R;
  results_closed : bool;
  hosts : list H;
  returned : bool;
  cancelled : bool;
  log : list (T * option R);
  taken : list R
}.

Definition start (items : list T) (concurrency : nat) : pool :=
  mkPool items [] false (replicate concurrency Receiving) [] false []
         false false [] [].

Definition push (o : option R) (rs : list R) : list R :=
  match o with
  | Some r => rs ++ [r]
  | None => rs
  end.

Definition all_exited (ws : list worker) : bool :=
  forallb (fun w => match w with Exited => true | _ => false end) ws.

Inductive step : pool -> pool -> Prop :=
  (* the sender: [case jobs <- ip] *)
  | step_send x rest s :
      unsent s = x :: rest ->
      step s
        (mkPool rest (jobs s ++ [x]) (jobs_closed s) (workers s) (results s)
          (results_closed s) (hosts s) (returned s) (cancelled s) (log s)
          (taken s))
  (* the sender: [case <-ctx.Done()], whose [break] leaves the [select] *)
  | step_send_skip x rest s :
      unsent s = x :: rest -> cancelled s = true ->
      step s
        (mkPool rest (jobs s) (jobs_closed s) (workers s) (results s)
          (results_closed s) (hosts s) (returned s) (cancelled s) (log s)
          (taken s))
  (* [close(jobs)] *)
  | step_close_jobs s :
      unsent s = [] -> jobs_closed s = false ->
      step s
        (mkPool (unsent s) (jobs s) true (workers s) (results s)
          (results_closed s) (hosts s) (returned s) (cancelled s) (log s)
          (taken s))
  (* a worker: [for ip := range jobs] receives *)
  | step_recv i x rest s :
      workers s !! i = Some Receiving -> jobs s = x :: rest ->
      step s
        (mkPool (unsent s) rest (jobs_closed s) (<[i := Holding x]> (workers
          s)) (results s) (results_closed s) (hosts s) (returned s)
          (cancelled s) (log s) (taken s))
  (* a worker: [jobs] is closed and drained *)
  | step_range_end i s :
      workers s !! i = Some Receiving -> jobs s = [] -> jobs_closed s = true ->
      step s
        (mkPool (unsent s) (jobs s) (jobs_closed s) (<[i := Exited]> (workers
          s)) (results s) (results_closed s) (hosts s) (returned s)
          (cancelled s) (log s) (taken s))
  (* a worker: [case <-ctx.Done(): return] *)
  | step_ctx_done i x s :
      workers s !! i = Some (Holding x) -> cancelled s = true ->
      step s
        (mkPool (unsent s) (jobs s) (jobs_closed s) (<[i := Exited]> (workers
          s)) (results s) (results_closed s) (hosts s) (returned s)
          (cancelled s) (log s) (taken s))
  (* a worker: the [default] case *)
  | step_work i x env s :
      workers s !! i = Some (Holding x) -> cancelled s = false ->
      step s
        (mkPool (unsent s) (jobs s) (jobs_closed s) (<[i := Receiving]>
          (workers s)) (push (fn env x) (results s)) (results_closed s)
          (hosts s) (returned s) (cancelled s) (log s ++ [(x, fn env x)])
          (taken s))
  (* [wg.Wait(); close(results)] *)
  | step_close_results s :
      all_exited (workers s) = true -> results_closed s = false ->
      step s
        (mkPool (unsent s) (jobs s) (jobs_closed s) (workers s) (results s)
          true (hosts s) (returned s) (cancelled s) (log s) (taken s))
  (* the caller: [for host := range results] receives *)
  | step_collect r rest env s :
      results s = r :: rest -> returned s = false ->
      step s
        (mkPool (unsent s) (jobs s) (jobs_closed s) (workers s) rest
          (results_closed s) (hosts s ++ [conv env r]) (returned s)
          (cancelled s) (log s) (taken s ++ [r]))
  (* the caller: [results] is closed and drained *)
  | step_return s :
      results s = [] -> results_closed s = true -> returned s = false ->
      step s
        (mkPool (unsent s) (jobs s) (jobs_closed s) (workers s) (results s)
          (results_closed s) (hosts s) true (cancelled s) (log s) (taken s))
  (* the context is cancelled *)
  | step_cancel s :
      cancelled s = false ->
      step s
        (mkPool (unsent s) (jobs s) (jobs_closed s) (workers s) (results s)
          (results_closed s) (hosts s) (returned s) true (log s) (taken s)).

(** The same steps as a function of a label, to run a schedule. *)
Inductive label : Type :=
  | Send
  | SendSkip
  | CloseJobs
  | Recv (i : nat)
  | RangeEnd (i : nat)
  | CtxDone (i : nat)
  | Work (i : nat) (env : E)
  | CloseResults
  | Collect (env : E)
  | Return
  | Cancel.

Definition exec (l : label) (s : pool) : option pool :=
  match l with
  | Send =>
      match unsent s with
      | x :: rest =>
          Some (mkPool rest (jobs s ++ [x]) (jobs_closed s) (workers s)
            (results s) (results_closed s) (hosts s) (returned s) (cancelled
            s) (log s) (taken s))
      | [] => None
      end
  | SendSkip =>
      match unsent s with
      | x :: rest =>
          if cancelled s then
            Some (mkPool rest (jobs s) (jobs_closed s) (workers s) (results
              s) (results_closed s) (hosts s) (returned s) (cancelled s) (log
              s) (taken s))
          else None
      | [] => None
      end
  | CloseJobs =>
      match unsent s with
      | [] =>
          if jobs_closed s then None
          else
            Some (mkPool (unsent s) (jobs s) true (workers s) (results s)
              (results_closed s) (hosts s) (returned s) (cancelled s) (log s)
              (taken s))
      | _ :: _ => None
      end
  | Recv i =>
      match workers s !! i, jobs s with
      | Some Receiving, x :: rest =>
          Some (mkPool (unsent s) rest (jobs_closed s) (<[i := Holding x]>
            (workers s)) (results s) (results_closed s) (hosts s) (returned
            s) (cancelled s) (log s) (taken s))
      | _, _ => None
      end
  | RangeEnd i =>
      match workers s !! i, jobs s with
      | Some Receiving, [] =>
          if jobs_closed s then
            Some (mkPool (unsent s) (jobs s) (jobs_closed s) (<[i := Exited]>
              (workers s)) (results s) (results_closed s) (hosts s) (returned
              s) (cancelled s) (log s) (taken s))
          else None
      | _, _ => None
      end
  | CtxDone i =>
      match workers s !! i with
      | Some (Holding x) =>
          if cancelled s then
            Some (mkPool (unsent s) (jobs s) (jobs_closed s) (<[i := Exited]>
              (workers s)) (results s) (results_closed s) (hosts s) (returned
              s) (cancelled s) (log s) (taken s))
          else None
      | _ => None
      end
  | Work i env =>
      match workers s !! i with
      | Some (Holding x) =>
          if cancelled s then None
          else
            Some (mkPool (unsent s) (jobs s) (jobs_closed s) (<[i :=
              Receiving]> (workers s)) (push (fn env x) (results s))
              (results_closed s) (hosts s) (returned s) (cancelled s) (log s
              ++ [(x, fn env x)]) (taken s))
      | _ => None
      end
  | CloseResults =>
      if all_exited (workers s) && negb (results_closed s) then
        Some (mkPool (unsent s) (jobs s) (jobs_closed s) (workers s) (results
          s) true (hosts s) (returned s) (cancelled s) (log s) (taken s))
      else None
  | Collect env =>
      match results s with
      | r :: rest =>
          if returned s then None
          else
            Some (mkPool (unsent s) (jobs s) (jobs_closed s) (workers s) rest
              (results_closed s) (hosts s ++ [conv env r]) (returned s)
              (cancelled s) (log s) (taken s ++ [r]))
      | [] => None
      end
  | Return =>
      match results s with
      | [] =>
          if results_closed s && negb (returned s) then
            Some (mkPool (unsent s) (jobs s) (jobs_closed s) (workers s)
              (results s) (results_closed s) (hosts s) true (cancelled s)
              (log s) (taken s))
          else None
      | _ :: _ => None
      end
  | Cancel =>
      if cancelled s then None
      else
        Some (mkPool (unsent s) (jobs s) (jobs_closed s) (workers s) (results
          s) (results_closed s) (hosts s) (returned s) true (log s) (taken
          s))
  end.

(** A schedule, run from [s]. *)
Fixpoint run (schedule : list label) (s : pool) : option pool :=
  match schedule with
  | [] => Some s
  | l :: rest =>
      match exec l s with
      | Some s' => run rest s'
      | None => None
      end
  end.

(** The schedule in which everything is sent first, the first of
    [concurrency] workers then handles the [n] items, and the caller
    finally receives the [k] results. *)
Definition sequential (n concurrency k : nat) (env : E) : list label :=
  replicate n Send ++ [CloseJobs]
  ++ concat (replicate n [Recv 0; Work 0 env])
  ++ map RangeEnd (seq 0 concurrency) ++ [CloseResults]
  ++ replicate k (Collect env) ++ [Return].

Inductive reachable (items : list T) (concurrency : nat) : pool -> Prop :=
  | reachable_start : reachable items concurrency (start items concurrency)
  | reachable_step s s' :
      reachable items concurrency s -> step s s' ->
      reachable items concurrency s'.

(** The items held by the workers. *)
Definition held (w : worker) : option T :=
  match w with
  | Holding x => Some x
  | _ => None
  end.

Definition holding (ws : list worker) : list T := omap held ws.

(** The items that are somewhere in the pool: those on which [fn] was
    called, those held, those on [jobs] and those not sent yet. *)
Definition pending (s : pool) : list T :=
  map fst (log s) ++ holding (workers s) ++ jobs s ++ unsent s.

(** What holds in every state that the pool reaches from [items] with
    [concurrency] workers. *)
Record invariant (items : list T) (concurrency : nat) (s : pool) : Prop :=
  mkInvariant {
  inv_results : omap snd (log s) = taken s ++ results s;
  inv_hosts : Forall2 (fun r h => exists env, h = conv env r)
                      (taken s) (hosts s);
  inv_log : Forall (fun e => exists env, snd e = fn env (fst e)) (log s);
  inv_sub : pending s ⊆+ items;
  inv_all : cancelled s = false -> pending s ≡ₚ items;
  inv_sent : jobs_closed s = true -> unsent s = [];
  inv_drained : cancelled s = false -> Exited ∈ workers s ->
                jobs_closed s = true /\ jobs s = [];
  inv_waited : results_closed s = true -> all_exited (workers s) = true;
  inv_returned : returned s = true ->
                 results_closed s = true /\ results s = [];
  inv_workers : length (workers s) = concurrency
}.

(** What is left to do, as a number that every step lowers. *)
Definition worker_weight (w : worker) : nat :=
  match w with
  | Receiving => 1
  | Holding _ => 4
  | Exited => 0
  end.

Definition flag_weight (b : bool) : nat := if b then 0 else 1.

Definition measure (s : pool) : nat :=
  6 * length (unsent s) + 5 * length (jobs s)
  + sum_list_with worker_weight (workers s)
  + length (results s)
  + flag_weight (jobs_closed s) + flag_weight (results_closed s)
  + flag_weight (returned s) + flag_weight (cancelled s).

End Pool.

End Pool.

(** ** internal/probes ping sweep *)

Module Ping.

Import Net.

(** [type ScanHost struct] of internal/model, without the database
    key. *)
Record ScanHost : Type := mkScanHost {
  IP : string;
  Hostname : string;
  Alive : bool;
  LatencyMs : Float64.float64;
  LastSeen : Z
}.

(** [incIP] from the last byte upwards; the flag tells whether the byte
    to the left has to be incremented too. *)
Fixpoint incIP_carry (ip : list Z) : list Z * bool :=
  match ip with
  | [] => ([], true)
  | b :: rest =>
      let '(rest', carry) := incIP_carry rest in
      if carry then
        let b' := (b + 1) mod 256 in
        (b' :: rest', negb (0 <? b'))
      else (b :: rest', false)
  end.

Definition incIP (ip : list Z) : list Z := fst (incIP_carry ip).

Section Expansion.

Variable ParseCIDR6 : string -> option (Net.IP * IPNet).
Variable String16 : Net.IP -> string.

(** The loop of [expandCIDR]; [None] when [fuel] iterations were not
    enough to leave the network. *)
Fixpoint expand_loop (fuel : nat) (ipnet : IPNet) (ip : Net.IP)
    (ips : list string) : option (list string) :=
  match fuel with
  | O => None
  | S fuel' =>
      if Contains ipnet ip
      then expand_loop fuel' ipnet (incIP ip) (ips ++ [IPString String16 ip])
      else Some ips
  end.

(** The [size] addresses from the number [base] on, as text. *)
Definition block (base : Z) (size : nat) : list string :=
  map (fun i => IPString String16 (ip_of_value (base + Z.of_nat i)))
      (seq 0 size).

(** [ips[1 : len(ips)-1]] when the slice has more than two elements. *)
Definition trim_ends (ips : list string) : list string :=
  if (2 <? length ips)%nat then take (length ips - 2) (drop 1 ips) else ips.

(** [expandCIDR]: the Go pair of a slice and an error; [None] when the
    loop is still running after [fuel] iterations. *)
Definition expandCIDR (fuel : nat) (cidr : string)
    : option (list string * option error) :=
  match ParseCIDR ParseCIDR6 cidr with
  | None => Some ([], Some (Failure ("invalid CIDR address: " +:+ cidr)))
  | Some (ip, ipnet) =>
      match expand_loop fuel ipnet (Mask ip (net_Mask ipnet)) [] with
      | None => None
      | Some ips => Some (trim_ends ips, None)
      end
  end.

End Expansion.

(** *** Connection errors *)

(** [s[i:i+n]] for [i + n <= len(s)]. *)
Definition slice (s : string) (i n : nat) : string := String.substring i n s.

(** The loop runs for [i] from 0 to [len(s)-len(substr)], and not at all
    when that difference is negative. *)
Definition containsSubstring (s substr : string) : bool :=
  if (String.length s <? String.length substr)%nat then false
  else
    existsb (fun i => String.eqb (slice s i (String.length substr)) substr)
            (seq 0 (S (String.length s - String.length substr))).

Definition contains (s substr : string) : bool :=
  (String.length substr <=? String.length s)%nat
  && (String.eqb s substr
      || ((0 <? String.length s)%nat && containsSubstring s substr)).

Definition isConnectionRefused (err : error) : bool :=
  match err with
  | OpError op net source addr inner =>
      let errStr :=
        match inner with
        | OpError _ _ _ _ _ => Error inner
        | _ => Error err
        end in
      contains errStr "connection refused"
      || contains errStr "refused"
      || contains errStr "reset"
  | _ => false
  end.

(** *** pingHost *)

(** What the network answers: [dial ip port] is the error of
    [net.DialTimeout] to that port, [None] for a connection, with the
    microseconds the attempt took; [lookup ip] is [net.LookupAddr]. *)
Record network : Type := mkNetwork {
  dial : string -> Z -> option error * Z;
  lookup : string -> list string * option error
}.

Definition ports : list Z := [80; 443; 22; 21; 445; 139].

(** [float64(micros) / 1000.0] *)
Definition latency_of (micros : Z) : Float64.float64 :=
  Float64.div (Float64.of_int micros) (Float64.of_int 1000).

(** Whether an attempt ends the loop of [pingHost]. *)
Definition qualifies (err : option error) : bool :=
  match err with
  | None => true
  | Some e => isConnectionRefused e
  end.

(** Whether the attempt on [port] of [ip] does. *)
Definition answers (nw : network) (ip : string) (port : Z) : bool :=
  qualifies (fst (dial nw ip port)).

(** The loop over the ports: the host so far, and the ports dialled so
    far, in order. *)
Fixpoint try_ports (nw : network) (ip : string) (todo : list Z)
    (host : ScanHost) (dialled : list Z) : ScanHost * list Z :=
  match todo with
  | [] => (host, dialled)
  | port :: rest =>
      let '(err, micros) := dial nw ip port in
      if qualifies err then
        (mkScanHost (IP host) (Hostname host) true (latency_of micros)
                    (LastSeen host),
         dialled ++ [port])
      else try_ports nw ip rest host (dialled ++ [port])
  end.

(** [pingHost], with the ports it dialled. *)
Definition pingHost_trace (nw : network) (now : Z) (ip : string)
    : ScanHost * list Z :=
  let host := mkScanHost ip EmptyString false Float64.zero now in
  let '(host, dialled) := try_ports nw ip ports host [] in
  let host :=
    if Alive host then
      match lookup nw ip with
      | (name :: _, None) =>
          mkScanHost (IP host) name (Alive host) (LatencyMs host)
                     (LastSeen host)
      | _ => host
      end
    else host in
  (host, dialled).

Definition pingHost (nw : network) (now : Z) (ip : string) : ScanHost :=
  fst (pingHost_trace nw now ip).

(** *** SweepSubnet *)

(** [type PingProbe struct] *)
Record PingProbe : Type := mkPingProbe {
  concurrency : Z;
  timeout : Z
}.

Definition NewPingProbe (concurrency timeout : Z) : PingProbe :=
  mkPingProbe (if concurrency <=? 0 then 50 else concurrency)
              (if timeout <=? 0 then 2 * Scheduler.second else timeout).

(** What a worker of the sweep does with an address, the clock reading
    [now], and what the caller appends. *)
Definition sweep_fn (nw : network) (now : Z) (ip : string)
    : option ScanHost :=
  Some (pingHost nw now ip).

Definition sweep_conv (now : Z) (host : ScanHost) : ScanHost := host.

Section Sweep.

Variable ParseCIDR6 : string -> option (Net.IP * IPNet).
Variable String16 : Net.IP -> string.

(** The pairs that [SweepSubnet] can return on [cidr]: the error of a
    text that does not parse, or the slice of the caller when the pool
    has come to its end, [ctx_cancelled] telling whether the context was
    cancelled by then.  [fuel] is the fuel of the expansion. *)
Definition SweepSubnet (p : PingProbe) (nw : network) (fuel : nat)
    (cidr : string) (ctx_cancelled : bool)
    (res : list ScanHost * option error) : Prop :=
  match expandCIDR ParseCIDR6 String16 fuel cidr with
  | None => False
  | Some (_, Some err) =>
      res = ([], Some (Failure ("invalid CIDR: " +:+ Error err)))
  | Some (ips, None) =>
      exists s,
        Pool.reachable (sweep_fn nw) sweep_conv ips
                       (Z.to_nat (concurrency p)) s
        /\ Pool.returned s = true
        /\ Pool.cancelled s = ctx_cancelled
        /\ res = (Pool.hosts s, None)
  end.

End Sweep.

End Ping.

(** ** internal/probes/portscan.go *)

Module PortScan.

(** [type ScanResult struct] *)
Record ScanResult : Type := mkScanResult {
  Port : Z;
  State : string;
  Service : string;
  Banner : string
}.

(** [type ScanPort struct] of internal/model, without the database
    keys. *)
Record ScanPort : Type := mkScanPort {
  sp_Port : Z;
  sp_Protocol : string;
  sp_Service : string;
  sp_State : string;
  sp_Banner : string;
  sp_LastSeen : Z
}.

Definition DefaultPorts : list Z :=
  [21; 22; 23; 25; 53; 80; 110; 111; 135; 139;
   143; 443; 445; 993; 995; 1723; 3306; 3389; 5432; 5900;
   8080; 8443; 8888; 27017; 6379; 11211; 1433; 1521; 5984; 9200;
   2181; 9092; 6443; 10250; 2379; 4443; 7443; 8000; 8001; 8002;
   9000; 9001; 9090; 9091; 9443; 10000; 10443; 15672; 27018; 27019].

Definition serviceNames : gmap Z string :=
  list_to_map
    [(21, "ftp"); (22, "ssh"); (23, "telnet"); (25, "smtp"); (53, "dns");
     (80, "http"); (110, "pop3"); (111, "rpc"); (135, "msrpc");
     (139, "netbios"); (143, "imap"); (443, "https"); (445, "smb");
     (993, "imaps"); (995, "pop3s"); (1433, "mssql"); (1521, "oracle");
     (1723, "pptp"); (3306, "mysql"); (3389, "rdp"); (5432, "postgresql");
     (5900, "vnc"); (5984, "couchdb"); (6379, "redis"); (8080, "http-alt");
     (8443, "https-alt"); (8888, "http-alt"); (9092, "kafka");
     (9200, "elasticsearch"); (11211, "memcached"); (27017, "mongodb")].

Definition getServiceName (port : Z) : string :=
  match serviceNames !! port with
  | Some name => name
  | None => "unknown"
  end.

(** [type PortScanner struct] *)
Record PortScanner : Type := mkPortScanner {
  concurrency : Z;
  timeout : Z;
  ports : list Z
}.

Definition NewPortScanner (concurrency timeout : Z) (ports : list Z)
    : PortScanner :=
  mkPortScanner (if concurrency <=? 0 then 20 else concurrency)
                (if timeout <=? 0 then 3 * Scheduler.second else timeout)
                (match ports with [] => DefaultPorts | _ => ports end).

(** What the scanned host answers: [connect host port] is the error of
    [net.DialTimeout], [None] for a connection, and [read host port] the
    bytes that the first [conn.Read] stores in its buffer, [None] when it
    fails. *)
Record network : Type := mkNetwork {
  connect : string -> Z -> option error;
  read : string -> Z -> option string
}.

Definition grabBanner (data : option string) : string :=
  match data with
  | None => EmptyString
  | Some EmptyString => EmptyString
  | Some banner =>
      if (200 <? String.length banner)%nat
      then String.substring 0 200 banner
      else banner
  end.

(** [scanPort]: [None] is the nil result. *)
Definition scanPort (nw : network) (host : string) (port : Z)
    : option ScanResult :=
  match connect nw host port with
  | Some _ => None
  | None =>
      Some (mkScanResult port "open" (getServiceName port)
                         (grabBanner (read nw host port)))
  end.

(** The result of [scanPort] on a port that accepts the connection. *)
Definition open_result (nw : network) (host : string) (port : Z)
    : ScanResult :=
  mkScanResult port "open" (getServiceName port)
               (grabBanner (read nw host port)).

(** What a worker of the scan does with a port, and what the caller
    appends for a result received at [now]. *)
Definition scan_fn (nw : network) (host : string) (_ : Z) (port : Z)
    : option ScanResult :=
  scanPort nw host port.

Definition scan_conv (now : Z) (result : ScanResult) : ScanPort :=
  mkScanPort (Port result) "tcp" (Service result) (State result)
             (Banner result) now.

(** Whether the host accepts a connection on [port]. *)
Definition accepts (nw : network) (host : string) (port : Z) : bool :=
  match connect nw host port with
  | None => true
  | Some _ => false
  end.

(** The pairs that [ScanHost] can return: the slice of the caller when
    the pool has come to its end, and no error.  [attempted] lists the
    ports on which [scanPort] was called, in order, and [ctx_cancelled]
    tells whether the context was cancelled by the end. *)
Definition ScanHost (s : PortScanner) (nw : network) (host : string)
    (attempted : list Z) (ctx_cancelled : bool)
    (res : list ScanPort * option error) : Prop :=
  exists st,
    Pool.reachable (scan_fn nw host) scan_conv (ports s)
                   (Z.to_nat (concurrency s)) st
    /\ Pool.returned st = true
    /\ Pool.cancelled st = ctx_cancelled
    /\ attempted = map fst (Pool.log st)
    /\ res = (Pool.hosts st, None).

End PortScan.

(** ** internal/daemon/scheduler.go: lookup, trigger and status *)

Module Status.

Import Scheduler.

(** [type JobStatus struct] *)
Record JobStatus : Type := mkJobStatus {
  st_Name : string;
  st_Interval : Z;
  st_LastRun : Z;
  st_NextRun : Z;
  st_LastError : string;
  st_ErrorCount : Z;
  st_Running : bool
}.

(** The status built for one job in the loop of [GetJobStatuses]:
    [LastError] is set only when [lastError] is not nil. *)
Definition status_of (j : Job) : JobStatus :=
  mkJobStatus (Name j) (Interval j) (lastRun j) (nextRun j)
              (match lastError j with
               | Some e => Error e
               | None => EmptyString
               end)
              (errorCount j) (running j).

(** [GetJobStatuses] reads the jobs one after the other, each under its
    own lock: the status at a position is that of its job when it is
    read. *)
Definition GetJobStatuses (s : state) : list JobStatus :=
  map (fun c => status_of (job c)) s.

(** [GetJob]: the first job of that name, as its position among the
    jobs; [None] is the nil pointer. *)
Fixpoint GetJob (name : string) (s : state) : option nat :=
  match s with
  | [] => None
  | c :: rest =>
      if String.eqb (Name (job c)) name then Some 0%nat
      else option_map S (GetJob name rest)
  end.

(** [TriggerJob] at the time [now]: whether a job was found, and the
    scheduler afterwards. *)
Definition TriggerJob (name : string) (now : Z) (s : state) : bool * state :=
  match GetJob name s with
  | None => (false, s)
  | Some i =>
      match s !! i with
      | Some c => (true, <[i := trigger now c]> s)
      | None => (false, s)
      end
  end.

(** The exported fields of a job, which the scheduler only reads. *)
Definition same_job (c c' : cell) : Prop :=
  Name (job c') = Name (job c)
  /\ Interval (job c') = Interval (job c)
  /\ Run (job c') = Run (job c).

(** Steps of the scheduler, any number of them. *)
Inductive steps : state -> state -> Prop :=
  | steps_refl s : steps s s
  | steps_step s1 s2 s3 : step s1 s2 -> steps s2 s3 -> steps s1 s3.

(** [registerJobs], each of the four calls of [AddJob] reading the clock
    for itself, with the intervals of the configuration. *)
Definition registerJobs (t1 t2 t3 t4 : Z)
    (ip_interval trace_interval sweep_interval scan_interval : Z)
    (runIPCheck runTraceroute runPingSweep runPortScan
       : context -> option error)
    (s : state) : state :=
  AddJob t4 (newJob "port_scan" scan_interval runPortScan)
    (AddJob t3 (newJob "ping_sweep" sweep_interval runPingSweep)
       (AddJob t2 (newJob "traceroute" trace_interval runTraceroute)
          (AddJob t1 (newJob "ip_check" ip_interval runIPCheck) s))).

End Status.

(** ** internal/daemon/jobs.go: the jobs with the calls they make

    The probe and the storage are outside the jobs: what they return to
    the [k]-th iteration of a loop is given by a function of [k], and a
    job is its returned error together with the calls it has made, in
    order.  The lines written to the log are left out. *)

Module Runs.

Section Traceroute.

Context {Result : Type}.

(** [probe.Trace(ctx, target)] and [traceStorage.Save(result)] in the
    iteration [k]. *)
Variable Trace : nat -> string -> Result * option error.
Variable Save : nat -> Result -> option error.

Inductive trace_call : Type :=
  | CallTrace (target : string)
  | CallSave (result : Result).

(** The loop of [runTraceroute] from the iteration [poll] on.  A failed
    save is only logged, so [Save] is called and its error dropped. *)
Fixpoint runTraceroute_from (poll : nat) (targets : list string)
    (ctx : context) : option error * list trace_call :=
  match targets with
  | [] => (None, [])
  | target :: rest =>
      if Done ctx poll then (Some (Err ctx), [])
      else
        let '(result, err) := Trace poll target in
        let '(res, calls) := runTraceroute_from (S poll) rest ctx in
        match err with
        | Some _ => (res, CallTrace target :: calls)
        | None =>
            match Save poll result with
            | Some _ => (res, CallTrace target :: CallSave result :: calls)
            | None => (res, CallTrace target :: CallSave result :: calls)
            end
        end
  end.

Definition runTraceroute (targets : list string) (ctx : context)
    : option error * list trace_call :=
  runTraceroute_from 0 targets ctx.

Definition traced (calls : list trace_call) : list string :=
  omap (fun c => match c with CallTrace t => Some t | CallSave _ => None end)
       calls.

Definition saved (calls : list trace_call) : list Result :=
  omap (fun c => match c with CallSave r => Some r | CallTrace _ => None end)
       calls.

(** The results of the traces that succeed, for the targets of the
    iterations from [poll] on. *)
Fixpoint traces_from (poll : nat) (targets : list string) : list Result :=
  match targets with
  | [] => []
  | target :: rest =>
      match Trace poll target with
      | (result, None) => result :: traces_from (S poll) rest
      | (_, Some _) => traces_from (S poll) rest
      end
  end.

End Traceroute.

(** A row of the table of hosts, as far as [runPortScan] reads it. *)
Record StoredHost : Type := mkStoredHost {
  sh_ID : Z;
  sh_IP : string
}.

Section PortScan.

(** [scanStorage.GetAliveHosts()], [scanner.ScanHost(ctx, host.IP)] in
    the iteration [k], and [scanStorage.SavePort(port)]. *)
Variable GetAliveHosts : list StoredHost * option error.
Variable ScanHost : nat -> string -> list PortScan.ScanPort * option error.
Variable SavePort : Z -> PortScan.ScanPort -> option error.

(** [CallSavePort id port]: [SavePort] is called on [port] with its
    [HostID] set to [id]. *)
Inductive scan_call : Type :=
  | CallScanHost (ip : string)
  | CallSavePort (host_id : Z) (port : PortScan.ScanPort).

(** The inner loop: every port is saved, a failed save is only logged. *)
Definition save_ports (host_id : Z) (ports : list PortScan.ScanPort)
    : list scan_call :=
  map (fun port =>
         match SavePort host_id port with
         | Some _ => CallSavePort host_id port
         | None => CallSavePort host_id port
         end) ports.

(** The loop over the hosts from the iteration [poll] on, with
    [totalPorts]. *)
Fixpoint scan_hosts (poll : nat) (hosts : list StoredHost) (ctx : context)
    (totalPorts : Z) : option error * list scan_call * Z :=
  match hosts with
  | [] => (None, [], totalPorts)
  | host :: rest =>
      if Done ctx poll then (Some (Err ctx), [], totalPorts)
      else
        match ScanHost poll (sh_IP host) with
        | (_, Some _) =>
            let '(res, calls, total) :=
              scan_hosts (S poll) rest ctx totalPorts in
            (res, CallScanHost (sh_IP host) :: calls, total)
        | (ports, None) =>
            let '(res, calls, total) :=
              scan_hosts (S poll) rest ctx
                (int_wrap (totalPorts + Z.of_nat (length ports))) in
            (res,
             CallScanHost (sh_IP host)
               :: save_ports (sh_ID host) ports ++ calls,
             total)
        end
  end.

Definition runPortScan (ctx : context) : option error * list scan_call :=
  match GetAliveHosts with
  | (_, Some err) => (Some err, [])
  | (hosts, None) =>
      match hosts with
      | [] => (None, [])
      | _ :: _ =>
          let '(res, calls, _) := scan_hosts 0 hosts ctx 0 in (res, calls)
      end
  end.

Definition scanned (calls : list scan_call) : list string :=
  omap (fun c => match c with
                 | CallScanHost ip => Some ip
                 | CallSavePort _ _ => None
                 end) calls.

Definition saved_ports (calls : list scan_call)
    : list (Z * PortScan.ScanPort) :=
  omap (fun c => match c with
                 | CallSavePort id port => Some (id, port)
                 | CallScanHost _ => None
                 end) calls.

(** The ports found on the hosts of the iterations from [poll] on, each
    with the key of its host. *)
Fixpoint found_from (poll : nat) (hosts : list StoredHost)
    : list (Z * PortScan.ScanPort) :=
  match hosts with
  | [] => []
  | host :: rest =>
      match ScanHost poll (sh_IP host) with
      | (ports, None) =>
          map (fun port => (sh_ID host, port)) ports
            ++ found_from (S poll) rest
      | (_, Some _) => found_from (S poll) rest
      end
  end.

End PortScan.

(** The iterations that poll a context which is not done: the longest
    run of them, among [n] iterations that start at [poll]. *)
Fixpoint live_polls (ctx : context) (poll n : nat) : nat :=
  match n with
  | O => O
  | S n' => if Done ctx poll then O else S (live_polls ctx (S poll) n')
  end.

End Runs.

(** ** internal/probes/ip.go: one provider *)

Module Fetch.

(** [strings.Contains] *)
Definition Contains (s substr : string) : bool :=
  match String.index 0 substr s with
  | Some _ => true
  | None => false
  end.

Definition isValidIP (ip : string) : bool :=
  if (String.length ip <? 7)%nat || (45 <? String.length ip)%nat then false
  else Contains ip "." || Contains ip ":".

(** [%d] of an [int]. *)
Definition Itoa (n : Z) : string :=
  if n <? 0 then "-" +:+ Net.digits_of 20 (- n) EmptyString
  else Net.digits_of 20 n EmptyString.

(** What the request of [fetchIP] meets: the request cannot be built,
    the client fails, or there is a response with its status, its body
    and the error, if any, that reading the body ends with. *)
Inductive response : Type :=
  | NoRequest (err : error)
  | NoResponse (err : error)
  | Response (status : Z) (body : string) (read_err : option error).

Section FetchIP.

(** [strings.TrimSpace] *)
Variable TrimSpace : string -> string.

(** [fetchIP]; at most 64 bytes of the body are read. *)
Definition fetchIP (resp : response) : string * option error :=
  match resp with
  | NoRequest err => (EmptyString, Some err)
  | NoResponse err => (EmptyString, Some err)
  | Response status body read_err =>
      if negb (status =? 200)
      then (EmptyString, Some (Failure ("status " +:+ Itoa status)))
      else
        match read_err with
        | Some err => (EmptyString, Some err)
        | None =>
            let ip := TrimSpace (String.substring 0 64 body) in
            if negb (isValidIP ip)
            then (EmptyString, Some (Failure ("invalid IP: " +:+ ip)))
            else (ip, None)
        end
  end.

(** The goroutine that [GetPublicIP] starts for the provider [name]:
    what it sends, on the channel of results or on that of errors. *)
Definition provider (name : string) (resp : response) : IP.event :=
  match fetchIP resp with
  | (_, Some err) =>
      IP.RecvError (Failure (name +:+ ": " +:+ Error err))
  | (ip, None) => IP.RecvResult ip
  end.

End FetchIP.

End Fetch.

(** ** internal/probes traceroute: the groups of a match, and the probe *)

Module Captures.

Import Traceroute.

(** [captures r s caps caps']: the text [s] is matched by [r], and the
    match turns the groups [caps] into [caps']. *)
Inductive captures : regex -> string -> list string -> list string -> Prop :=
  | captures_chr p c caps :
      p c = true -> captures (Chr p) (String c EmptyString) caps caps
  | captures_star p s caps :
      all_chars p s -> captures (Star p) s caps caps
  | captures_plus p c s caps :
      p c = true -> all_chars p s -> captures (Plus p) (String c s) caps caps
  | captures_quest_none p caps : captures (Quest p) EmptyString caps caps
  | captures_quest_some p c caps :
      p c = true -> captures (Quest p) (String c EmptyString) caps caps
  | captures_cat r1 r2 s1 s2 caps caps1 caps2 :
      captures r1 s1 caps caps1 -> captures r2 s2 caps1 caps2 ->
      captures (Cat r1 r2) (s1 +:+ s2) caps caps2
  | captures_alt_l r1 r2 s caps caps' :
      captures r1 s caps caps' -> captures (Alt r1 r2) s caps caps'
  | captures_alt_r r1 r2 s caps caps' :
      captures r2 s caps caps' -> captures (Alt r1 r2) s caps caps'
  | captures_group i r s caps caps' :
      captures r s caps caps' ->
      captures (Group i r) s caps (<[i := s]> caps').

(** A pattern without a group. *)
Fixpoint groupless (r : regex) : bool :=
  match r with
  | Chr _ | Star _ | Plus _ | Quest _ => true
  | Cat r1 r2 | Alt r1 r2 => groupless r1 && groupless r2
  | Group _ _ => false
  end.

(** What the groups 2 and 3 of [hopRegex] enclose. *)
Definition ip_text : regex :=
  cats [Plus is_digit; dot; Plus is_digit; dot; Plus is_digit; dot]
       (Plus is_digit).

Definition latency_text : regex :=
  cats [Plus is_digit; Quest (is_char ".")] (Star is_digit).

End Captures.

Module TraceProbe.

Import Traceroute.

(** [type TracerouteProbe struct] *)
Record TracerouteProbe : Type := mkTracerouteProbe {
  maxHops : Z;
  timeout : Z
}.

Definition NewTracerouteProbe : TracerouteProbe :=
  mkTracerouteProbe 30 (3 * Scheduler.second).

Definition SetMaxHops (max : Z) (p : TracerouteProbe) : TracerouteProbe :=
  if (0 <? max) && (max <=? 64) then mkTracerouteProbe max (timeout p)
  else p.

Definition SetTimeout (t : Z) (p : TracerouteProbe) : TracerouteProbe :=
  if 0 <? t then mkTracerouteProbe (maxHops p) t else p.

(** A call of one of the two setters. *)
Inductive setter : Type :=
  | CallSetMaxHops (max : Z)
  | CallSetTimeout (t : Z).

Definition set (p : TracerouteProbe) (c : setter) : TracerouteProbe :=
  match c with
  | CallSetMaxHops max => SetMaxHops max p
  | CallSetTimeout t => SetTimeout t p
  end.

(** [type TraceResult struct] of internal/model, without the database
    key. *)
Record TraceResult : Type := mkTraceResult {
  Target : string;
  Timestamp : Z;
  Hops : list TraceHop
}.

(** The arguments of the command that [runSystemTraceroute] builds, with
    [-I] for the second attempt. *)
Definition command (icmp : bool) (p : TracerouteProbe) (target : string)
    : list string :=
  if icmp
  then ["traceroute"; "-n"; "-I"; "-q"; "1"; "-w"; "2"; "-m";
        Fetch.Itoa (maxHops p); target]
  else ["traceroute"; "-n"; "-q"; "1"; "-w"; "2"; "-m";
        Fetch.Itoa (maxHops p); target].

Section Trace.

(** [cmd.Output()] for the command of those arguments. *)
Variable Output : list string -> string * option error.

Definition runSystemTraceroute (p : TracerouteProbe) (target : string)
    : list TraceHop * option error :=
  match Output (command false p target) with
  | (output, None) => parseTracerouteOutput output
  | (_, Some _) =>
      match Output (command true p target) with
      | (output, None) => parseTracerouteOutput output
      | (_, Some err) =>
          ([], Some (Failure ("traceroute failed: " +:+ Error err)))
      end
  end.

(** [Trace] at the time [now]: the result is returned with the error
    too. *)
Definition Trace (p : TracerouteProbe) (now : Z) (target : string)
    : TraceResult * option error :=
  match runSystemTraceroute p target with
  | (_, Some err) => (mkTraceResult target now [], Some err)
  | (hops, None) => (mkTraceResult target now hops, None)
  end.

End Trace.

End TraceProbe.

(** ** Goroutines that share variables

    [PingHosts], [TraceMultiple] and [ScanMultipleHosts] start one
    goroutine for each element of a slice and wait for all of them.  A
    goroutine waits for a place in the semaphore, if there is one, does
    its work, writes to the shared variables (at its own index of a
    slice, or under a mutex) and leaves.  The write and the release of
    the semaphore are one step here: no other goroutine can tell them
    apart. *)

Module FanOut.

Section FanOut.

Context {V : Type}.

(** What the goroutine [i] does to the shared variables. *)
Variable act : nat -> V -> V.

(** The capacity of the semaphore, [None] when the function has none. *)
Variable capacity : option Z.

(** A goroutine before it holds a place of the semaphore (or before it
    runs), while it works, and after its deferred calls. *)
Inductive goroutine : Type :=
  | Waiting
  | Working
  | Finished.

(** The goroutines, the shared variables, and the order in which the
    goroutines have written, which the code does not store. *)
Record state : Type := mkState {
  routines : list goroutine;
  shared : V;
  order : list nat
}.

Fixpoint in_flight (rs : list goroutine) : nat :=
  match rs with
  | [] => O
  | Working :: rs' => S (in_flight rs')
  | _ :: rs' => in_flight rs'
  end.

(** Whether a send on the semaphore goes through. *)
Definition admits (rs : list goroutine) : bool :=
  match capacity with
  | None => true
  | Some c => Z.of_nat (in_flight rs) <? c
  end.

Inductive step : state -> state -> Prop :=
  | step_acquire i st :
      routines st !! i = Some Waiting ->
      admits (routines st) = true ->
      step st (mkState (<[i := Working]> (routines st)) (shared st)
                       (order st))
  | step_finish i st :
      routines st !! i = Some Working ->
      step st (mkState (<[i := Finished]> (routines st))
                       (act i (shared st)) (order st ++ [i])).

Definition start (n : nat) (v0 : V) : state :=
  mkState (replicate n Waiting) v0 [].

Inductive reachable (n : nat) (v0 : V) : state -> Prop :=
  | reachable_start : reachable n v0 (start n v0)
  | reachable_step st st' :
      reachable n v0 st -> step st st' -> reachable n v0 st'.

Definition is_finished (g : goroutine) : bool :=
  match g with
  | Finished => true
  | _ => false
  end.

(** [wg.Wait()] returns. *)
Definition returned (st : state) : bool := forallb is_finished (routines st).

(** The steps that the goroutines still have to take. *)
Fixpoint remaining (rs : list goroutine) : nat :=
  match rs with
  | [] => O
  | Waiting :: rs' => S (S (remaining rs'))
  | Working :: rs' => S (remaining rs')
  | Finished :: rs' => remaining rs'
  end.

(** The next step of the goroutine [i], when it can take one, and a
    run in which the goroutines of [schedule] take a step each, in that
    order. *)
Definition fire (i : nat) (st : state) : option state :=
  match routines st !! i with
  | Some Waiting =>
      if admits (routines st)
      then Some (mkState (<[i := Working]> (routines st)) (shared st)
                         (order st))
      else None
  | Some Working =>
      Some (mkState (<[i := Finished]> (routines st))
                    (act i (shared st)) (order st ++ [i]))
  | _ => None
  end.

Fixpoint run (schedule : list nat) (st : state) : option state :=
  match schedule with
  | [] => Some st
  | i :: rest =>
      match fire i st with
      | Some st' => run rest st'
      | None => None
      end
  end.

(** The shared variables after the goroutines of [done] have written,
    in that order. *)
Definition written (done : list nat) (v0 : V) : V :=
  fold_left (fun v i => act i v) done v0.

End FanOut.

End FanOut.

(** ** PingHosts, TraceMultiple, ScanMultipleHosts *)

Module Hosts.

Import Ping.

(** The zero value of [model.ScanHost]. *)
Definition zero_host : ScanHost :=
  mkScanHost EmptyString EmptyString false Float64.zero 0.

(** [results[idx] = p.pingHost(ctx, addr)] in the goroutine [idx], which
    reads the clock at [now idx]. *)
Definition ping_one (nw : network) (now : nat -> Z) (ips : list string)
    (idx : nat) (results : list ScanHost) : list ScanHost :=
  match ips !! idx with
  | Some addr => <[idx := pingHost nw (now idx) addr]> results
  | None => results
  end.

(** The slices that [PingHosts] can return. *)
Definition PingHosts (p : PingProbe) (nw : network) (now : nat -> Z)
    (ips : list string) (res : list ScanHost) : Prop :=
  exists st,
    FanOut.reachable (ping_one nw now ips) (Some (concurrency p))
                     (length ips) (replicate (length ips) zero_host) st
    /\ FanOut.returned st = true
    /\ res = FanOut.shared st.

End Hosts.

Module Traces.

Import TraceProbe.

Section Multiple.

(** [cmd.Output()] and the clock in the goroutine [idx]. *)
Variable Output : nat -> list string -> string * option error.
Variable now : nat -> Z.

(** The goroutine [idx]: a failed trace sets [firstErr] under the mutex
    when it is still nil, and a trace that succeeds is stored at
    [results[idx]]. *)
Definition trace_one (p : TracerouteProbe) (targets : list string)
    (idx : nat) (v : list (option TraceResult) * option error)
    : list (option TraceResult) * option error :=
  match targets !! idx with
  | Some t =>
      match Trace (Output idx) p (now idx) t with
      | (_, Some err) =>
          (fst v, match snd v with
                  | None => Some err
                  | Some first => Some first
                  end)
      | (result, None) => (<[idx := Some result]> (fst v), snd v)
      end
  | None => v
  end.

(** What the goroutine [idx] stores when its trace succeeds, and the
    error it has otherwise. *)
Definition stored (p : TracerouteProbe) (targets : list string)
    (idx : nat) : option TraceResult :=
  match targets !! idx with
  | Some t =>
      match Trace (Output idx) p (now idx) t with
      | (result, None) => Some result
      | (_, Some _) => None
      end
  | None => None
  end.

Definition reported (p : TracerouteProbe) (targets : list string)
    (idx : nat) : option error :=
  match targets !! idx with
  | Some t => snd (Trace (Output idx) p (now idx) t)
  | None => None
  end.

(** The pairs that [TraceMultiple] can return; [None] in the slice is
    the nil pointer.  [done] is the order in which the goroutines have
    come to their end. *)
Definition TraceMultiple (p : TracerouteProbe) (targets : list string)
    (done : list nat) (res : list (option TraceResult) * option error)
    : Prop :=
  exists st,
    FanOut.reachable (trace_one p targets) None (length targets)
                     (replicate (length targets) None, None) st
    /\ FanOut.returned st = true
    /\ done = FanOut.order st
    /\ res = FanOut.shared st.

End Multiple.

End Traces.

Module Scans.

Import PortScan.

(** [results[h] = ports] under the mutex, in the goroutine [idx] whose
    call of [ScanHost] has returned [scan idx]. *)
Definition scan_one (hosts : list string)
    (scan : nat -> list ScanPort * option error)
    (idx : nat) (results : gmap string (list ScanPort))
    : gmap string (list ScanPort) :=
  match hosts !! idx with
  | Some h =>
      match scan idx with
      | (port :: ports, None) => <[h := port :: ports]> results
      | _ => results
      end
  | None => results
  end.

(** The pairs that [ScanMultipleHosts] can return, [scan idx] being what
    [ScanHost] returns to the goroutine [idx]. *)
Definition ScanMultipleHosts (s : PortScanner) (nw : network)
    (hosts : list string) (scan : nat -> list ScanPort * option error)
    (res : gmap string (list ScanPort) * option error) : Prop :=
  (forall idx h, hosts !! idx = Some h ->
     exists attempted ctx_cancelled,
       ScanHost s nw h attempted ctx_cancelled (scan idx))
  /\ exists st,
       FanOut.reachable (scan_one hosts scan) (Some 5) (length hosts) ∅ st
       /\ FanOut.returned st = true
       /\ res = (FanOut.shared st, None).

(** [SetPorts]: an empty slice changes nothing. *)
Definition SetPorts (ports : list Z) (s : PortScanner) : PortScanner :=
  match ports with
  | [] => s
  | _ :: _ => mkPortScanner (concurrency s) (timeout s) ports
  end.

End Scans.

(** ** The default ports of the configuration (internal/util) *)

Module Config.

(** The table of [GetTopPorts]. *)
Definition topPorts : list Z :=
  [21; 22; 23; 25; 53; 80; 110; 111; 135; 139;
   143; 443; 445; 993; 995; 1723; 3306; 3389; 5432; 5900;
   8080; 8443; 8888; 27017; 6379; 11211; 1433; 1521; 5984; 9200;
   2181; 9092; 6443; 10250; 2379; 4443; 7443; 8000; 8001; 8002;
   9000; 9001; 9090; 9091; 9443; 10000; 10443; 15672; 27018; 27019].

(** [GetTopPorts(n)]; [None] is the panic of [topPorts[:n]] for a
    negative [n]. *)
Definition GetTopPorts (n : Z) : option (list Z) :=
  let n := if Z.of_nat (length topPorts) <? n
           then Z.of_nat (length topPorts) else n in
  if n <? 0 then None else Some (take (Z.to_nat n) topPorts).

End Config.

(** ** Texts made of lines *)

Module Lines.

Import Traceroute.

(** A text without a line feed. *)
Fixpoint no_line_feed (s : string) : bool :=
  match s with
  | EmptyString => true
  | String c s' => negb (is_char "010" c) && no_line_feed s'
  end.

(** The lines [ls], each followed by a line feed. *)
Definition terminated (ls : list string) : string :=
  fold_right (fun l s => l +:+ String "010" s) EmptyString ls.

(** A line that the scanner takes: no line feed, and short enough for
    its buffer. *)
Definition fits (l : string) : bool :=
  no_line_feed l && (Z.of_nat (String.length l) <? MaxScanTokenSize).

End Lines.

(** ** internal/daemon/jobs.go: the address check and the sweep *)

Module Checks.

(** [type ASNInfo struct] of the probes and [type IPRecord struct] of
    internal/model, as far as [runIPCheck] uses them. *)
Record ASNInfo : Type := mkASNInfo {
  asn_ASN : string;
  asn_ISP : string;
  asn_Country : string;
  asn_City : string
}.

Record IPRecord : Type := mkIPRecord {
  rec_IP : string;
  rec_Timestamp : Z;
  rec_ASN : string;
  rec_ISP : string;
  rec_Country : string;
  rec_City : string
}.

Section IPCheck.

(** [probe.GetPublicIP(ctx)], [probes.GetASNInfo(ctx, ip)] with [None]
    for the nil pointer, [ipStorage.HasChanged(ip)] and
    [ipStorage.Save(record)]. *)
Variable GetPublicIP : string * option error.
Variable GetASNInfo : string -> option ASNInfo * option error.
Variable HasChanged : string -> bool * option error.
Variable Save : IPRecord -> option error.

(** [runIPCheck], the record being made at [now]: the error returned
    and the records on which [Save] was called. *)
Definition runIPCheck (now : Z) : option error * list IPRecord :=
  match GetPublicIP with
  | (_, Some err) => (Some err, [])
  | (ip, None) =>
      let record :=
        match fst (GetASNInfo ip) with
        | Some info =>
            mkIPRecord ip now (asn_ASN info) (asn_ISP info)
                       (asn_Country info) (asn_City info)
        | None =>
            mkIPRecord ip now EmptyString EmptyString EmptyString
                       EmptyString
        end in
      match HasChanged ip with
      | (_, Some err) => (Some err, [])
      | (_, None) =>
          match Save record with
          | Some err => (Some err, [record])
          | None => (None, [record])
          end
      end
  end.

End IPCheck.

Section PingSweep.

(** [probe.SweepSubnet(ctx, d.config.SweepSubnet)] and
    [scanStorage.SaveHost(host)]. *)
Variable SweepSubnet : list Ping.ScanHost * option error.
Variable SaveHost : Ping.ScanHost -> option error.

(** The loop over the hosts: the hosts on which [SaveHost] was called,
    and [aliveCount]. *)
Fixpoint save_hosts (hosts : list Ping.ScanHost) (aliveCount : Z)
    : list Ping.ScanHost * Z :=
  match hosts with
  | [] => ([], aliveCount)
  | host :: rest =>
      let count := if Ping.Alive host then int_wrap (aliveCount + 1)
                   else aliveCount in
      let '(saved, total) := save_hosts rest count in
      match SaveHost host with
      | Some _ => (host :: saved, total)
      | None => (host :: saved, total)
      end
  end.

(** [runPingSweep] for the configured subnet: the error returned, the
    hosts on which [SaveHost] was called, and whether the sweep was
    made. *)
Definition runPingSweep (subnet : string)
    : option error * list Ping.ScanHost * bool :=
  if String.eqb subnet EmptyString then (None, [], false)
  else
    match SweepSubnet with
    | (_, Some err) => (Some err, [], true)
    | (hosts, None) => (None, fst (save_hosts hosts 0), true)
    end.

End PingSweep.

End Checks.

(** ** internal/daemon/daemon.go *)

Module Daemon.

(** [type Daemon struct]: whether it runs, when it started, whether its
    context is cancelled, whether its PID file is there, whether its
    database is closed, and the jobs of its scheduler. *)
Record Daemon : Type := mkDaemon {
  running : bool;
  startTime : Z;
  cancelled : bool;
  pid_file : bool;
  db_closed : bool;
  jobs : Scheduler.state
}.


(** The intervals of the configuration and the four functions. *)
Record Settings : Type := mkSettings {
  IPCheckInterval : Z;
  TraceInterval : Z;
  PingSweepInterval : Z;
  PortScanInterval : Z;
  runIPCheck : context -> option error;
  runTraceroute : context -> option error;
  runPingSweep : context -> option error;
  runPortScan : context -> option error
}.

(** [Start] at [now]: [write] is what [writePIDFile] returns, and
    [t1] to [t4] are the clock readings of the four calls of [AddJob]. *)
Definition Start (cfg : Settings) (now : Z) (write : option error)
    (t1 t2 t3 t4 : Z) (d : Daemon) : option error * Daemon :=
  if running d then (Some (Failure "daemon already running"), d)
  else
    match write with
    | Some err =>
        (Some (Failure ("failed to write PID file: " +:+ Error err)),
         mkDaemon true now (cancelled d) (pid_file d) (db_closed d) (jobs d))
    | None =>
        (None,
         mkDaemon true now (cancelled d) true (db_closed d)
           (Status.registerJobs t1 t2 t3 t4
              (IPCheckInterval cfg) (TraceInterval cfg)
              (PingSweepInterval cfg) (PortScanInterval cfg)
              (runIPCheck cfg) (runTraceroute cfg)
              (runPingSweep cfg) (runPortScan cfg) (jobs d)))
    end.

(** The critical section of [Stop]: [None] when the daemon does not run
    and [Stop] returns at once; otherwise the mark is cleared, and nothing
    else has changed yet. *)
Definition Stop_mark (d : Daemon) : option Daemon :=
  if running d
  then Some (mkDaemon false (startTime d) (cancelled d) (pid_file d)
                      (db_closed d) (jobs d))
  else None.

(** [d.cancel()] *)
Definition cancel (d : Daemon) : Daemon :=
  mkDaemon (running d) (startTime d) true (pid_file d) (db_closed d) (jobs d).

(** [removePIDFile]: [removed] tells whether [os.Remove] has removed the
    file; its error is dropped. *)
Definition removePIDFile (removed : bool) (d : Daemon) : Daemon :=
  mkDaemon (running d) (startTime d) (cancelled d)
           (pid_file d && negb removed) (db_closed d) (jobs d).

(** [d.db.Close()] *)
Definition close_db (d : Daemon) : Daemon :=
  mkDaemon (running d) (startTime d) (cancelled d) (pid_file d) true (jobs d).

(** What [Stop] does after its critical section: it cancels the context,
    waits for the goroutines, for 30 seconds at most, which changes no
    field, and only then removes the PID file and closes the database. *)
Definition Stop_clean (removed : bool) (d : Daemon) : Daemon :=
  close_db (removePIDFile removed (cancel d)).

(** [Stop]: it never returns an error. *)
Definition Stop (removed : bool) (d : Daemon) : option error * Daemon :=
  match Stop_mark d with
  | None => (None, d)
  | Some d' => (None, Stop_clean removed d')
  end.

Definition IsRunning (d : Daemon) : bool := running d.

(** A call of [Start] or of [Stop], each run to its end before the
    next. *)
Inductive call : Type :=
  | CallStart (now : Z) (write : option error) (t1 t2 t3 t4 : Z)
  | CallStop (removed : bool).

Definition make (cfg : Settings) (d : Daemon) (c : call)
    : option error * Daemon :=
  match c with
  | CallStart now write t1 t2 t3 t4 => Start cfg now write t1 t2 t3 t4 d
  | CallStop removed => Stop removed d
  end.

(** The daemon after the calls, and how many of them were calls of
    [Start] that returned no error. *)
Fixpoint after (cfg : Settings) (calls : list call) (d : Daemon)
    : Daemon * nat :=
  match calls with
  | [] => (d, O)
  | c :: rest =>
      let '(err, d') := make cfg d c in
      let '(d'', n) := after cfg rest d' in
      match c, err with
      | CallStart _ _ _ _ _ _, None => (d'', S n)
      | _, _ => (d'', n)
      end
  end.

End Daemon.

(** ** Sample jobs, contexts and runs *)

Module Samples.

Import Scheduler.

Definition minute : Z := 60 * second.

(** A context that is never done, and one whose root is cancelled from
    the start. *)
Definition live : context := mkContext (fun _ => false) Canceled.
Definition shut_down : context := mkContext (fun _ => true) Canceled.

Definition failing (ctx : context) : option error :=
  Some (Failure "no IP providers responded").
Definition succeeding (ctx : context) : option error := None.

Definition three_runs : list (Z * Z * context) :=
  [(6 * second, 7 * second, live);
   (38 * second, 39 * second, live);
   (70 * second, 71 * second, live)].

(** The traceroute job, registered at time 0. *)
Definition traceroute : Job :=
  AddJob_job 0 (Jobs.traceroute_job minute ["8.8.8.8"; "1.1.1.1"]).

(** A spawned goroutine of job [i] takes the lock, if there is one. *)
Definition launch_at (now : Z) (i : nat) (s : state) : state :=
  match s !! i with
  | Some c =>
      match launch now c with
      | Some c' => <[i := c']> s
      | None => s
      end
  | None => s
  end.

(** The scheduler after [AddJob] and two ticks that both find the job
    due, then after the first and the second of the two goroutines have
    taken the lock. *)
Definition registered : state :=
  AddJob 0 (newJob "traceroute" minute
                   (Jobs.runTraceroute ["8.8.8.8"; "1.1.1.1"]))
         NewScheduler.
Definition ticked_twice : state :=
  checkJobs (7 * second) (checkJobs (6 * second) registered).
Definition launched : state := launch_at (7 * second) 0 ticked_twice.
Definition launched_twice : state := launch_at (7 * second) 0 launched.

(** Output of traceroute in which hop 2 does not appear. *)
Definition trace_output : string :=
  "traceroute to 8.8.8.8 (8.8.8.8), 30 hops max, 60 byte packets
 1  192.168.0.1  1.234 ms
 3  * * *
 4  10.20.30.40  17 ms
".

(** A network on which 192.168.1.1 refuses the connection to port 80 and
    nothing else answers. *)
Definition lan : Ping.network :=
  Ping.mkNetwork
    (fun ip port =>
       if String.eqb ip "192.168.1.1" && (port =? 80)
       then (Some (OpError "dial" "tcp" None (Some "192.168.1.1:80")
                     (Failure "connect: connection refused")), 350)
       else (Some (OpError "dial" "tcp" None (Some ip)
                     (Failure "i/o timeout")),
             2000000))
    (fun ip => ([], Some (Failure "no such host"))).

(** A host on which only port 22 accepts connections, and greets. *)
Definition ssh_only : PortScan.network :=
  PortScan.mkNetwork
    (fun host port =>
       if port =? 22 then None
       else Some (OpError "dial" "tcp" None (Some host)
                    (Failure "connect: connection refused")))
    (fun host port => Some "SSH-2.0-OpenSSH_9.6").

(** The schedule of a sweep of two addresses by two workers, and that of
    a scan of the fifty default ports by twenty workers which gives one
    result. *)
Definition sweep_schedule : list (Pool.label (E := Z)) :=
  Pool.sequential 2 2 2 (9 * second).
Definition scan_schedule : list (Pool.label (E := Z)) :=
  Pool.sequential 50 20 1 (9 * second).

(** A build of the [net] package that reads no IPv6 text. *)
Definition no_v6 (s : string) : option (Net.IP * Net.IPNet) := None.
Definition no_text (ip : Net.IP) : string := "?".

(** Provider answers. *)
Definition answer_a : string := "203.0.113.7".
Definition answer_b : string := "198.51.100.9".

(** A machine on which traceroute reaches 8.8.8.8, with either command,
    and fails for every other target. *)
Definition tracer (idx : nat) (args : list string) : string * option error :=
  if bool_decide (last args = Some "8.8.8.8")
  then (trace_output, None)
  else (EmptyString, Some (Failure "exit status 1")).

(** A sweep of two addresses by two workers in which the context is
    cancelled after the first address has been probed. *)
Definition cancelled_schedule : list (Pool.label (E := Z)) :=
  [Pool.Send; Pool.Recv 0; Pool.Work 0 (9 * second); Pool.Cancel;
   Pool.SendSkip; Pool.CloseJobs; Pool.RangeEnd 0; Pool.RangeEnd 1;
   Pool.CloseResults; Pool.Collect (9 * second); Pool.Return].

(** A line of 64 KiB. *)
Definition long_line : string :=
  Nat.iter 16 (fun s => s +:+ s) "9".

(** A numeral of 400 digits. *)
Definition nines : string := Nat.iter 400 (String "9") EmptyString.

(** The clock of the goroutines. *)
Definition clock (idx : nat) : Z := 9 * second + Z.of_nat idx.

End Samples.

(** * Properties *)

(** ** Machine integers *)

Lemma int_wrap_small z : - 2 ^ 63 <= z <= max_int -> int_wrap z = z.
Proof.
  intros Hz. unfold int_wrap, max_int in *.
  rewrite Z.mod_small; lia.
Qed.

(** ** The scheduler *)

Section SchedulerFacts.

Import Scheduler.

Lemma runJob_idle t0 t1 ctx j :
  running j = false ->
  runJob t0 t1 ctx j
  = runJob_end (Run j ctx) t1
      (mkJob (Name j) (Interval j) (Run j) t0 (nextRun j) (lastError j)
             (errorCount j) true).
Proof. intros Hidle. unfold runJob, runJob_begin. now rewrite Hidle. Qed.

Lemma runJob_end_idle err now j : running (runJob_end err now j) = false.
Proof. now destruct err. Qed.

Lemma runJob_end_Run err now j : Run (runJob_end err now j) = Run j.
Proof. now destruct err. Qed.

Lemma runJob_keeps t0 t1 ctx j :
  running j = false ->
  running (runJob t0 t1 ctx j) = false
  /\ Run (runJob t0 t1 ctx j) = Run j.
Proof.
  intros Hidle. rewrite runJob_idle by assumption.
  split; [apply runJob_end_idle | now rewrite runJob_end_Run].
Qed.

Lemma runJob_failure t0 t1 ctx j e :
  running j = false -> Run j ctx = Some e ->
  lastError (runJob t0 t1 ctx j) = Some e
  /\ errorCount (runJob t0 t1 ctx j) = int_wrap (errorCount j + 1)
  /\ nextRun (runJob t0 t1 ctx j) = t1 + Z.quot (Interval j) 2.
Proof.
  intros Hidle Hrun. rewrite runJob_idle by assumption.
  simpl. rewrite Hrun. now simpl.
Qed.

Lemma runJob_success t0 t1 ctx j :
  running j = false -> Run j ctx = None ->
  lastError (runJob t0 t1 ctx j) = None
  /\ errorCount (runJob t0 t1 ctx j) = errorCount j
  /\ nextRun (runJob t0 t1 ctx j) = t1 + Interval j.
Proof.
  intros Hidle Hrun. rewrite runJob_idle by assumption.
  simpl. rewrite Hrun. now simpl.
Qed.

(** A job that fails at every execution counts them. *)
Lemma executions_failing runs : forall j,
  running j = false ->
  (forall ctx, Run j ctx <> None) ->
  0 <= errorCount j ->
  errorCount j + Z.of_nat (length runs) <= max_int ->
  errorCount (executions runs j) = errorCount j + Z.of_nat (length runs).
Proof.
  induction runs as [|[[t0 t1] ctx] runs IH]; intros j Hidle Hfail Hpos Hmax.
  - simpl. lia.
  - cbn [executions length] in *.
    destruct (Run j ctx) as [e|] eqn:Hrun; [|now destruct (Hfail ctx)].
    destruct (runJob_failure t0 t1 ctx j e Hidle Hrun) as (_ & Hcount & _).
    destruct (runJob_keeps t0 t1 ctx j Hidle) as [Hidle' HRun'].
    rewrite int_wrap_small in Hcount by (unfold max_int in *; lia).
    rewrite IH; try assumption.
    + rewrite Hcount. lia.
    + intros ctx'. rewrite HRun'. apply Hfail.
    + lia.
    + rewrite Hcount. lia.
Qed.

(** A job that succeeds at every execution keeps its count. *)
Lemma executions_succeeding runs : forall j,
  running j = false ->
  (forall ctx, Run j ctx = None) ->
  errorCount (executions runs j) = errorCount j.
Proof.
  induction runs as [|[[t0 t1] ctx] runs IH]; intros j Hidle Hok.
  - reflexivity.
  - cbn [executions].
    destruct (runJob_success t0 t1 ctx j Hidle (Hok ctx)) as (_ & Hcount & _).
    destruct (runJob_keeps t0 t1 ctx j Hidle) as [Hidle' HRun'].
    rewrite IH; try assumption.
    intros ctx'. rewrite HRun'. apply Hok.
Qed.

(** C1.  An execution that succeeds clears [lastError] and sets [nextRun]
    to the completion time plus the interval; one that fails records the
    error, adds one to [errorCount] and sets [nextRun] to the completion
    time plus half the interval.  So a registered job that always fails
    has counted [n] errors after [n] executions, and one that always
    succeeds stays at 0.  ([errorCount] is a Go [int]: the count is exact
    as long as it fits, which [2^63] executions would be needed to
    break.) *)
Theorem runJob_outcome :
  (forall job ctx t0 t1,
      running job = false ->
      0 <= errorCount job < max_int ->
      match Run job ctx with
      | None =>
          lastError (runJob t0 t1 ctx job) = None
          /\ nextRun (runJob t0 t1 ctx job) = t1 + Interval job
          /\ errorCount (runJob t0 t1 ctx job) = errorCount job
      | Some e =>
          lastError (runJob t0 t1 ctx job) = Some e
          /\ errorCount (runJob t0 t1 ctx job) = errorCount job + 1
          /\ nextRun (runJob t0 t1 ctx job) = t1 + Z.quot (Interval job) 2
      end)
  /\ (forall name interval run now runs,
         (forall ctx, run ctx <> None) ->
         Z.of_nat (length runs) <= max_int ->
         errorCount
           (executions runs (AddJob_job now (newJob name interval run)))
         = Z.of_nat (length runs))
  /\ (forall name interval run now runs,
         (forall ctx, run ctx = None) ->
         errorCount
           (executions runs (AddJob_job now (newJob name interval run)))
         = 0).
Proof.
  split; [|split].
  - intros j ctx t0 t1 Hidle Hcount.
    destruct (Run j ctx) as [e|] eqn:Hrun.
    + destruct (runJob_failure t0 t1 ctx j e Hidle Hrun) as (He & Hc & Hn).
      rewrite int_wrap_small in Hc by (unfold max_int in *; lia).
      auto.
    + destruct (runJob_success t0 t1 ctx j Hidle Hrun) as (He & Hc & Hn).
      auto.
  - intros name interval run now runs Hfail Hlen.
    rewrite executions_failing; simpl; auto; lia.
  - intros name interval run now runs Hok.
    now rewrite executions_succeeding.
Qed.

End SchedulerFacts.

Section SchedulerWitness.

Import Scheduler Samples.

Lemma runJob_outcome_witness :
  errorCount (runJob 0 7 live (AddJob_job 0 (newJob "ip_check" minute failing)))
  = 1
  /\ errorCount
       (executions three_runs (AddJob_job 0 (newJob "ip_check" minute failing)))
     = 3
  /\ errorCount
       (executions three_runs
          (AddJob_job 0 (newJob "port_scan" minute succeeding)))
     = 0.
Proof.
  destruct runJob_outcome as (Hone & Hfail & Hok).
  split; [|split].
  - pose proof (Hone (AddJob_job 0 (newJob "ip_check" minute failing))
                     live 0 7 eq_refl) as H.
    simpl in H. apply H. unfold max_int. lia.
  - apply (Hfail "ip_check" minute failing 0 three_runs).
    + intros ctx. discriminate.
    + unfold max_int. simpl. lia.
  - apply (Hok "port_scan" minute succeeding 0 three_runs).
    intros ctx. reflexivity.
Defined.

End SchedulerWitness.

Section SchedulerInvariant.

Import Scheduler.

Lemma cell_ok_check now c : cell_ok c -> cell_ok (check now c).
Proof. unfold check. now destruct (shouldRun now (job c)). Qed.

Lemma cell_ok_launch now c c' :
  cell_ok c -> launch now c = Some c' -> cell_ok c'.
Proof.
  unfold cell_ok, launch, runJob_begin. intros Hok Hl.
  destruct (spawned c) as [|n]; [discriminate|].
  destruct (running (job c)) eqn:Hrun; inversion Hl; subst; simpl.
  - now rewrite Hrun.
  - now rewrite Hok.
Qed.

Lemma cell_ok_complete ctx now c c' :
  cell_ok c -> complete ctx now c = Some c' -> cell_ok c'.
Proof.
  unfold cell_ok, complete. intros Hok Hc.
  destruct (inflight c) as [|n] eqn:Hin; [discriminate|].
  inversion Hc; subst; simpl. rewrite runJob_end_idle.
  destruct (running (job c)); congruence.
Qed.

Lemma cell_ok_trigger now c : cell_ok c -> cell_ok (trigger now c).
Proof. now unfold cell_ok. Qed.

Lemma step_cell_ok s s' : step s s' -> Forall cell_ok s -> Forall cell_ok s'.
Proof.
  intros Hstep Hall.
  assert (Hat : forall i c, s !! i = Some c -> cell_ok c).
  { intros i c Hi. eapply Forall_lookup_1; eauto. }
  destruct Hstep.
  - unfold AddJob. apply Forall_app. split; [assumption|].
    constructor; [reflexivity | constructor].
  - apply Forall_insert; [assumption|]. apply cell_ok_check. eauto.
  - unfold checkJobs. apply Forall_fmap.
    eapply Forall_impl; [exact Hall|]. intros c Hc. now apply cell_ok_check.
  - apply Forall_insert; [assumption|]. eapply cell_ok_launch; eauto.
  - apply Forall_insert; [assumption|]. eapply cell_ok_complete; eauto.
  - apply Forall_insert; [assumption|]. apply cell_ok_trigger. eauto.
Qed.

Lemma reachable_cell_ok s : reachable s -> Forall cell_ok s.
Proof.
  induction 1 as [|s s' _ IH Hstep].
  - constructor.
  - eapply step_cell_ok; eauto.
Qed.

(** C2.  In every state that the scheduler can reach, each job has at
    most one execution in flight, and has one exactly when it is marked
    running.  A tick starts a goroutine only for a job that is not
    running and whose [nextRun] has passed, and a goroutine that finds
    the job running returns without starting an execution. *)
Theorem one_execution_in_flight :
  (forall s, reachable s ->
     forall i c, s !! i = Some c ->
       (inflight c <= 1)%nat
       /\ (inflight c = 1%nat <-> running (job c) = true))
  /\ (forall now c,
        spawned (check now c) <> spawned c ->
        running (job c) = false /\ nextRun (job c) < now)
  /\ (forall now c c',
        running (job c) = true -> launch now c = Some c' ->
        inflight c' = inflight c /\ job c' = job c).
Proof.
  split; [|split].
  - intros s Hs i c Hi.
    pose proof (Forall_lookup_1 _ _ _ _ (reachable_cell_ok s Hs) Hi) as Hok.
    unfold cell_ok in Hok. destruct (running (job c)); rewrite Hok.
    + split; [lia | tauto].
    + split; [lia | split; discriminate].
  - intros now c. unfold check, shouldRun.
    destruct (running (job c)); simpl; [congruence|].
    destruct (nextRun (job c) <? now) eqn:Hlt; [|congruence].
    intros _. split; [reflexivity | now apply Z.ltb_lt].
  - intros now c c' Hrun. unfold launch, runJob_begin. rewrite Hrun.
    destruct (spawned c); [discriminate|].
    intros Hl. inversion Hl; subst. now simpl.
Qed.

End SchedulerInvariant.

Section SchedulerInvariantWitness.

Import Scheduler Samples.

Lemma launch_at_reachable now i s :
  reachable s -> reachable (launch_at now i s).
Proof.
  intros Hs. unfold launch_at.
  destruct (s !! i) as [c|] eqn:Hc; [|exact Hs].
  destruct (launch now c) as [c'|] eqn:Hl; [|exact Hs].
  apply (reachable_step s); [exact Hs|].
  now apply (step_launch now i c c').
Qed.

Lemma launched_twice_reachable : reachable launched_twice.
Proof.
  do 2 apply launch_at_reachable.
  apply (reachable_step (checkJobs (6 * second) registered));
    [|apply step_tick].
  apply (reachable_step registered); [|apply step_tick].
  apply (reachable_step NewScheduler); [constructor|].
  apply (step_add 0 "traceroute" minute
                  (Jobs.runTraceroute ["8.8.8.8"; "1.1.1.1"])).
Qed.

Lemma one_execution_in_flight_witness :
  exists c c1 c2,
    launched_twice !! 0%nat = Some c
    /\ (inflight c <= 1)%nat /\ running (job c) = true
    /\ registered !! 0%nat = Some c1
    /\ nextRun (job c1) < 6 * second
    /\ launched !! 0%nat = Some c2
    /\ launch (7 * second) c2 = Some c
    /\ inflight c = inflight c2.
Proof.
  destruct one_execution_in_flight as (Hinv & Hcheck & Hlaunch).
  destruct (launched_twice !! 0%nat) as [c|] eqn:Hc; [|discriminate].
  destruct (registered !! 0%nat) as [c1|] eqn:Hc1; [|discriminate].
  destruct (launched !! 0%nat) as [c2|] eqn:Hc2; [|discriminate].
  exists c, c1, c2.
  destruct (Hinv launched_twice launched_twice_reachable 0%nat c Hc)
    as [Hle Hiff].
  injection Hc as <-. injection Hc1 as <-. injection Hc2 as <-.
  split; [reflexivity|]. split; [exact Hle|].
  split; [apply Hiff; reflexivity|].
  split; [reflexivity|].
  split; [apply (Hcheck (6 * second)); discriminate|].
  split; [reflexivity|]. split; [reflexivity|].
  apply (Hlaunch (7 * second)); reflexivity.
Defined.

End SchedulerInvariantWitness.

Section Cancellation.

Import Scheduler Jobs Samples.

(** [runTraceroute] returns the error of the context as soon as a poll
    finds it done. *)
Lemma runTraceroute_from_done targets : forall poll ctx,
  targets <> [] -> Done ctx poll = true ->
  runTraceroute_from poll targets ctx = Some (Err ctx).
Proof.
  destruct targets as [|t rest]; intros poll ctx Hne Hdone; [congruence|].
  simpl. now rewrite Hdone.
Qed.

(** Without a poll that finds the context done, it returns nil. *)
Lemma runTraceroute_from_live targets : forall poll ctx,
  (forall n, Done ctx n = false) ->
  runTraceroute_from poll targets ctx = None.
Proof.
  induction targets as [|t rest IH]; intros poll ctx Hlive; [reflexivity|].
  simpl. rewrite Hlive. now apply IH.
Qed.

(** C3, as stated, fails: the traceroute job, run with a root context
    that is cancelled, returns [context.Canceled], and the wrapper counts
    it and schedules the retry after half the interval. *)
Lemma cancellation_counted :
  ~ cancellation_exempt traceroute shut_down (6 * second) (7 * second).
Proof.
  unfold cancellation_exempt. intros H.
  destruct (H eq_refl) as [Hcount _].
  vm_compute in Hcount. discriminate.
Qed.

(** C3, amended.  An execution that ends with the cancellation error of
    the context, as [runTraceroute] does when it polls a cancelled
    context before a target, is handled as any other failure: the error
    is recorded, [errorCount] goes up by one and [nextRun] is the
    completion time plus half the interval. *)
Theorem cancellation_is_a_failure :
  forall job ctx t0 t1,
    running job = false ->
    0 <= errorCount job < max_int ->
    Run job ctx = Some Canceled ->
    lastError (runJob t0 t1 ctx job) = Some Canceled
    /\ errorCount (runJob t0 t1 ctx job) = errorCount job + 1
    /\ nextRun (runJob t0 t1 ctx job) = t1 + Z.quot (Interval job) 2.
Proof.
  intros job ctx t0 t1 Hidle Hcount Hrun.
  destruct (runJob_failure t0 t1 ctx job Canceled Hidle Hrun)
    as (He & Hc & Hn).
  rewrite int_wrap_small in Hc by (unfold max_int in *; lia).
  auto.
Qed.

Lemma cancellation_is_a_failure_witness :
  Run traceroute shut_down = Some Canceled
  /\ lastError (runJob (6 * second) (7 * second) shut_down traceroute)
     = Some Canceled
  /\ errorCount (runJob (6 * second) (7 * second) shut_down traceroute) = 1
  /\ nextRun (runJob (6 * second) (7 * second) shut_down traceroute)
     = 37 * second.
Proof.
  split; [reflexivity|].
  apply (cancellation_is_a_failure traceroute shut_down
           (6 * second) (7 * second)).
  - reflexivity.
  - unfold max_int. simpl. lia.
  - reflexivity.
Defined.

End Cancellation.

(** ** The public address *)

Section Consensus.

Import IP.

Lemma tally_snoc ips ip : tally (ips ++ [ip]) = count_one (tally ips) ip.
Proof. unfold tally. now rewrite fold_left_app. Qed.

Lemma occurrences_snoc ip x ips :
  occurrences ip (ips ++ [x])
  = occurrences ip ips + (if decide (x = ip) then 1 else 0).
Proof.
  unfold occurrences. rewrite filter_app, length_app.
  rewrite filter_cons, filter_nil.
  destruct (decide (x = ip)); simpl; lia.
Qed.

Lemma occurrences_bounds ip ips :
  0 <= occurrences ip ips <= Z.of_nat (length ips).
Proof.
  unfold occurrences. pose proof (length_filter (fun x => x = ip) ips). lia.
Qed.

Lemma occurrences_pos ip ips : ip ∈ ips <-> 0 < occurrences ip ips.
Proof.
  unfold occurrences. split.
  - intros Hin.
    assert (Hf : ip ∈ filter (fun x => x = ip) ips)
      by (apply list_elem_of_filter; auto).
    destruct (filter (fun x => x = ip) ips); [inversion Hf | simpl; lia].
  - intros Hpos.
    destruct (filter (fun x => x = ip) ips) as [|y l] eqn:Hf;
      [simpl in Hpos; lia|].
    assert (Hy : y ∈ filter (fun x => x = ip) ips)
      by (rewrite Hf; constructor).
    apply list_elem_of_filter in Hy as [-> Hy]. exact Hy.
Qed.

(** The map built by the first loop holds, for each address met, the
    number of times it was met. *)
Lemma tally_lookup ips : forall ip,
  Z.of_nat (length ips) <= max_int ->
  tally ips !! ip
  = if decide (0 < occurrences ip ips) then Some (occurrences ip ips)
    else None.
Proof.
  induction ips as [|x ips IH] using rev_ind; intros ip Hlen.
  - unfold tally. simpl. rewrite lookup_empty.
    destruct (decide (0 < occurrences ip [])) as [H|H]; [|reflexivity].
    unfold occurrences in H. simpl in H. lia.
  - rewrite length_app in Hlen. simpl in Hlen.
    rewrite tally_snoc, occurrences_snoc. unfold count_one.
    pose proof (occurrences_bounds ip ips) as Hb.
    destruct (decide (x = ip)) as [->|Hne].
    + rewrite lookup_insert_eq. rewrite decide_True by lia.
      f_equal. rewrite IH by lia.
      destruct (decide (0 < occurrences ip ips)); simpl;
        rewrite int_wrap_small; unfold max_int in *; lia.
    + rewrite lookup_insert_ne by assumption.
      rewrite IH by lia. now rewrite Z.add_0_r.
Qed.

(** The second loop keeps an entry of greatest count. *)
Lemma fold_pick order : forall acc,
  (fold_left pick order acc = acc \/ fold_left pick order acc ∈ order)
  /\ snd acc <= snd (fold_left pick order acc)
  /\ (forall e, e ∈ order -> snd e <= snd (fold_left pick order acc)).
Proof.
  induction order as [|e order IH]; intros acc.
  - simpl. split; [now left|]. split; [lia|]. intros e He. inversion He.
  - simpl. destruct (IH (pick acc e)) as (Hwhere & Hge & Hmax).
    assert (Hpick : (pick acc e = acc /\ snd e <= snd acc)
                    \/ (pick acc e = e /\ snd acc < snd e)).
    { unfold pick. destruct (snd acc <? snd e) eqn:Hlt.
      - right. split; [reflexivity | now apply Z.ltb_lt].
      - left. split; [reflexivity | now apply Z.ltb_ge]. }
    split; [|split].
    + destruct Hwhere as [Heq|Hin].
      * destruct Hpick as [[Hp _]|[Hp _]]; rewrite Hp in *.
        -- now left.
        -- right. rewrite Heq. constructor.
      * right. now constructor.
    + destruct Hpick as [[Hp Hle]|[Hp Hlt]]; rewrite Hp in *; lia.
    + intros e' He'. apply elem_of_cons in He' as [->|He'].
      * destruct Hpick as [[Hp Hle]|[Hp Hlt]]; rewrite Hp in *; lia.
      * now apply Hmax.
Qed.

(** Whatever the order in which the map is ranged over, [consensus]
    gives an address of greatest count. *)
Lemma consensus_in_greatest ips order :
  ips <> [] ->
  Z.of_nat (length ips) <= max_int ->
  range_order (tally ips) order ->
  consensus_in order ∈ ips
  /\ forall ip, occurrences ip ips <= occurrences (consensus_in order) ips.
Proof.
  intros Hne Hlen Hord. unfold range_order in Hord.
  assert (Hentry : forall ip c,
             (ip, c) ∈ order <-> (0 < occurrences ip ips /\ c = occurrences ip ips)).
  { intros ip c. rewrite Hord, elem_of_map_to_list, tally_lookup by assumption.
    destruct (decide (0 < occurrences ip ips)); split.
    - intros [= <-]. auto.
    - intros [_ ->]. reflexivity.
    - discriminate.
    - intros [? _]. contradiction. }
  unfold consensus_in.
  destruct (fold_pick order (EmptyString, 0)) as (Hwhere & Hge & Hmax).
  destruct (fold_left pick order (EmptyString, 0)) as [r c] eqn:Hr.
  simpl in *.
  destruct ips as [|x ips']; [congruence|].
  assert (Hx : 0 < occurrences x (x :: ips'))
    by (apply occurrences_pos; constructor).
  assert (Hxin : (x, occurrences x (x :: ips')) ∈ order)
    by (apply Hentry; auto).
  pose proof (Hmax _ Hxin) as Hcx. simpl in Hcx.
  destruct Hwhere as [Heq|Hin]; [inversion Heq; subst; lia|].
  apply Hentry in Hin as [Hpos ->].
  split; [now apply occurrences_pos|].
  intros ip. destruct (decide (0 < occurrences ip (x :: ips'))) as [Hp|Hp].
  - assert (Hi : (ip, occurrences ip (x :: ips')) ∈ order)
      by (apply Hentry; auto).
    apply (Hmax _ Hi).
  - lia.
Qed.

End Consensus.

Section Collection.

Import IP Samples.

Variable ctx : context.
Variable pick_order : gmap string Z -> list (string * Z).

Lemma decide_ip_error ips errs :
  snd (decide_ip pick_order ips errs) <> None <-> ips = [].
Proof.
  unfold decide_ip. destruct ips as [|ip ips]; simpl.
  - destruct errs; simpl; split; congruence.
  - split; congruence.
Qed.

Lemma decide_ip_address ips errs :
  ips <> [] ->
  fst (decide_ip pick_order ips errs) = consensus_in (pick_order (tally ips)).
Proof. destruct ips; [congruence | reflexivity]. Qed.

(** With an event for each iteration, the loop comes to its end. *)
Lemma collect_returns n : forall evs ips errs,
  (n <= length evs)%nat ->
  is_Some (collect n evs ctx pick_order ips errs).
Proof.
  induction n as [|n IH]; intros evs ips errs Hlen; simpl; [eauto|].
  destruct evs as [|ev evs]; simpl in Hlen; [lia|].
  destruct ev; eauto; apply IH; lia.
Qed.

(** Short of events and without a cancellation, it blocks. *)
Lemma collect_blocks n : forall evs ips errs,
  (length evs < n)%nat -> cancelled n evs = false ->
  collect n evs ctx pick_order ips errs = None.
Proof.
  induction n as [|n IH]; intros evs ips errs Hlen Hlive; [lia|].
  destruct evs as [|ev evs]; [reflexivity|].
  simpl in Hlen. destruct ev; simpl in *; try discriminate; apply IH; auto; lia.
Qed.

Lemma collect_result n : forall evs ips errs ip err,
  collect n evs ctx pick_order ips errs = Some (ip, err) ->
  (cancelled n evs = true /\ err = Some (Err ctx))
  \/ (cancelled n evs = false
      /\ exists errs',
           (ip, err) = decide_ip pick_order (ips ++ collected n evs) errs').
Proof.
  induction n as [|n IH]; intros evs ips errs ip err Hc.
  - simpl in Hc. inversion Hc as [Hd]. right. split; [now destruct evs|].
    exists errs. destruct evs; simpl; now rewrite app_nil_r.
  - destruct evs as [|ev evs]; [discriminate|].
    destruct ev as [ip0|e| |]; simpl in Hc.
    + apply IH in Hc. simpl. rewrite <- app_assoc in Hc. exact Hc.
    + apply IH in Hc. exact Hc.
    + apply IH in Hc. exact Hc.
    + inversion Hc; subst. left. auto.
Qed.

Lemma collected_length n : forall evs, (length (collected n evs) <= n)%nat.
Proof.
  induction n as [|n IH]; intros evs; [destruct evs; simpl; lia|].
  destruct evs as [|[ip|e| |] evs]; simpl; try lia;
    specialize (IH evs); lia.
Qed.

(** The events before a timeout and those after it. *)
Lemma cancelled_timeout pre : forall n post,
  (length pre < n)%nat ->
  cancelled n (pre ++ TimeoutFired :: post) = false ->
  cancelled (length pre) pre = false
  /\ cancelled (n - length pre - 1) post = false.
Proof.
  induction pre as [|ev pre IH]; intros n post Hlen Hlive.
  - destruct n as [|n]; [simpl in Hlen; lia|]. simpl in *.
    now rewrite Nat.sub_0_r.
  - destruct n as [|n]; [simpl in Hlen; lia|]. simpl in Hlen.
    destruct ev; simpl in *; try discriminate; apply IH; auto; lia.
Qed.

Lemma collected_timeout pre : forall n post,
  (length pre < n)%nat ->
  cancelled n (pre ++ TimeoutFired :: post) = false ->
  collected n (pre ++ TimeoutFired :: post)
  = collected (length pre) pre ++ collected (n - length pre - 1) post.
Proof.
  induction pre as [|ev pre IH]; intros n post Hlen Hlive.
  - destruct n as [|n]; [simpl in Hlen; lia|]. simpl.
    now rewrite Nat.sub_0_r.
  - destruct n as [|n]; [simpl in Hlen; lia|]. simpl in Hlen.
    destruct ev; simpl in *; try discriminate; rewrite IH; auto; lia.
Qed.

End Collection.

Section PublicIP.

Import IP Samples.





(** C5.  The timeout does not end the collection.  The [select] that
    receives it spends one of the [len(providers)] iterations, and the
    loop goes on: when the timeout comes after the events [pre], fewer
    than [len(providers)], and the context is not found done, the call
    returns exactly when as many further events have been received as
    iterations are left, and what it returns is decided by the answers
    received before the timeout together with those received after it.
    So with three providers that all answer, the first of them after the
    timeout, the call does not return when the timeout fires, with the
    failure that the answers gathered so far would give: it waits for
    two answers and returns their address. *)
Theorem timeout_does_not_end_collection :
  (forall n pre post ctx pick_order,
      (length pre < n)%nat ->
      cancelled n (pre ++ TimeoutFired :: post) = false ->
      (is_Some (GetPublicIP n (pre ++ TimeoutFired :: post) ctx pick_order)
       <-> (n - length pre - 1 <= length post)%nat)
      /\ forall ip err,
           GetPublicIP n (pre ++ TimeoutFired :: post) ctx pick_order
           = Some (ip, err) ->
           exists errs,
             (ip, err)
             = decide_ip pick_order
                 (collected (length pre) pre
                  ++ collected (n - length pre - 1) post) errs)
  /\ GetPublicIP 3 [TimeoutFired] live map_to_list = None
  /\ GetPublicIP 3 [TimeoutFired; RecvResult answer_b] live map_to_list
     = None
  /\ GetPublicIP 3 [TimeoutFired; RecvResult answer_b; RecvResult answer_b]
                  live map_to_list
     = Some (answer_b, None)
  /\ decide_ip map_to_list [] []
     = (EmptyString, Some (Failure "no IP providers responded")).
Proof.
  split; [|repeat split].
  intros n pre post ctx po Hlen Hlive. unfold GetPublicIP. split.
  - split.
    + intros Hsome.
      destruct (Nat.le_gt_cases (n - length pre - 1) (length post))
        as [Hle|Hgt]; [exact Hle|].
      rewrite (collect_blocks ctx po n) in Hsome;
        [now destruct Hsome | | exact Hlive].
      rewrite length_app. simpl. lia.
    + intros Hle. apply collect_returns. rewrite length_app. simpl. lia.
  - intros ip err Hc.
    apply collect_result in Hc as [[Hcan _]|[_ [errs Hd]]]; [congruence|].
    exists errs. simpl in Hd.
    now rewrite (collected_timeout pre n post Hlen Hlive) in Hd.
Qed.

Lemma timeout_does_not_end_collection_witness :
  is_Some (GetPublicIP 3 [TimeoutFired; RecvResult answer_b;
                          RecvResult answer_b] live map_to_list)
  /\ ~ is_Some (GetPublicIP 3 [TimeoutFired; RecvResult answer_b]
                            live map_to_list).
Proof.
  destruct timeout_does_not_end_collection as (Hgen & _).
  split.
  - apply (Hgen 3%nat [] [RecvResult answer_b; RecvResult answer_b]
             live map_to_list); simpl; [lia | reflexivity | lia].
  - intros Hsome.
    apply (Hgen 3%nat [] [RecvResult answer_b] live map_to_list) in Hsome;
      simpl in *; [lia | lia | reflexivity].
Defined.

End PublicIP.

(** ** The traceroute parser *)

Section Matcher.

Import Traceroute.

Lemma append_nil_l (s : string) : EmptyString +:+ s = s.
Proof. reflexivity. Qed.

Lemma append_cons c (a b : string) : String c a +:+ b = String c (a +:+ b).
Proof. reflexivity. Qed.

Lemma append_assoc (a b c : string) : (a +:+ b) +:+ c = a +:+ (b +:+ c).
Proof.
  induction a as [|x a IH]; [reflexivity|].
  change (String x ((a +:+ b) +:+ c) = String x (a +:+ (b +:+ c))).
  now rewrite IH.
Qed.

(** The greedy repetition succeeds exactly when the continuation accepts
    what follows some run of characters of the class. *)
Lemma star_k_spec {A : Type} p (k : string -> option A) s :
  is_Some (star_k p k s)
  <-> exists s1 s2, s = s1 +:+ s2 /\ all_chars p s1 /\ is_Some (k s2).
Proof.
  split.
  - induction s as [|c s IH]; simpl.
    + intros Hk. exists EmptyString, EmptyString. repeat split; [constructor | exact Hk].
    + destruct (p c) eqn:Hp.
      * destruct (star_k p k s) as [r|] eqn:Hs.
        -- intros _. destruct IH as (s1 & s2 & -> & Hall & Hk); [eauto|].
           exists (String c s1), s2. repeat split; [now constructor | exact Hk].
        -- intros Hk. exists EmptyString, (String c s).
           repeat split; [constructor | exact Hk].
      * intros Hk. exists EmptyString, (String c s).
        repeat split; [constructor | exact Hk].
  - intros (s1 & s2 & -> & Hall & Hk).
    induction Hall as [|c s1 Hp Hall IH]; simpl.
    + destruct s2 as [|c s2]; simpl; [exact Hk|].
      destruct (p c); [|exact Hk].
      destruct (star_k p k s2); [eauto | exact Hk].
    + rewrite Hp. destruct IH as [r ->]. eauto.
Qed.

(** The matcher succeeds exactly when the text starts with a text of the
    pattern that the continuation accepts the rest of. *)
Lemma run_spec r : forall s caps k,
  blind k ->
  (is_Some (run r s caps k)
   <-> exists s1 s2, s = s1 +:+ s2 /\ matches r s1 /\ is_Some (k s2 caps)).
Proof.
  induction r as [p|p|p|p|r1 IH1 r2 IH2|r1 IH1 r2 IH2|i r IH];
    intros s caps k Hblind; simpl.
  - (* Chr *)
    split.
    + destruct s as [|c s]; [intros [? [=]]|].
      destruct (p c) eqn:Hp; [|intros [? [=]]].
      intros Hk. exists (String c EmptyString), s.
      repeat split; [now constructor | exact Hk].
    + intros (s1 & s2 & -> & Hm & Hk). inversion Hm; subst. simpl.
      match goal with H : p _ = true |- _ => now rewrite H end.
  - (* Star *)
    rewrite star_k_spec. split.
    + intros (s1 & s2 & -> & Hall & Hk). exists s1, s2.
      repeat split; [now constructor | exact Hk].
    + intros (s1 & s2 & -> & Hm & Hk). inversion Hm; subst. eauto.
  - (* Plus *)
    split.
    + destruct s as [|c s]; [intros [? [=]]|].
      destruct (p c) eqn:Hp; [|intros [? [=]]].
      intros Hs. apply star_k_spec in Hs as (s1 & s2 & -> & Hall & Hk).
      exists (String c s1), s2. repeat split; [now constructor | exact Hk].
    + intros (s1 & s2 & -> & Hm & Hk). inversion Hm; subst. simpl.
      match goal with H : p _ = true |- _ => rewrite H end.
      apply star_k_spec. eauto.
  - (* Quest *)
    split.
    + destruct s as [|c s].
      * intros Hk. exists EmptyString, EmptyString.
        repeat split; [constructor | exact Hk].
      * destruct (p c) eqn:Hp.
        -- destruct (k s caps) as [m|] eqn:Hks.
           ++ intros _. exists (String c EmptyString), s.
              repeat split; [now constructor | rewrite Hks; eauto].
           ++ intros Hk. exists EmptyString, (String c s).
              repeat split; [constructor | exact Hk].
        -- intros Hk. exists EmptyString, (String c s).
           repeat split; [constructor | exact Hk].
    + intros (s1 & s2 & -> & Hm & Hk). inversion Hm; subst;
        rewrite ?append_cons, ?append_nil_l.
      * destruct s2 as [|c s2]; [exact Hk|].
        destruct (p c); [|exact Hk].
        destruct (k s2 caps); [eauto | exact Hk].
      * match goal with H : p _ = true |- _ => rewrite H end.
        destruct Hk as [m ->]. eauto.
  - (* Cat *)
    assert (Hb2 : blind (fun s' caps' => run r2 s' caps' k)).
    { intros s' c1 c2 Hs. apply IH2 in Hs as (s1 & s2 & -> & Hm & Hk);
        [|assumption].
      apply IH2; [assumption|]. exists s1, s2. eauto. }
    rewrite IH1 by assumption. split.
    + intros (s1 & s2 & -> & Hm1 & Hs).
      apply IH2 in Hs as (s3 & s4 & -> & Hm2 & Hk); [|assumption].
      exists (s1 +:+ s3), s4. rewrite append_assoc.
      repeat split; [now constructor | exact Hk].
    + intros (s1 & s2 & -> & Hm & Hk). inversion Hm; subst.
      exists s0, (s3 +:+ s2). rewrite append_assoc.
      repeat split; [assumption|]. apply IH2; [assumption|]. eauto.
  - (* Alt *)
    split.
    + destruct (run r1 s caps k) as [m|] eqn:H1.
      * intros _. assert (Hs : is_Some (run r1 s caps k)) by (rewrite H1; eauto).
        apply IH1 in Hs as (s1 & s2 & -> & Hm & Hk); [|assumption].
        exists s1, s2. repeat split; [now apply matches_alt_l | exact Hk].
      * intros Hs. apply IH2 in Hs as (s1 & s2 & -> & Hm & Hk); [|assumption].
        exists s1, s2. repeat split; [now apply matches_alt_r | exact Hk].
    + intros (s1 & s2 & -> & Hm & Hk).
      destruct (run r1 (s1 +:+ s2) caps k) as [m|] eqn:H1; [eauto|].
      inversion Hm; subst.
      * assert (Hs : is_Some (run r1 (s1 +:+ s2) caps k))
          by (apply IH1; [assumption | eauto]).
        rewrite H1 in Hs. destruct Hs as [? [=]].
      * apply IH2; [assumption | eauto].
  - (* Group *)
    assert (Hb : blind (fun s' caps' => k s' (<[i := consumed s s']> caps'))).
    { intros s' c1 c2. apply Hblind. }
    rewrite IH by assumption. split.
    + intros (s1 & s2 & -> & Hm & Hk). exists s1, s2.
      repeat split; [now constructor | eapply Hblind; exact Hk].
    + intros (s1 & s2 & -> & Hm & Hk). inversion Hm; subst.
      exists s1, s2. repeat split; [assumption | eapply Hblind; exact Hk].
Qed.

(** The matcher keeps the number of groups. *)
Lemma star_k_length p (k : string -> option (list string)) n s m :
  (forall s' m', k s' = Some m' -> length m' = n) ->
  star_k p k s = Some m -> length m = n.
Proof.
  intros Hk. induction s as [|c s IH]; simpl; [apply Hk|].
  destruct (p c); [|apply Hk].
  destruct (star_k p k s) as [m'|]; [|apply Hk].
  intros [= <-]. now apply IH.
Qed.

Lemma run_length r n : forall s caps k m,
  (forall s' c' m', k s' c' = Some m' -> length c' = n -> length m' = n) ->
  length caps = n ->
  run r s caps k = Some m -> length m = n.
Proof.
  induction r as [p|p|p|p|r1 IH1 r2 IH2|r1 IH1 r2 IH2|i r IH];
    intros s caps k m Hk Hcaps; simpl.
  - destruct s as [|c s]; [discriminate|].
    destruct (p c); [|discriminate]. intros H. eapply Hk; eauto.
  - apply star_k_length. intros s' m' H. eapply Hk; eauto.
  - destruct s as [|c s]; [discriminate|].
    destruct (p c); [|discriminate].
    apply star_k_length. intros s' m' H. eapply Hk; eauto.
  - destruct s as [|c s]; [intros H; eapply Hk; eauto|].
    destruct (p c); [|intros H; eapply Hk; eauto].
    destruct (k s caps) as [m'|] eqn:Hks.
    + intros [= <-]. eapply Hk; eauto.
    + intros H. eapply Hk; eauto.
  - apply IH1; [|assumption].
    intros s' c' m' H Hc'. eapply IH2; eauto.
  - destruct (run r1 s caps k) as [m'|] eqn:H1.
    + intros [= <-]. eapply IH1; eauto.
    + intros H. eapply IH2; eauto.
  - apply IH; [|assumption].
    intros s' c' m' H Hc'. eapply Hk; [exact H|]. now rewrite length_insert.
Qed.

Lemma FindStringSubmatch_length line m :
  FindStringSubmatch line = Some m -> length m = 4%nat.
Proof.
  unfold FindStringSubmatch. apply run_length; [|reflexivity].
  intros s' c' m' [= <-] Hc'. now rewrite length_insert.
Qed.

Lemma FindStringSubmatch_spec line :
  is_Some (FindStringSubmatch line) <-> has_prefix_in hopRegex line.
Proof.
  unfold FindStringSubmatch, has_prefix_in. rewrite run_spec.
  - split.
    + intros (s1 & s2 & -> & Hm & _). eauto.
    + intros (s1 & s2 & -> & Hm). exists s1, s2. eauto.
  - intros s c1 c2 _. eauto.
Qed.

Lemma parse_line_some line :
  is_Some (parse_line line) <-> is_Some (FindStringSubmatch line).
Proof.
  unfold parse_line.
  destruct (FindStringSubmatch line) as [m|] eqn:Hm.
  - rewrite (FindStringSubmatch_length _ _ Hm). simpl.
    destruct (negb _); split; eauto.
  - split; intros [? [=]].
Qed.

Lemma scan_steps ls : forall hops,
  fold_left scan_step ls hops = hops ++ omap parse_line ls.
Proof.
  induction ls as [|l ls IH]; intros hops; simpl.
  - now rewrite app_nil_r.
  - rewrite IH. unfold scan_step.
    destruct (parse_line l); [now rewrite <- app_assoc | reflexivity].
Qed.

Lemma cut_line_length s line rest :
  cut_line s = (line, Some rest) ->
  String.length s = S (String.length line + String.length rest).
Proof.
  revert line. induction s as [|c s IH]; intros line; [discriminate|].
  cbn [cut_line]. destruct (is_char "010" c).
  - intros [= <- <-]. reflexivity.
  - destruct (cut_line s) as [a b]. intros [= <- ->].
    cbn [String.length]. now rewrite (IH a).
Qed.

(** The length of the text is fuel enough for the scanner: more fuel
    gives the same lines. *)
Lemma scan_lines_fuel n : forall s m,
  (String.length s <= n)%nat -> (String.length s <= m)%nat ->
  scan_lines n s = scan_lines m s.
Proof.
  induction n as [|n IH]; intros s m Hn Hm.
  - destruct s; [|simpl in Hn; lia]. now destruct m.
  - destruct m as [|m]; [destruct s; [reflexivity | simpl in Hm; lia]|].
    cbn [scan_lines]. destruct s as [|c s]; [reflexivity|].
    destruct (cut_line (String c s)) as [line [rest|]] eqn:Hcut;
      [|reflexivity].
    apply cut_line_length in Hcut.
    destruct (MaxScanTokenSize <=? Z.of_nat (String.length line));
      [reflexivity|].
    f_equal. apply IH; lia.
Qed.

(** C6.  The line of an answering hop and the line of a silent hop are
    read as the specification says, the latency 1.234 being stored as
    the [float64] nearest to it, which is 5557441940175192 / 2 ^ 52, and
    the latency of the silent hop as 0; a line gives a hop exactly when
    it starts with a text of the hop pattern; the hops returned are those
    of the lines of the output, in order, so that a hop number that the
    output lacks is absent from the result. *)
Theorem parse_hops :
  parse_line "1 192.168.0.1 1.234 ms"
  = Some (mkHop 1 "192.168.0.1" EmptyString
                (SpecFloat.S754_finite false 5557441940175192 (-52)) false)
  /\ Float64.nearest 1234 1000
     = SpecFloat.S754_finite false 5557441940175192 (-52)
  /\ parse_line "2 * * *"
     = Some (mkHop 2 EmptyString EmptyString (SpecFloat.S754_zero false) true)
  /\ (forall line,
        parse_line line = None <-> ~ has_prefix_in hopRegex line)
  /\ (forall output,
        parseTracerouteOutput output
        = (omap parse_line (lines output), None))
  /\ map HopNum (fst (parseTracerouteOutput Samples.trace_output))
     = [1; 3; 4].
Proof.
  split; [vm_compute; reflexivity|]. split; [vm_compute; reflexivity|].
  split; [reflexivity|]. split; [|split].
  - intros line. rewrite <- FindStringSubmatch_spec, <- parse_line_some.
    destruct (parse_line line); split.
    + discriminate.
    + intros H. destruct H. eauto.
    + intros _ [? [=]].
    + reflexivity.
  - intros output. unfold parseTracerouteOutput. now rewrite scan_steps.
  - vm_compute. reflexivity.
Qed.

End Matcher.

(** ** The address expansion *)

Section Expansion.

Import Net Ping.

Variable ParseCIDR6 : string -> option (Net.IP * IPNet).
Variable String16 : Net.IP -> string.

Lemma incIP_carry_length ip : length (fst (incIP_carry ip)) = length ip.
Proof.
  induction ip as [|b ip IH]; [reflexivity|]. simpl.
  destruct (incIP_carry ip) as [rest carry]. simpl in IH.
  destruct carry; simpl; now rewrite IH.
Qed.

Lemma incIP_length ip : length (incIP ip) = length ip.
Proof. apply incIP_carry_length. Qed.

Lemma everything_Contains ip :
  length ip = 4%nat -> Contains everything ip = true.
Proof.
  intros Hlen.
  destruct ip as [|a [|b [|c [|d [|e ip]]]]]; try discriminate.
  unfold Contains. simpl. rewrite !Z.land_0_r. reflexivity.
Qed.

(** The loop never leaves that network. *)
Lemma expand_loop_everything fuel : forall ip ips,
  length ip = 4%nat ->
  expand_loop String16 fuel everything ip ips = None.
Proof.
  induction fuel as [|fuel IH]; intros ip ips Hlen; [reflexivity|].
  simpl. rewrite everything_Contains by assumption.
  apply IH. now rewrite incIP_length.
Qed.

(** C7.  On the block of all IPv4 addresses the increment wraps from
    255.255.255.255 to 0.0.0.0, which the block contains: whatever the
    number of iterations allowed, the loop of [expandCIDR] has not ended,
    and no list is returned.  (For the prefix lengths from 1 to 32 the
    expansion is the one expected, see [expandCIDR_v4_block] below.) *)
Theorem expandCIDR_whole_space :
  forall fuel, expandCIDR ParseCIDR6 String16 fuel "0.0.0.0/0" = None.
Proof.
  intros fuel. unfold expandCIDR.
  change (ParseCIDR ParseCIDR6 "0.0.0.0/0")
    with (Some (v4InV6Prefix ++ [0; 0; 0; 0], everything)).
  cbv beta iota.
  change (Mask (v4InV6Prefix ++ [0; 0; 0; 0]) (net_Mask everything))
    with [0; 0; 0; 0].
  now rewrite expand_loop_everything.
Qed.

(** Malformed text is refused with an error and no list. *)
Lemma expandCIDR_malformed fuel cidr :
  ParseCIDR ParseCIDR6 cidr = None ->
  expandCIDR ParseCIDR6 String16 fuel cidr
  = Some ([], Some (Failure ("invalid CIDR address: " +:+ cidr))).
Proof. intros Hp. unfold expandCIDR. now rewrite Hp. Qed.

(** Blocks of four, two and one addresses. *)
Lemma expandCIDR_samples :
  expandCIDR ParseCIDR6 String16 5 "192.168.1.0/30"
  = Some (["192.168.1.1"; "192.168.1.2"], None)
  /\ expandCIDR ParseCIDR6 String16 3 "192.168.1.7/31"
     = Some (["192.168.1.6"; "192.168.1.7"], None)
  /\ expandCIDR ParseCIDR6 String16 2 "10.0.0.9/32"
     = Some (["10.0.0.9"], None)
  /\ expandCIDR ParseCIDR6 String16 9 "255.255.255.250/29"
     = Some (["255.255.255.249"; "255.255.255.250"; "255.255.255.251";
              "255.255.255.252"; "255.255.255.253"; "255.255.255.254"],
             None)
  /\ expandCIDR ParseCIDR6 String16 9 "10.0.0.300/24"
     = Some ([], Some (Failure "invalid CIDR address: 10.0.0.300/24")).
Proof. repeat split; reflexivity. Qed.

End Expansion.

(** ** The blocks of IPv4 addresses *)

Section Blocks.

Import Net Ping.

Variable String16 : Net.IP -> string.

(** The byte of a mask that starts with [n] ones clears the [8 - n] low
    bits. *)
Lemma land_mask_byte x n :
  0 <= x < 256 -> 0 <= n <= 8 ->
  Z.land x (Z.land (Z.lnot (Z.shiftr 255 n)) 255) = x - x mod 2 ^ (8 - n).
Proof.
  intros Hx Hn.
  assert (Hall :
    forallb (fun k =>
      forallb (fun y =>
        Z.land (Z.of_nat y)
               (Z.land (Z.lnot (Z.shiftr 255 (Z.of_nat k))) 255)
        =? Z.of_nat y - Z.of_nat y mod 2 ^ (8 - Z.of_nat k))
        (seq 0 256)) (seq 0 9) = true) by (vm_compute; reflexivity).
  rewrite forallb_forall in Hall.
  specialize (Hall (Z.to_nat n)). rewrite forallb_forall in Hall.
  assert (Hin : In (Z.to_nat n) (seq 0 9)) by (apply in_seq; lia).
  specialize (Hall Hin (Z.to_nat x)).
  assert (Hin' : In (Z.to_nat x) (seq 0 256)) by (apply in_seq; lia).
  specialize (Hall Hin'). rewrite !Z2Nat.id in Hall by lia.
  now apply Z.eqb_eq.
Qed.

Lemma land_clear x k j :
  0 <= x < 256 -> 0 <= j <= 8 -> k = 256 - 2 ^ j ->
  Z.land x k = x - x mod 2 ^ j.
Proof.
  intros Hx Hj ->.
  pose proof (land_mask_byte x (8 - j) Hx ltac:(lia)) as H.
  replace (8 - (8 - j)) with j in H by lia. rewrite <- H. f_equal.
  assert (Hj' : exists n, j = Z.of_nat n /\ (n <= 8)%nat)
    by (exists (Z.to_nat j); lia).
  destruct Hj' as (n & -> & Hn).
  do 9 (destruct n as [|n]; [reflexivity|]). lia.
Qed.

(** Rewrites the conjunction of a byte with a literal byte of a mask. *)
Ltac clear_low_bits :=
  repeat match goal with
  | Hx : byte_ok ?x |- context [Z.land ?x ?k] =>
      first [ rewrite (land_clear x k 0 Hx) by (lia || reflexivity)
            | rewrite (land_clear x k 1 Hx) by (lia || reflexivity)
            | rewrite (land_clear x k 2 Hx) by (lia || reflexivity)
            | rewrite (land_clear x k 3 Hx) by (lia || reflexivity)
            | rewrite (land_clear x k 4 Hx) by (lia || reflexivity)
            | rewrite (land_clear x k 5 Hx) by (lia || reflexivity)
            | rewrite (land_clear x k 6 Hx) by (lia || reflexivity)
            | rewrite (land_clear x k 7 Hx) by (lia || reflexivity)
            | rewrite (land_clear x k 8 Hx) by (lia || reflexivity) ]
  end.

(** Masking four bytes with the mask of [ones] ones clears the low
    [32 - ones] bits of the number they write. *)
Lemma masked_value a b c d ones :
  byte_ok a -> byte_ok b -> byte_ok c -> byte_ok d ->
  0 <= ones <= 32 ->
  exists a' b' c' d',
    and_bytes [a; b; c; d] (mask_bytes 4 ones) = [a'; b'; c'; d']
    /\ byte_ok a' /\ byte_ok b' /\ byte_ok c' /\ byte_ok d'
    /\ ip_value [a'; b'; c'; d']
       = ip_value [a; b; c; d] / 2 ^ (32 - ones) * 2 ^ (32 - ones).
Proof.
  intros Ha Hb Hc Hd Hones.
  assert (Hk : exists n, ones = Z.of_nat n /\ (n <= 32)%nat)
    by (exists (Z.to_nat ones); lia).
  destruct Hk as (n & -> & Hn).
  do 33 (destruct n as [|n];
         [ simpl; clear_low_bits;
           eexists _, _, _, _; split; [reflexivity|];
           unfold byte_ok, ip_value in *; simpl;
           repeat split; Z.div_mod_to_equations; lia |]).
  lia.
Qed.

Lemma ip_value_inj a b c d a' b' c' d' :
  byte_ok a -> byte_ok b -> byte_ok c -> byte_ok d ->
  byte_ok a' -> byte_ok b' -> byte_ok c' -> byte_ok d' ->
  ip_value [a; b; c; d] = ip_value [a'; b'; c'; d'] ->
  [a; b; c; d] = [a'; b'; c'; d'].
Proof.
  unfold byte_ok, ip_value. simpl. intros.
  assert (a = a') by lia. assert (b = b') by lia.
  assert (c = c') by lia. assert (d = d') by lia. now subst.
Qed.

Lemma ip_of_value_round a b c d :
  byte_ok a -> byte_ok b -> byte_ok c -> byte_ok d ->
  ip_of_value (ip_value [a; b; c; d]) = [a; b; c; d].
Proof.
  unfold byte_ok, ip_of_value, ip_value. simpl. intros.
  repeat f_equal; Z.div_mod_to_equations; lia.
Qed.

(** [incIP] adds one to the number, modulo [2^32]. *)
Lemma incIP_value a b c d :
  byte_ok a -> byte_ok b -> byte_ok c -> byte_ok d ->
  exists a' b' c' d',
    incIP [a; b; c; d] = [a'; b'; c'; d']
    /\ byte_ok a' /\ byte_ok b' /\ byte_ok c' /\ byte_ok d'
    /\ ip_value [a'; b'; c'; d'] = (ip_value [a; b; c; d] + 1) mod 2 ^ 32.
Proof.
  unfold byte_ok, incIP, ip_value. intros Ha Hb Hc Hd. simpl.
  destruct (Z.ltb_spec 0 ((d + 1) mod 256)); simpl;
    [|destruct (Z.ltb_spec 0 ((c + 1) mod 256)); simpl;
      [|destruct (Z.ltb_spec 0 ((b + 1) mod 256)); simpl]];
    eexists _, _, _, _; (split; [reflexivity|]);
    repeat split; Z.div_mod_to_equations; lia.
Qed.

Lemma mask_bytes_length l : forall n, length (mask_bytes l n) = l.
Proof.
  induction l as [|l IH]; intros n; [reflexivity|]. simpl.
  destruct (8 <=? n); simpl; now rewrite IH.
Qed.

Lemma and_bytes_idem x : forall m,
  and_bytes (and_bytes x m) m = and_bytes x m.
Proof.
  induction x as [|a x IH]; intros [|b m]; try reflexivity. simpl.
  now rewrite IH, <- Z.land_assoc, Z.land_diag.
Qed.

Lemma div_eq_iff v q size :
  0 < size -> (v / size = q <-> q * size <= v < q * size + size).
Proof.
  intros Hs. split.
  - intros <-. pose proof (Z.mul_div_le v size Hs).
    pose proof (Z.mul_succ_div_gt v size Hs). lia.
  - intros Hv. symmetry. apply (Z.div_unique v size q (v - q * size)); lia.
Qed.

Lemma block_size_bounds ones :
  1 <= ones <= 32 -> 1 <= 2 ^ (32 - ones) <= 2 ^ 31.
Proof.
  intros Hones. split.
  - pose proof (Z.pow_pos_nonneg 2 (32 - ones)). lia.
  - apply Z.pow_le_mono_r; lia.
Qed.

Section Block.

(** A network of prefix length [ones] around the address [a.b.c.d], the
    size of its block and the number of its first address. *)
Variables a b c d ones : Z.
Hypothesis Ha : byte_ok a.
Hypothesis Hb : byte_ok b.
Hypothesis Hc : byte_ok c.
Hypothesis Hd : byte_ok d.
Hypothesis Hones : 1 <= ones <= 32.

Let m : list Z := mask_bytes 4 ones.
Let size : Z := 2 ^ (32 - ones).
Let base : Z := ip_value [a; b; c; d] / size * size.
Let ipnet : IPNet := mkIPNet (and_bytes [a; b; c; d] m) m.

Lemma size_bounds : 1 <= size <= 2 ^ 31.
Proof. apply block_size_bounds, Hones. Qed.

Lemma base_bounds : 0 <= base /\ base + size <= 2 ^ 32.
Proof.
  pose proof size_bounds as Hs.
  assert (Hv : 0 <= ip_value [a; b; c; d] < 2 ^ 32)
    by (unfold byte_ok, ip_value in *; simpl; lia).
  assert (Hpow : 2 ^ 32 = 2 ^ ones * size).
  { unfold size. rewrite <- Z.pow_add_r by lia. f_equal. lia. }
  assert (Hq : 0 <= ip_value [a; b; c; d] / size < 2 ^ ones).
  { split; [apply Z.div_pos; lia|].
    apply Z.div_lt_upper_bound; [lia|]. rewrite Z.mul_comm. lia. }
  unfold base. split; [nia|]. rewrite Hpow. nia.
Qed.

(** The network contains the addresses whose number is in the block. *)
Lemma Contains_block x y z w :
  byte_ok x -> byte_ok y -> byte_ok z -> byte_ok w ->
  Contains ipnet [x; y; z; w] = true
  <-> base <= ip_value [x; y; z; w] < base + size.
Proof.
  intros Hx Hy Hz Hw. pose proof size_bounds as Hs.
  destruct (masked_value a b c d ones Ha Hb Hc Hd ltac:(lia))
    as (a' & b' & c' & d' & Hnet & Ha' & Hb' & Hc' & Hd' & Hvnet).
  destruct (masked_value x y z w ones Hx Hy Hz Hw ltac:(lia))
    as (x' & y' & z' & w' & Hip & Hx' & Hy' & Hz' & Hw' & Hvip).
  fold m in Hnet, Hip. fold size in Hvnet, Hvip.
  assert (Hc1 : Contains ipnet [x; y; z; w]
                = bool_decide ([a'; b'; c'; d'] = [x'; y'; z'; w'])).
  { unfold Contains, networkNumberAndMask, ipnet. cbn [net_IP net_Mask].
    rewrite Hnet. cbn [To4 length Nat.eqb].
    unfold m at 1 2. rewrite mask_bytes_length. cbn [Nat.eqb].
    fold m. rewrite <- Hnet, and_bytes_idem, Hnet, Hip. reflexivity. }
  rewrite Hc1, bool_decide_eq_true.
  assert (Hpos : 0 < size) by lia.
  unfold base. rewrite <- (div_eq_iff _ _ _ Hpos).
  split.
  - intros Heq. rewrite Heq in Hvnet. rewrite Hvnet in Hvip.
    apply Z.mul_cancel_r in Hvip; lia.
  - intros Heq. apply ip_value_inj; try assumption.
    rewrite Hvnet, Hvip, Heq. reflexivity.
Qed.

(** From an address of the block with [k] addresses left, the loop
    appends those [k] addresses and ends. *)
Lemma expand_loop_block k : forall fuel x y z w ips,
  byte_ok x -> byte_ok y -> byte_ok z -> byte_ok w ->
  base <= ip_value [x; y; z; w] ->
  ip_value [x; y; z; w] + Z.of_nat (S k) = base + size ->
  (S k < fuel)%nat ->
  expand_loop String16 fuel ipnet [x; y; z; w] ips
  = Some (ips ++ block String16 (ip_value [x; y; z; w]) (S k)).
Proof.
  pose proof size_bounds as Hs. pose proof base_bounds as Hbase.
  induction k as [|k IH]; intros fuel x y z w ips Hx Hy Hz Hw Hlo Hhi Hfuel.
  - destruct fuel as [|[|fuel]]; try lia.
    cbn [expand_loop].
    rewrite (proj2 (Contains_block x y z w Hx Hy Hz Hw)) by lia.
    destruct (incIP_value x y z w Hx Hy Hz Hw)
      as (x' & y' & z' & w' & -> & Hx' & Hy' & Hz' & Hw' & Hv).
    destruct (Contains ipnet [x'; y'; z'; w']) eqn:Hin.
    + apply Contains_block in Hin; try assumption.
      rewrite Hv in Hin.
      assert (Hcase : ip_value [x; y; z; w] + 1 < 2 ^ 32
                      \/ ip_value [x; y; z; w] + 1 = 2 ^ 32) by lia.
      destruct Hcase as [Hlt|Heq].
      * rewrite Z.mod_small in Hin by lia. lia.
      * rewrite Heq, Z.mod_same in Hin by lia. lia.
    + unfold block. simpl. rewrite Z.add_0_r.
      now rewrite ip_of_value_round.
  - destruct fuel as [|fuel]; [lia|].
    cbn [expand_loop].
    rewrite (proj2 (Contains_block x y z w Hx Hy Hz Hw)) by lia.
    destruct (incIP_value x y z w Hx Hy Hz Hw)
      as (x' & y' & z' & w' & -> & Hx' & Hy' & Hz' & Hw' & Hv).
    rewrite Z.mod_small in Hv by lia.
    rewrite (IH fuel x' y' z' w'); try assumption; try lia.
    rewrite <- app_assoc. f_equal. f_equal.
    unfold block. rewrite Hv.
    change (seq 0 (S (S k))) with (0%nat :: seq 1 (S k)).
    rewrite <- seq_shift.
    change (map ?f (0%nat :: ?l)) with (f 0%nat :: map f l).
    rewrite map_map. cbn beta.
    rewrite Z.add_0_r, ip_of_value_round by assumption.
    change ([?h] ++ ?l) with (h :: l).
    f_equal. apply map_ext. intros i. do 2 f_equal. lia.
Qed.

End Block.

Lemma digit_value_bounds ch :
  is_digit ch = true -> 0 <= Traceroute.digit_value ch <= 9.
Proof.
  unfold is_digit, Traceroute.is_digit, Traceroute.digit_value.
  intros H. apply andb_prop in H as [H1 H2].
  apply N.leb_le in H1. apply N.leb_le in H2. lia.
Qed.

(** The IPv4 parser gives four bytes. *)
Lemma parseIPv4Fields_bytes str : forall first val digLen fields ip,
  Forall byte_ok fields -> byte_ok val -> (length fields <= 3)%nat ->
  parseIPv4Fields str first val digLen fields = Some ip ->
  exists a b c d,
    ip = [a; b; c; d]
    /\ byte_ok a /\ byte_ok b /\ byte_ok c /\ byte_ok d.
Proof.
  induction str as [|ch str IH];
    intros first val digLen fields ip Hf Hv Hlen; simpl.
  - destruct (length fields <? 3)%nat eqn:Hlt; [discriminate|].
    apply Nat.ltb_ge in Hlt. intros [= <-].
    destruct fields as [|a [|b [|c [|e fields]]]]; simpl in *; try lia.
    inversion Hf as [|? ? Ha Hf1]; subst.
    inversion Hf1 as [|? ? Hb Hf2]; subst.
    inversion Hf2 as [|? ? Hc _]; subst.
    exists a, b, c, val. auto.
  - destruct (is_digit ch) eqn:Hdig.
    + destruct ((digLen =? 1)%nat && (val =? 0)); [discriminate|].
      destruct (255 <? val * 10 + Traceroute.digit_value ch) eqn:Hbig;
        [discriminate|].
      apply Z.ltb_ge in Hbig. apply IH; try assumption.
      pose proof (digit_value_bounds ch Hdig). unfold byte_ok in *. lia.
    + destruct (Ascii.eqb ch "."); [|discriminate].
      destruct (first || (digLen =? 0)%nat
                || match str with EmptyString => true | _ => false end);
        [discriminate|].
      destruct (length fields =? 3)%nat eqn:H3; [discriminate|].
      apply Nat.eqb_neq in H3. apply IH.
      * apply Forall_app. split; [assumption | now constructor].
      * unfold byte_ok. lia.
      * rewrite length_app. simpl. lia.
Qed.

Lemma dtoi_from_nonneg str : forall n seen r,
  0 <= n -> dtoi_from n seen str = Some r -> 0 <= r.
Proof.
  induction str as [|ch str IH]; intros n seen r Hn; simpl.
  - destruct seen; [|discriminate]. now intros [= <-].
  - destruct (is_digit ch) eqn:Hdig; [|discriminate].
    destruct (big <=? n * 10 + Traceroute.digit_value ch); [discriminate|].
    apply IH. pose proof (digit_value_bounds ch Hdig). lia.
Qed.

Lemma CIDRMask_v4 ones :
  0 <= ones <= 32 -> CIDRMask ones 32 = mask_bytes 4 ones.
Proof.
  intros [H0 H32]. unfold CIDRMask.
  apply Z.leb_le in H0. apply Z.leb_le in H32.
  now rewrite H0, H32.
Qed.

Lemma Mask_v4 a b c d ones :
  Mask (v4InV6Prefix ++ [a; b; c; d]) (mask_bytes 4 ones)
  = and_bytes [a; b; c; d] (mask_bytes 4 ones).
Proof.
  unfold Mask. rewrite mask_bytes_length.
  change (length (v4InV6Prefix ++ [a; b; c; d])) with 16%nat.
  cbn [Nat.eqb andb]. rewrite mask_bytes_length. cbn [Nat.eqb andb].
  change (take 12 (v4InV6Prefix ++ [a; b; c; d])) with v4InV6Prefix.
  unfold bytes_eqb. rewrite bool_decide_eq_true_2 by reflexivity.
  change (drop 12 (v4InV6Prefix ++ [a; b; c; d])) with [a; b; c; d].
  reflexivity.
Qed.

Lemma Mask_v4_masked x y z w ones :
  Mask [x; y; z; w] (mask_bytes 4 ones)
  = and_bytes [x; y; z; w] (mask_bytes 4 ones).
Proof.
  unfold Mask. rewrite mask_bytes_length.
  cbn [length Nat.eqb andb]. rewrite mask_bytes_length. reflexivity.
Qed.

(** Dropping the ends of a block of more than two addresses leaves the
    block that starts one further and is two shorter. *)
Lemma trim_ends_block base n :
  (2 < n)%nat ->
  trim_ends (block String16 base n)
  = block String16 (base + 1) (n - 2).
Proof.
  intros Hn. unfold trim_ends, block.
  rewrite length_map, length_seq.
  destruct (2 <? n)%nat eqn:Hlt; [|apply Nat.ltb_ge in Hlt; lia].
  rewrite skipn_map, firstn_map, skipn_seq, take_seq.
  replace ((n - 2) `min` (n - 1))%nat with (n - 2)%nat by lia.
  change (0 + 1)%nat with 1%nat.
  rewrite <- seq_shift, map_map.
  apply map_ext. intros i. do 2 f_equal. lia.
Qed.

Lemma trim_ends_small base n :
  (n <= 2)%nat ->
  trim_ends (block String16 base n) = block String16 base n.
Proof.
  intros Hn. unfold trim_ends, block.
  rewrite length_map, length_seq.
  destruct (2 <? n)%nat eqn:Hlt; [apply Nat.ltb_lt in Hlt; lia|].
  reflexivity.
Qed.

Variable ParseCIDR6 : string -> option (Net.IP * IPNet).

(** The expansion of IPv4 text with a prefix length of at least 1: the
    addresses of the block in ascending order, without the first and the
    last when there are more than two. *)
Lemma expandCIDR_v4_block cidr addr mask ip4 ones fuel :
  cut_slash cidr = Some (addr, mask) ->
  address_family addr = IPv4Text ->
  parseIPv4 addr = Some ip4 ->
  dtoi mask = Some ones ->
  1 <= ones <= 32 ->
  (Z.to_nat (2 ^ (32 - ones)) < fuel)%nat ->
  expandCIDR ParseCIDR6 String16 fuel cidr
  = Some (trim_ends
            (block String16
                   (ip_value ip4 / 2 ^ (32 - ones) * 2 ^ (32 - ones))
                   (Z.to_nat (2 ^ (32 - ones)))),
          None).
Proof.
  intros Hcut Hfam Hip Hmask Hones Hfuel.
  destruct (parseIPv4Fields_bytes addr true 0 0 [] ip4)
    as (a & b & c & d & -> & Ha & Hb & Hc & Hd);
    [constructor | unfold byte_ok; lia | simpl; lia | exact Hip |].
  unfold expandCIDR, ParseCIDR. rewrite Hcut, Hfam, Hip, Hmask.
  destruct (32 <? ones) eqn:H32; [apply Z.ltb_lt in H32; lia|].
  rewrite CIDRMask_v4 by lia. cbn [net_Mask].
  rewrite Mask_v4.
  destruct (masked_value a b c d ones Ha Hb Hc Hd ltac:(lia))
    as (a' & b' & c' & d' & Hnet & Ha' & Hb' & Hc' & Hd' & Hv).
  rewrite Hnet at 2.
  pose proof (block_size_bounds ones Hones) as Hs.
  destruct (Z.to_nat (2 ^ (32 - ones))) as [|k] eqn:Hk; [lia|].
  rewrite (expand_loop_block a b c d ones Ha Hb Hc Hd Hones k);
    try assumption; rewrite Hv; try lia.
  reflexivity.
Qed.

End Blocks.

(** ** Texts and their parts *)

Section Substrings.

Lemma length_append (a b : string) :
  String.length (a +:+ b) = (String.length a + String.length b)%nat.
Proof.
  induction a as [|x a IH]; [reflexivity|].
  rewrite append_cons. simpl. now rewrite IH.
Qed.

Lemma substring_0_all (b c : string) :
  String.substring 0 (String.length b) (b +:+ c) = b.
Proof.
  induction b as [|x b IH].
  - rewrite append_nil_l. simpl. now destruct c.
  - rewrite append_cons. simpl. now rewrite IH.
Qed.

Lemma substring_middle (a b c : string) :
  String.substring (String.length a) (String.length b) (a +:+ b +:+ c) = b.
Proof.
  induction a as [|x a IH].
  - rewrite append_nil_l. apply substring_0_all.
  - rewrite append_cons. simpl. exact IH.
Qed.

Lemma substring_whole (s : string) :
  String.substring 0 (String.length s) s = s.
Proof. induction s as [|x s IH]; simpl; congruence. Qed.

Lemma substring_split (s : string) : forall i n,
  (i + n <= String.length s)%nat ->
  s = String.substring 0 i s
      +:+ String.substring i n s
      +:+ String.substring (i + n) (String.length s - (i + n)) s.
Proof.
  induction s as [|x s IH]; intros i n Hle.
  - simpl in Hle. assert (i = 0%nat) as -> by lia.
    assert (n = 0%nat) as -> by lia. reflexivity.
  - destruct i as [|i].
    + rewrite append_nil_l. simpl String.substring at 1.
      destruct n as [|n].
      * cbn [String.substring Nat.add String.length Nat.sub].
        rewrite append_nil_l. f_equal. symmetry. apply substring_whole.
      * simpl in Hle. cbn [String.substring Nat.add String.length Nat.sub].
        rewrite append_cons. f_equal.
        pose proof (IH 0%nat n ltac:(simpl; lia)) as H.
        replace (String.substring 0 0 s) with EmptyString in H
          by now destruct s.
        rewrite append_nil_l in H. exact H.
    + simpl in Hle. cbn [String.substring Nat.add String.length Nat.sub].
      rewrite append_cons. f_equal. apply IH. lia.
Qed.

Lemma substring_length (s : string) : forall i n,
  (i + n <= String.length s)%nat ->
  String.length (String.substring i n s) = n.
Proof.
  induction s as [|x s IH]; intros i n Hle; simpl in Hle.
  - assert (i = 0%nat) as -> by lia. assert (n = 0%nat) as -> by lia.
    reflexivity.
  - destruct i as [|i]; simpl.
    + destruct n as [|n]; [reflexivity|]. simpl. f_equal. apply IH. lia.
    + apply IH. lia.
Qed.

End Substrings.

(** ** Connection errors *)

Section ConnectionErrors.

Import Ping.

Lemma append_nil_r (s : string) : s +:+ EmptyString = s.
Proof.
  induction s as [|x s IH]; [reflexivity|].
  rewrite append_cons. now rewrite IH.
Qed.

Lemma containsSubstring_spec s sub :
  containsSubstring s sub = true
  <-> exists pre post, s = pre +:+ sub +:+ post.
Proof.
  unfold containsSubstring. split.
  - destruct (String.length s <? String.length sub)%nat eqn:Hlt;
      [discriminate|].
    apply Nat.ltb_ge in Hlt. intros Hex.
    apply existsb_exists in Hex as (i & Hi & Heq).
    apply in_seq in Hi. apply String.eqb_eq in Heq. unfold slice in Heq.
    exists (String.substring 0 i s),
      (String.substring (i + String.length sub)
         (String.length s - (i + String.length sub)) s).
    pose proof (substring_split s i (String.length sub) ltac:(lia)) as H.
    rewrite Heq in H. exact H.
  - intros (pre & post & ->).
    rewrite !length_append.
    rewrite (proj2 (Nat.ltb_ge _ _)) by lia.
    apply existsb_exists. exists (String.length pre). split.
    + apply in_seq. lia.
    + apply String.eqb_eq. apply substring_middle.
Qed.

Lemma contains_spec s sub :
  contains s sub = true <-> exists pre post, s = pre +:+ sub +:+ post.
Proof.
  unfold contains. split.
  - intros H. apply andb_true_iff in H as [_ H].
    apply orb_true_iff in H as [H|H].
    + apply String.eqb_eq in H as ->. exists EmptyString, EmptyString.
      now rewrite append_nil_l, append_nil_r.
    + apply andb_true_iff in H as [_ H]. now apply containsSubstring_spec.
  - intros Hocc. pose proof Hocc as (pre & post & Hs).
    assert (Hlen : (String.length sub <= String.length s)%nat).
    { rewrite Hs, !length_append. lia. }
    apply andb_true_iff. split; [now apply Nat.leb_le|].
    apply orb_true_iff.
    destruct (String.length s) as [|n] eqn:Hn.
    + left. apply String.eqb_eq.
      destruct s; [|discriminate]. destruct sub; [reflexivity|].
      simpl in Hlen. lia.
    + right. apply andb_true_iff. split; [reflexivity|].
      now apply containsSubstring_spec.
Qed.

(** The errors that end the loop of [pingHost]. *)
Lemma qualifies_message err :
  qualifies err = true
  <-> err = None
      \/ exists op net source addr inner,
           err = Some (OpError op net source addr inner)
           /\ exists pre word post,
                (word = "refused" \/ word = "reset")
                /\ match inner with
                   | OpError _ _ _ _ _ => Error inner
                   | _ => Error (OpError op net source addr inner)
                   end = pre +:+ word +:+ post.
Proof.
  destruct err as [e|]; cbn [qualifies]; [|split; auto].
  split.
  - intros H. right. destruct e as [| |op net source addr inner|msg];
      try discriminate.
    exists op, net, source, addr, inner. split; [reflexivity|].
    unfold isConnectionRefused in H.
    set (errStr := match inner with
                   | OpError _ _ _ _ _ => Error inner
                   | _ => Error (OpError op net source addr inner)
                   end) in *.
    apply orb_true_iff in H as [H|H];
      [apply orb_true_iff in H as [H|H]|];
      apply contains_spec in H as (pre & post & H).
    + exists (pre +:+ "connection "), "refused", post.
      split; [now left|]. rewrite H, append_assoc. reflexivity.
    + exists pre, "refused", post. split; [now left | exact H].
    + exists pre, "reset", post. split; [now right | exact H].
  - intros [[=]|(op & net & source & addr & inner & [= ->] & pre & word
                 & post & Hword & H)].
    unfold isConnectionRefused.
    set (errStr := match inner with
                   | OpError _ _ _ _ _ => Error inner
                   | _ => Error (OpError op net source addr inner)
                   end) in *.
    assert (Hocc : contains errStr word = true)
      by (apply contains_spec; eauto).
    destruct Hword as [-> | ->]; rewrite Hocc;
      rewrite ?orb_true_r; reflexivity.
Qed.

(** X7.  [contains] tells whether the second text occurs in the first
    as a run of consecutive bytes, and so does [containsSubstring]; the
    empty text occurs in every text, and no text occurs in a shorter
    one. *)
Theorem contains_occurrence s sub :
  (contains s sub = true <-> exists pre post, s = pre +:+ sub +:+ post)
  /\ (containsSubstring s sub = true
      <-> exists pre post, s = pre +:+ sub +:+ post)
  /\ contains s EmptyString = true
  /\ ((String.length s < String.length sub)%nat -> contains s sub = false).
Proof.
  split; [apply contains_spec|]. split; [apply containsSubstring_spec|].
  split.
  - apply contains_spec. exists EmptyString, s. reflexivity.
  - intros Hlt. destruct (contains s sub) eqn:Hc; [|reflexivity].
    apply contains_spec in Hc as (pre & post & ->).
    rewrite !length_append in Hlt. lia.
Qed.

(** X8.  [isConnectionRefused] holds of no error other than a
    [*net.OpError], whatever its message.  Of such an error it reads the
    message of the error itself, or of the error it wraps when that is a
    [*net.OpError] too, and holds exactly when [refused] or [reset]
    occurs in that message: the test for [connection refused] adds
    nothing to the other two. *)
Theorem isConnectionRefused_message err :
  (isConnectionRefused err = true ->
   exists op net source addr inner, err = OpError op net source addr inner)
  /\ forall op net source addr inner,
       err = OpError op net source addr inner ->
       let errStr :=
         match inner with
         | OpError _ _ _ _ _ => Error inner
         | _ => Error err
         end in
       (isConnectionRefused err = true
        <-> (exists pre post, errStr = pre +:+ "refused" +:+ post)
            \/ (exists pre post, errStr = pre +:+ "reset" +:+ post))
       /\ isConnectionRefused err
          = contains errStr "refused" || contains errStr "reset".
Proof.
  split.
  - destruct err; try discriminate. eauto 10.
  - intros op net source addr inner -> errStr.
    assert (Heq : isConnectionRefused (OpError op net source addr inner)
                  = contains errStr "connection refused"
                    || contains errStr "refused" || contains errStr "reset").
    { unfold isConnectionRefused, errStr. now destruct inner. }
    assert (Hsub : contains errStr "connection refused" = true ->
                   contains errStr "refused" = true).
    { intros H. apply contains_spec in H as (pre & post & H).
      apply contains_spec. exists (pre +:+ "connection "), post.
      rewrite H, append_assoc. reflexivity. }
    split.
    + rewrite Heq, !orb_true_iff, <- !contains_spec. tauto.
    + rewrite Heq.
      destruct (contains errStr "connection refused");
        [now rewrite Hsub | reflexivity].
Qed.

End ConnectionErrors.

(** ** The liveness check of the sweep *)

Section Liveness.

Import Ping.

Variable nw : network.
Variable ip : string.

Abbreviation answers := (Ping.answers nw ip).

Lemma try_ports_spec todo : forall host dialled,
  match find answers todo with
  | Some port =>
      exists before after,
        todo = before ++ port :: after
        /\ Forall (fun p => answers p = false) before
        /\ try_ports nw ip todo host dialled
           = (mkScanHost (IP host) (Hostname host) true
                         (latency_of (snd (dial nw ip port))) (LastSeen host),
              dialled ++ before ++ [port])
  | None => try_ports nw ip todo host dialled = (host, dialled ++ todo)
  end.
Proof.
  induction todo as [|port rest IH]; intros host dialled; simpl.
  - now rewrite app_nil_r.
  - unfold answers at 1. destruct (dial nw ip port) as [err micros] eqn:Hd.
    simpl. destruct (qualifies err) eqn:Hq.
    + exists [], rest. split; [reflexivity|]. split; [constructor|].
      now rewrite Hd.
    + specialize (IH host (dialled ++ [port])).
      destruct (find answers rest) as [port'|].
      * destruct IH as (before & after & -> & Hall & ->).
        exists (port :: before), after. repeat split.
        -- constructor; [|assumption]. unfold answers. now rewrite Hd.
        -- now rewrite <- app_assoc.
      * rewrite IH. now rewrite <- app_assoc.
Qed.

Lemma find_first_true {A} (f : A -> bool) before x after :
  Forall (fun y => f y = false) before -> f x = true ->
  find f (before ++ x :: after) = Some x.
Proof.
  induction 1 as [|y before Hy _ IH]; intros Hx; cbn [app find].
  - now rewrite Hx.
  - rewrite Hy. now apply IH.
Qed.

Lemma find_none_all {A} (f : A -> bool) l :
  find f l = None <-> Forall (fun y => f y = false) l.
Proof.
  induction l as [|y l IH]; cbn [find].
  - split; [constructor | reflexivity].
  - destruct (f y) eqn:Hy.
    + split; [discriminate|]. intros H. inversion H; congruence.
    + rewrite IH. split; [now constructor|]. intros H. now inversion H.
Qed.

Lemma first_true_unique {A} (f : A -> bool) before : forall x after before' after',
  before ++ x :: after = before' ++ x :: after' ->
  Forall (fun y => f y = false) before -> f x = true ->
  Forall (fun y => f y = false) before' ->
  before' = before.
Proof.
  induction before as [|y before IH];
    intros x after before' after' Heq Hb Hx Hb'.
  - destruct before' as [|y' before']; [reflexivity|].
    simpl in Heq. injection Heq as -> _. inversion Hb'; congruence.
  - destruct before' as [|y' before'].
    + simpl in Heq. injection Heq as -> _. inversion Hb; congruence.
    + simpl in Heq. injection Heq as -> Heq. f_equal.
      inversion Hb; inversion Hb'; subst. eapply IH; eauto.
Qed.

Lemma answers_message port :
  Ping.answers nw ip port = true
  <-> fst (dial nw ip port) = None
      \/ exists op net source addr inner,
           fst (dial nw ip port) = Some (OpError op net source addr inner)
           /\ exists pre word post,
                (word = "refused" \/ word = "reset")
                /\ match inner with
                   | OpError _ _ _ _ _ => Error inner
                   | _ => Error (OpError op net source addr inner)
                   end = pre +:+ word +:+ post.
Proof. unfold Ping.answers. apply qualifies_message. Qed.

(** C8.  An attempt qualifies when [net.DialTimeout] returns no error,
    or a [*net.OpError] in whose message, or in that of the
    [*net.OpError] it wraps, [refused] or [reset] occurs.  The attempts
    go through the ports 80, 443, 22, 21, 445, 139 in that order and stop
    at the first one that qualifies: the ports dialled are those up to
    it, no later port is dialled, the host is alive, and its latency is
    the number of microseconds that this attempt took, as a [float64],
    divided by 1000.  When no attempt qualifies, all six ports were
    dialled and the host is not alive, with latency 0 and no name.  One
    of the two is always the case. *)
Theorem pingHost_first_answer :
  forall now,
    let qualifying port :=
      fst (dial nw ip port) = None
      \/ exists op net source addr inner,
           fst (dial nw ip port) = Some (OpError op net source addr inner)
           /\ exists pre word post,
                (word = "refused" \/ word = "reset")
                /\ match inner with
                   | OpError _ _ _ _ _ => Error inner
                   | _ => Error (OpError op net source addr inner)
                   end = pre +:+ word +:+ post in
    let host := pingHost nw now ip in
    let dialled := snd (pingHost_trace nw now ip) in
    IP host = ip
    /\ LastSeen host = now
    /\ (forall before port after,
          [80; 443; 22; 21; 445; 139] = before ++ port :: after ->
          Forall (fun p => ~ qualifying p) before ->
          qualifying port ->
          dialled = before ++ [port]
          /\ Alive host = true
          /\ LatencyMs host
             = SpecFloat.SFdiv 53 1024
                 (SpecFloat.binary_normalize 53 1024
                    (snd (dial nw ip port)) 0 false)
                 (SpecFloat.binary_normalize 53 1024 1000 0 false))
    /\ (Forall (fun p => ~ qualifying p) [80; 443; 22; 21; 445; 139] ->
        dialled = [80; 443; 22; 21; 445; 139]
        /\ Alive host = false
        /\ LatencyMs host = SpecFloat.S754_zero false
        /\ Hostname host = EmptyString)
    /\ ((exists before port after,
           [80; 443; 22; 21; 445; 139] = before ++ port :: after
           /\ Forall (fun p => ~ qualifying p) before
           /\ qualifying port)
        \/ Forall (fun p => ~ qualifying p) [80; 443; 22; 21; 445; 139]).
Proof.
  intros now qualifying host dialled.
  assert (Hq : forall p, Ping.answers nw ip p = true <-> qualifying p)
    by (intros p; apply answers_message).
  assert (Hnq : forall l, Forall (fun p => Ping.answers nw ip p = false) l
                          <-> Forall (fun p => ~ qualifying p) l).
  { intros l. apply Forall_iff. intros p. rewrite <- Hq.
    destruct (Ping.answers nw ip p); split; congruence. }
  subst host dialled. unfold pingHost, pingHost_trace.
  pose proof (try_ports_spec ports
                (mkScanHost ip EmptyString false Float64.zero now) [])
    as Hspec.
  change ports with [80; 443; 22; 21; 445; 139] in *.
  destruct (find (Ping.answers nw ip) [80; 443; 22; 21; 445; 139])
    as [port|] eqn:Hf.
  - destruct Hspec as (before & after & Hsplit & Hall & ->).
    cbn [Alive].
    assert (Hport : Ping.answers nw ip port = true).
    { apply find_some in Hf. apply Hf. }
    split; [destruct (lookup nw ip) as [[|name names] [e|]]; reflexivity|].
    split; [destruct (lookup nw ip) as [[|name names] [e|]]; reflexivity|].
    split; [|split].
    + intros before' port' after' Hsplit' Hbefore' Hport'.
      apply Hnq in Hbefore'. apply Hq in Hport'.
      pose proof (find_first_true _ before' port' after' Hbefore' Hport') as Hf'.
      rewrite <- Hsplit', Hf in Hf'. injection Hf' as <-.
      rewrite Hsplit in Hsplit'.
      rewrite (first_true_unique _ before port after before' after'
                 Hsplit' Hall Hport Hbefore').
      destruct (lookup nw ip) as [[|name names] [e|]]; auto.
    + intros Hall'. apply Hnq, find_none_all in Hall'. congruence.
    + left. exists before, port, after.
      split; [exact Hsplit|]. split; [now apply Hnq | now apply Hq].
  - rewrite Hspec. cbn [Alive].
    split; [reflexivity|]. split; [reflexivity|]. split; [|split].
    + intros before port after Hsplit Hbefore Hport.
      apply Hnq in Hbefore. apply Hq in Hport.
      pose proof (find_first_true _ before port after Hbefore Hport) as Hf'.
      rewrite <- Hsplit in Hf'. congruence.
    + intros _. auto.
    + right. now apply Hnq, find_none_all.
Qed.

End Liveness.

Lemma pingHost_first_answer_witness :
  snd (Ping.pingHost_trace Samples.lan 7 "192.168.1.1") = [80]
  /\ Ping.Alive (Ping.pingHost Samples.lan 7 "192.168.1.1") = true
  /\ Ping.LatencyMs (Ping.pingHost Samples.lan 7 "192.168.1.1")
     = SpecFloat.S754_finite false 6305039478318694 (-54).
Proof.
  destruct (pingHost_first_answer Samples.lan "192.168.1.1" 7)
    as (_ & _ & Hfirst & _).
  destruct (Hfirst [] 80 [443; 22; 21; 445; 139] eq_refl
              (List.Forall_nil _))
    as (Hdialled & Halive & Hlat).
  { right. exists "dial", "tcp", None, (Some "192.168.1.1:80"),
      (Failure "connect: connection refused").
    split; [reflexivity|].
    exists "dial tcp 192.168.1.1:80: connect: connection ", "refused",
      EmptyString.
    split; [now left | reflexivity]. }
  split; [exact Hdialled|]. split; [exact Halive|].
  rewrite Hlat. reflexivity.
Defined.

(** ** The worker pool *)

Section PoolFacts.

Import Pool.

Context {T R H E : Type}.
Variable fn : E -> T -> option R.
Variable conv : E -> R -> H.

Abbreviation pool := (@Pool.pool T R H).
Abbreviation worker := (@Pool.worker T).

Lemma insert_middle (ws : list worker) i w w' :
  ws !! i = Some w ->
  ws = take i ws ++ w :: drop (S i) ws
  /\ <[i := w']> ws = take i ws ++ w' :: drop (S i) ws.
Proof.
  intros Hi. split.
  - symmetry. now apply take_drop_middle.
  - apply insert_take_drop. eapply lookup_lt_Some; eauto.
Qed.

Lemma holding_insert_same (ws : list worker) i w w' :
  ws !! i = Some w -> held w = None -> held w' = None ->
  holding (<[i := w']> ws) = holding ws.
Proof.
  intros Hi Hw Hw'. destruct (insert_middle ws i w w' Hi) as [Hws Hins].
  rewrite Hins. rewrite Hws at 3. unfold holding.
  rewrite !omap_app. simpl. now rewrite Hw, Hw'.
Qed.

Lemma holding_insert_take (ws : list worker) i w x :
  ws !! i = Some w -> held w = None ->
  holding (<[i := Holding x]> ws) ≡ₚ x :: holding ws.
Proof.
  intros Hi Hw. destruct (insert_middle ws i w (Holding x) Hi) as [Hws Hins].
  rewrite Hins. rewrite Hws at 3. unfold holding.
  rewrite !omap_app. simpl. rewrite Hw.
  now rewrite <- Permutation_middle.
Qed.

Lemma holding_insert_drop (ws : list worker) i x w' :
  ws !! i = Some (Holding x) -> held w' = None ->
  holding ws ≡ₚ x :: holding (<[i := w']> ws).
Proof.
  intros Hi Hw'. destruct (insert_middle ws i (Holding x) w' Hi) as [Hws Hins].
  rewrite Hins. rewrite Hws at 1. unfold holding.
  rewrite !omap_app. simpl. rewrite Hw'.
  now rewrite <- Permutation_middle.
Qed.

Lemma weight_insert (ws : list worker) i w w' :
  ws !! i = Some w ->
  (sum_list_with worker_weight (<[i := w']> ws) + worker_weight w
   = sum_list_with worker_weight ws + worker_weight w')%nat.
Proof.
  intros Hi. destruct (insert_middle ws i w w' Hi) as [Hws Hins].
  rewrite Hins. rewrite Hws at 3.
  rewrite !sum_list_with_app. simpl. lia.
Qed.

Lemma all_exited_lookup (ws : list worker) i w :
  all_exited ws = true -> ws !! i = Some w -> w = Exited.
Proof.
  unfold all_exited. rewrite forallb_forall. intros Hall Hi.
  assert (Hin : In w ws).
  { apply list_elem_of_In. eapply list_elem_of_lookup_2; eauto. }
  specialize (Hall w Hin). now destruct w.
Qed.

Lemma all_exited_holding (ws : list worker) :
  all_exited ws = true -> holding ws = [].
Proof.
  induction ws as [|w ws IH]; [reflexivity|]. simpl.
  destruct w; simpl; try discriminate. exact IH.
Qed.

Lemma all_exited_insert (ws : list worker) i :
  all_exited ws = true -> all_exited (<[i := Exited]> ws) = true.
Proof.
  unfold all_exited. rewrite !forallb_forall. intros Hall w Hin.
  apply list_elem_of_In, list_elem_of_lookup in Hin as [j Hj].
  apply list_lookup_insert_Some in Hj as [(-> & <- & _)|[_ Hj]].
  - reflexivity.
  - apply Hall, list_elem_of_In. eapply list_elem_of_lookup_2; eauto.
Qed.

Lemma exited_insert (ws : list worker) i w :
  w <> Exited -> Exited ∈ <[i := w]> ws -> Exited ∈ ws.
Proof.
  intros Hw Hin. apply list_elem_of_lookup in Hin as [j Hj].
  apply list_lookup_insert_Some in Hj as [(-> & Heq & _)|[_ Hj]].
  - congruence.
  - eapply list_elem_of_lookup_2; eauto.
Qed.

Lemma all_exited_false (ws : list worker) :
  all_exited ws = false ->
  exists i w, ws !! i = Some w /\ w <> Exited.
Proof.
  induction ws as [|w ws IH]; [discriminate|]. simpl.
  destruct w; simpl.
  - intros _. exists 0%nat, Receiving. split; [reflexivity | discriminate].
  - intros _. exists 0%nat, (Holding x). split; [reflexivity | discriminate].
  - intros Hall. destruct (IH Hall) as (i & w & Hi & Hw).
    exists (S i), w. auto.
Qed.

Lemma omap_snd_snoc (l : list (T * option R)) x o :
  omap snd (l ++ [(x, o)]) = push o (omap snd l).
Proof.
  rewrite omap_app. simpl. destruct o; simpl; [reflexivity|].
  now rewrite app_nil_r.
Qed.

(** Brings the single elements of both sides of a permutation to the
    front. *)
Ltac to_front :=
  simpl; rewrite <- ?app_assoc; simpl;
  rewrite <- ?Permutation_middle; reflexivity.

(** A step moves an item within the pool, or drops it once the context
    is cancelled. *)
Lemma step_pending s s' :
  step fn conv s s' ->
  pending s' ≡ₚ pending s
  \/ (cancelled s = true /\ exists x, pending s ≡ₚ x :: pending s').
Proof.
  intros Hstep. destruct Hstep as
    [x rest s Hu | x rest s Hu Hc | s Hu Hj | i x rest s Hw Hj
    | i s Hw Hj Hcl | i x s Hw Hc | i x env s Hw Hc | s Ha Hr
    | r rest env s Hr Hret | s Hr Hcl Hret | s Hc];
    unfold pending; simpl.
  - left. rewrite Hu. to_front.
  - right. split; [assumption|]. exists x. rewrite Hu. to_front.
  - now left.
  - left. rewrite Hj.
    rewrite (holding_insert_take _ _ Receiving x Hw eq_refl). to_front.
  - left. now rewrite (holding_insert_same _ _ Receiving Exited Hw).
  - right. split; [assumption|]. exists x.
    rewrite (holding_insert_drop _ _ x Exited Hw eq_refl) at 1. to_front.
  - left. rewrite (holding_insert_drop _ _ x Receiving Hw eq_refl).
    rewrite map_app. to_front.
  - now left.
  - now left.
  - now left.
  - now left.
Qed.

Lemma step_cancelled s s' :
  step fn conv s s' -> cancelled s' = false -> cancelled s = false.
Proof. intros Hstep. destruct Hstep; simpl; congruence. Qed.

Lemma push_app (o : option R) (l1 l2 : list R) :
  push o (l1 ++ l2) = l1 ++ push o l2.
Proof. destruct o; simpl; [now rewrite app_assoc | reflexivity]. Qed.

(** Every step keeps the invariant. *)
Lemma step_invariant items concurrency s s' :
  invariant fn conv items concurrency s -> step fn conv s s' ->
  invariant fn conv items concurrency s'.
Proof.
  intros [I1 I2 I3 I4 I5 I6 I7 I8 I9 I10] Hstep.
  pose proof (step_pending s s' Hstep) as Hpend.
  pose proof (step_cancelled s s' Hstep) as Hmono.
  assert (I4' : pending s' ⊆+ items).
  { destruct Hpend as [Hp|[_ [x Hp]]].
    - now rewrite Hp.
    - transitivity (x :: pending s'); [now apply submseteq_cons|].
      now rewrite <- Hp. }
  assert (I5' : cancelled s' = false -> pending s' ≡ₚ items).
  { intros Hc. destruct Hpend as [Hp|[Hc' _]].
    - rewrite Hp. auto.
    - rewrite (Hmono Hc) in Hc'. discriminate. }
  clear Hpend Hmono.
  destruct Hstep as
    [x rest s Hu | x rest s Hu Hc | s Hu Hj | i x rest s Hw Hj
    | i s Hw Hj Hcl | i x s Hw Hc | i x env s Hw Hc | s Ha Hr
    | r rest env s Hr Hret | s Hr Hcl Hret | s Hc];
    constructor; simpl in *; try assumption; try (now auto);
    try (rewrite length_insert; assumption);
    try (intros Hrc; pose proof (all_exited_lookup _ _ _ (I8 Hrc) Hw);
         discriminate).
  - (* send *) intros Hjc. rewrite (I6 Hjc) in Hu. discriminate.
  - intros Hc Hex. destruct (I7 Hc Hex) as [Hjc _].
    rewrite (I6 Hjc) in Hu. discriminate.
  - (* send, cancelled *) intros Hjc. rewrite (I6 Hjc) in Hu. discriminate.
  - (* close jobs *) intros Hc Hex. destruct (I7 Hc Hex). auto.
  - (* receive *) intros Hc Hex. apply exited_insert in Hex; [|discriminate].
    destruct (I7 Hc Hex) as [_ Hj0]. rewrite Hj0 in Hj. discriminate.
  - (* context done *) intros Hc'. congruence.
  - (* work *) now rewrite omap_snd_snoc, I1, push_app.
  - apply Forall_app. split; [assumption|].
    constructor; [|constructor]. exists env. reflexivity.
  - intros Hc' Hex. apply exited_insert in Hex; [|discriminate]. auto.
  - intros Hret. destruct (I9 Hret) as [Hrc _].
    pose proof (all_exited_lookup _ _ _ (I8 Hrc) Hw). discriminate.
  - (* close results *) intros Hret. destruct (I9 Hret). congruence.
  - (* collect *) rewrite I1, Hr. now rewrite <- app_assoc.
  - apply Forall2_app; [assumption|]. constructor; [eauto | constructor].
  - intros Hret'. congruence.
Qed.

Lemma holding_replicate n : holding (replicate n (@Receiving T)) = [].
Proof. induction n as [|n IH]; [reflexivity | exact IH]. Qed.

Lemma start_invariant items concurrency :
  invariant fn conv items concurrency (start items concurrency).
Proof.
  constructor; simpl; try (constructor; fail); try discriminate.
  - unfold pending. simpl. now rewrite holding_replicate.
  - intros _. unfold pending. simpl. now rewrite holding_replicate.
  - intros _ Hin. apply elem_of_replicate in Hin as [[=] _].
  - apply length_replicate.
Qed.

Lemma reachable_invariant items concurrency s :
  reachable fn conv items concurrency s ->
  invariant fn conv items concurrency s.
Proof.
  induction 1 as [|s s' _ IH Hstep].
  - apply start_invariant.
  - eapply step_invariant; eauto.
Qed.

(** When the caller returns: every value it holds comes, in order, from a
    call of [fn] that gave a result; [fn] was called at most once on each
    item, and exactly once on each when the context was never cancelled
    and there is a worker. *)
Lemma returned_spec items concurrency s :
  reachable fn conv items concurrency s ->
  returned s = true ->
  Forall (fun e => exists env, snd e = fn env (fst e)) (log s)
  /\ Forall2 (fun r h => exists env, h = conv env r)
             (omap snd (log s)) (hosts s)
  /\ map fst (log s) ⊆+ items
  /\ (cancelled s = false -> (0 < concurrency)%nat ->
      map fst (log s) ≡ₚ items).
Proof.
  intros Hreach Hret.
  destruct (reachable_invariant _ _ _ Hreach)
    as [I1 I2 I3 I4 I5 I6 I7 I8 I9 I10].
  destruct (I9 Hret) as [Hrc Hres].
  pose proof (I8 Hrc) as Hall.
  split; [assumption|]. split; [|split].
  - rewrite I1, Hres, app_nil_r. assumption.
  - etrans; [|exact I4]. unfold pending. apply submseteq_inserts_r.
    reflexivity.
  - intros Hc Hpos.
    assert (Hex : Exited ∈ workers s).
    { destruct (workers s) as [|w ws]; [simpl in I10; lia|].
      assert (Hw : w = Exited)
        by (apply (all_exited_lookup (w :: ws) 0 w Hall); reflexivity).
      rewrite Hw. constructor. }
    destruct (I7 Hc Hex) as [Hjc Hj].
    specialize (I5 Hc). unfold pending in I5.
    rewrite (all_exited_holding _ Hall), Hj, (I6 Hjc) in I5.
    simpl in I5. now rewrite app_nil_r in I5.
Qed.

(** As long as the caller has not returned, some goroutine can move. *)
Lemma progress (env : E) s :
  returned s = false -> exists s', step fn conv s s'.
Proof.
  intros Hret.
  destruct (unsent s) as [|x rest] eqn:Hu;
    [|eexists; eapply step_send; eauto].
  destruct (jobs_closed s) eqn:Hjc;
    [|eexists; eapply step_close_jobs; eauto].
  destruct (all_exited (workers s)) eqn:Hall.
  - destruct (results_closed s) eqn:Hrc;
      [|eexists; eapply step_close_results; eauto].
    destruct (results s) as [|r rest] eqn:Hr.
    + eexists. eapply step_return; eauto.
    + eexists. eapply (step_collect fn conv r rest env); eauto.
  - apply all_exited_false in Hall as (i & w & Hw & Hne).
    destruct w as [|x|]; [| |congruence].
    + destruct (jobs s) as [|x rest] eqn:Hj.
      * eexists. eapply step_range_end; eauto.
      * eexists. eapply step_recv; eauto.
    + destruct (cancelled s) eqn:Hc.
      * eexists. eapply step_ctx_done; eauto.
      * eexists. eapply (step_work fn conv i x env); eauto.
Qed.

Lemma push_length (o : option R) (l : list R) :
  (length (push o l) <= S (length l))%nat.
Proof. destruct o; simpl; [rewrite length_app; simpl|]; lia. Qed.

(** Every step lowers the measure, so no run goes on for ever. *)
Lemma step_measure s s' :
  step fn conv s s' -> (measure s' < measure s)%nat.
Proof.
  intros Hstep. destruct Hstep as
    [x rest s Hu | x rest s Hu Hc | s Hu Hj | i x rest s Hw Hj
    | i s Hw Hj Hcl | i x s Hw Hc | i x env s Hw Hc | s Ha Hr
    | r rest env s Hr Hret | s Hr Hcl Hret | s Hc];
    unfold measure; simpl;
    repeat match goal with
           | H : _ = _ |- _ => rewrite H
           end; simpl;
    try (rewrite length_app; simpl; lia); try lia.
  - pose proof (weight_insert _ _ _ (Holding x) Hw) as Hwt. simpl in Hwt. lia.
  - pose proof (weight_insert _ _ _ Exited Hw) as Hwt. simpl in Hwt. lia.
  - pose proof (weight_insert _ _ _ Exited Hw) as Hwt. simpl in Hwt. lia.
  - pose proof (weight_insert _ _ _ Receiving Hw) as Hwt. simpl in Hwt.
    pose proof (push_length (fn env x) (results s)). lia.
Qed.

(** The function of the labels takes steps of the relation. *)
Lemma exec_step l s s' : exec fn conv l s = Some s' -> step fn conv s s'.
Proof.
  destruct l as [| | |i|i|i|i env| |env| |]; unfold exec.
  - destruct (unsent s) eqn:Hu; [discriminate|].
    intros [= <-]. eapply step_send; eauto.
  - destruct (unsent s) eqn:Hu; [discriminate|].
    destruct (cancelled s) eqn:Hc; [|discriminate].
    intros [= <-]. rewrite <- Hc. eapply step_send_skip; eauto.
  - destruct (unsent s) eqn:Hu; [|discriminate].
    destruct (jobs_closed s) eqn:Hj; [discriminate|].
    intros [= <-]. rewrite <- Hu. eapply step_close_jobs; eauto.
  - destruct (workers s !! i) as [[| |]|] eqn:Hw; try discriminate.
    destruct (jobs s) eqn:Hj; [discriminate|].
    intros [= <-]. eapply step_recv; eauto.
  - destruct (workers s !! i) as [[| |]|] eqn:Hw; try discriminate.
    destruct (jobs s) eqn:Hj; [|discriminate].
    destruct (jobs_closed s) eqn:Hc; [|discriminate].
    intros [= <-]. rewrite <- Hc, <- Hj. eapply step_range_end; eauto.
  - destruct (workers s !! i) as [[| |]|] eqn:Hw; try discriminate.
    destruct (cancelled s) eqn:Hc; [|discriminate].
    intros [= <-]. rewrite <- Hc. eapply step_ctx_done; eauto.
  - destruct (workers s !! i) as [[| |]|] eqn:Hw; try discriminate.
    destruct (cancelled s) eqn:Hc; [discriminate|].
    intros [= <-]. rewrite <- Hc. eapply step_work; eauto.
  - destruct (all_exited (workers s)) eqn:Ha; [|discriminate].
    destruct (results_closed s) eqn:Hr; [discriminate|].
    intros [= <-]. eapply step_close_results; eauto.
  - destruct (results s) eqn:Hr; [discriminate|].
    destruct (returned s) eqn:Hret; [discriminate|].
    intros [= <-]. rewrite <- Hret. eapply step_collect; eauto.
  - destruct (results s) eqn:Hr; [|discriminate].
    destruct (results_closed s) eqn:Hc; [|discriminate].
    destruct (returned s) eqn:Hret; [discriminate|].
    intros [= <-]. rewrite <- Hc at 1. rewrite <- Hr. eapply step_return; eauto.
  - destruct (cancelled s) eqn:Hc; [discriminate|].
    intros [= <-]. eapply step_cancel; eauto.
Qed.

Lemma run_reachable items concurrency schedule : forall s s',
  reachable fn conv items concurrency s ->
  run fn conv schedule s = Some s' ->
  reachable fn conv items concurrency s'.
Proof.
  induction schedule as [|l schedule IH]; intros s s' Hreach; simpl.
  - now intros [= <-].
  - destruct (exec fn conv l s) as [s1|] eqn:Hex; [|discriminate].
    apply IH. eapply reachable_step; [exact Hreach|].
    now apply (exec_step l).
Qed.

End PoolFacts.

(** ** The sweep of a subnet *)

Section SweepFacts.

Import Net Ping.

Variable ParseCIDR6 : string -> option (Net.IP * IPNet).
Variable String16 : Net.IP -> string.
Variable nw : network.

Lemma pingHost_IP now ip : IP (pingHost nw now ip) = ip.
Proof.
  unfold pingHost, pingHost_trace.
  pose proof (try_ports_spec nw ip ports
                (mkScanHost ip EmptyString false Float64.zero now) []) as Hspec.
  destruct (find (answers nw ip) ports) as [port|].
  - destruct Hspec as (before & after & _ & _ & ->). cbn [Alive].
    destruct (lookup nw ip) as [[|name names] [e|]]; reflexivity.
  - rewrite Hspec. reflexivity.
Qed.

Lemma pingHost_silent now ip :
  (forall port, answers nw ip port = false) ->
  Alive (pingHost nw now ip) = false.
Proof.
  intros Hsilent. unfold pingHost, pingHost_trace.
  pose proof (try_ports_spec nw ip ports
                (mkScanHost ip EmptyString false Float64.zero now) []) as Hspec.
  destruct (find (answers nw ip) ports) as [port|] eqn:Hfind.
  - apply find_some in Hfind as [_ Hport]. now rewrite Hsilent in Hport.
  - rewrite Hspec. reflexivity.
Qed.

(** What the workers of the sweep have sent. *)
Lemma sweep_log (log : list (string * option ScanHost)) :
  Forall (fun e => exists now, snd e = sweep_fn nw now (fst e)) log ->
  map IP (omap snd log) = map fst log
  /\ Forall (fun h => exists now, h = pingHost nw now (IP h)) (omap snd log).
Proof.
  induction 1 as [|[ip o] log [now Ho] _ [IHip IHall]]; [split; constructor|].
  simpl in *. subst o. unfold sweep_fn. simpl.
  rewrite pingHost_IP. split; [f_equal; exact IHip|].
  constructor; [|exact IHall]. exists now. now rewrite pingHost_IP.
Qed.

Lemma sweep_conv_id (rs hs : list ScanHost) :
  Forall2 (fun r h => exists now : Z, h = sweep_conv now r) rs hs -> hs = rs.
Proof.
  induction 1 as [|r h rs hs [now ->] _ IH]; [reflexivity|].
  unfold sweep_conv. now rewrite IH.
Qed.

Lemma NewPingProbe_workers c t :
  (0 < Z.to_nat (concurrency (NewPingProbe c t)))%nat.
Proof. simpl. destruct (c <=? 0) eqn:Hc; [lia|]. apply Z.leb_gt in Hc. lia. Qed.

(** C10.  On a subnet whose expansion gave [ips], a sweep during which
    the context is not cancelled returns one entry for each address of
    [ips] and no other, whatever the order: each entry is the result of
    [pingHost] on its own address, and an address on which no attempt
    qualifies has its entry, with [Alive] false.  The sweep does return:
    as long as the caller has not, a step is possible, and every step
    lowers the measure. *)
Theorem sweep_one_entry_per_address :
  forall c t fuel cidr ips,
    expandCIDR ParseCIDR6 String16 fuel cidr = Some (ips, None) ->
    (forall hosts err,
        SweepSubnet ParseCIDR6 String16 (NewPingProbe c t) nw fuel cidr
                    false (hosts, err) ->
        err = None
        /\ map IP hosts ≡ₚ ips
        /\ length hosts = length ips
        /\ Forall (fun h => exists now, h = pingHost nw now (IP h)) hosts
        /\ (forall ip,
              ip ∈ ips -> (forall port, answers nw ip port = false) ->
              exists h, h ∈ hosts /\ IP h = ip /\ Alive h = false))
    /\ (forall s,
          Pool.reachable (sweep_fn nw) sweep_conv ips
                         (Z.to_nat (concurrency (NewPingProbe c t))) s ->
          (Pool.returned s = false ->
           exists s', Pool.step (sweep_fn nw) sweep_conv s s')
          /\ (forall s', Pool.step (sweep_fn nw) sweep_conv s s' ->
                         (Pool.measure s' < Pool.measure s)%nat)).
Proof.
  intros c t fuel cidr ips Hexp. split.
  - intros hosts err Hsweep. unfold SweepSubnet in Hsweep.
    rewrite Hexp in Hsweep.
    destruct Hsweep as (s & Hreach & Hret & Hlive & [= -> ->]).
    destruct (returned_spec _ _ _ _ _ Hreach Hret)
      as (Hlog & Hhosts & _ & Hall).
    specialize (Hall Hlive (NewPingProbe_workers c t)).
    apply sweep_conv_id in Hhosts.
    destruct (sweep_log _ Hlog) as [Hips Hping].
    rewrite Hhosts.
    assert (Hperm : map IP (omap snd (Pool.log s)) ≡ₚ ips)
      by now rewrite Hips.
    split; [reflexivity|]. split; [exact Hperm|]. split; [|split].
    + rewrite <- (length_map IP). now rewrite Hperm.
    + exact Hping.
    + intros ip Hin Hsilent. rewrite <- Hperm in Hin.
      apply list_elem_of_fmap in Hin as (h & -> & Hh).
      exists h. split; [exact Hh|]. split; [reflexivity|].
      rewrite Forall_forall in Hping.
      destruct (Hping h Hh) as [now Hnow].
      rewrite Hnow. now apply pingHost_silent.
  - intros s Hreach. split.
    + apply (progress _ _ 0).
    + intros s'. apply step_measure.
Qed.

End SweepFacts.

Section SweepWitness.

Import Ping Samples.

Lemma sweep_run :
  exists s,
    Pool.run (sweep_fn lan) sweep_conv sweep_schedule
             (Pool.start ["192.168.1.1"; "192.168.1.2"] 2) = Some s
    /\ Pool.returned s = true /\ Pool.cancelled s = false.
Proof. vm_compute. eexists. repeat split. Qed.

Lemma sweep_one_entry_per_address_witness :
  exists hosts,
    SweepSubnet no_v6 no_text (NewPingProbe 2 0) lan 5 "192.168.1.0/30"
                false (hosts, None)
    /\ length hosts = 2%nat.
Proof.
  destruct sweep_run as (s & Hs & Hret & Hlive).
  pose proof (run_reachable (sweep_fn lan) sweep_conv
                ["192.168.1.1"; "192.168.1.2"] 2 sweep_schedule _ s
                (Pool.reachable_start _ _ _ _) Hs) as Hreach.
  assert (Hsweep : SweepSubnet no_v6 no_text (NewPingProbe 2 0) lan 5
                     "192.168.1.0/30" false (Pool.hosts s, None)).
  { unfold SweepSubnet.
    change (expandCIDR no_v6 no_text 5 "192.168.1.0/30")
      with (Some (["192.168.1.1"; "192.168.1.2"], @None error)).
    exists s. auto. }
  exists (Pool.hosts s). split; [exact Hsweep|].
  destruct (sweep_one_entry_per_address no_v6 no_text lan 2 0 5
              "192.168.1.0/30" ["192.168.1.1"; "192.168.1.2"] eq_refl)
    as [Hall _].
  destruct (Hall (Pool.hosts s) None Hsweep) as (_ & _ & Hlen & _).
  exact Hlen.
Defined.

End SweepWitness.

(** ** The port scan *)

Section ScanFacts.

Import PortScan.

Variable nw : network.
Variable host : string.

Lemma scanPort_accepts port :
  scanPort nw host port
  = if accepts nw host port then Some (open_result nw host port) else None.
Proof. unfold scanPort, accepts. now destruct (connect nw host port). Qed.

(** What the workers of the scan have sent: a result for each port that
    accepted the connection, in the order of the calls. *)
Lemma scan_log (log : list (Z * option ScanResult)) :
  Forall (fun e => exists now : Z, snd e = scan_fn nw host now (fst e)) log ->
  omap snd log
  = map (open_result nw host)
        (filter (fun p => accepts nw host p = true) (map fst log)).
Proof.
  induction 1 as [|[port o] log [now Ho] _ IH]; [reflexivity|].
  simpl in Ho. subst o. unfold scan_fn.
  change (omap snd ((port, scanPort nw host port) :: log))
    with (match scanPort nw host port with
          | Some r => r :: omap snd log
          | None => omap snd log
          end).
  change (map fst ((port, scanPort nw host port) :: log))
    with (port :: map fst log).
  rewrite filter_cons, scanPort_accepts, IH.
  destruct (accepts nw host port) eqn:Ha.
  - rewrite decide_True by reflexivity. reflexivity.
  - rewrite decide_False by discriminate. reflexivity.
Qed.

Lemma scan_conv_ports (rs : list ScanResult) (hs : list ScanPort) :
  Forall2 (fun r h => exists now : Z, h = scan_conv now r) rs hs ->
  map sp_Port hs = map Port rs
  /\ Forall (fun sp => exists r, r ∈ rs
                       /\ sp_State sp = State r
                       /\ sp_Protocol sp = "tcp"
                       /\ sp_Service sp = Service r
                       /\ sp_Banner sp = Banner r
                       /\ sp_Port sp = Port r) hs.
Proof.
  induction 1 as [|r h rs hs [now ->] _ [IHp IHall]]; [split; constructor|].
  split.
  - simpl. now rewrite IHp.
  - constructor.
    + exists r. repeat split. constructor.
    + eapply Forall_impl; [exact IHall|].
      intros sp (r' & Hin & Hrest). exists r'. split; [now constructor|].
      exact Hrest.
Qed.

Lemma NewPortScanner_workers c t ps :
  (0 < Z.to_nat (concurrency (NewPortScanner c t ps)))%nat.
Proof. simpl. destruct (c <=? 0) eqn:Hc; [lia|]. apply Z.leb_gt in Hc. lia. Qed.

(** The names that [getServiceName] gives: that of the table for a port
    of the table, and unknown for any other port. *)
Lemma getServiceName_table port :
  (forall name,
     (port, name)
     ∈ [(21, "ftp"); (22, "ssh"); (23, "telnet"); (25, "smtp"); (53, "dns");
        (80, "http"); (110, "pop3"); (111, "rpc"); (135, "msrpc");
        (139, "netbios"); (143, "imap"); (443, "https"); (445, "smb");
        (993, "imaps"); (995, "pop3s"); (1433, "mssql"); (1521, "oracle");
        (1723, "pptp"); (3306, "mysql"); (3389, "rdp"); (5432, "postgresql");
        (5900, "vnc"); (5984, "couchdb"); (6379, "redis"); (8080, "http-alt");
        (8443, "https-alt"); (8888, "http-alt"); (9092, "kafka");
        (9200, "elasticsearch"); (11211, "memcached"); (27017, "mongodb")] ->
     getServiceName port = name)
  /\ (port ∉ [21; 22; 23; 25; 53; 80; 110; 111; 135; 139; 143; 443; 445;
              993; 995; 1433; 1521; 1723; 3306; 3389; 5432; 5900; 5984;
              6379; 8080; 8443; 8888; 9092; 9200; 11211; 27017] ->
      getServiceName port = "unknown")
  /\ (forall name, serviceNames !! port = Some name ->
                   getServiceName port = name)
  /\ (serviceNames !! port = None -> getServiceName port = "unknown").
Proof.
  unfold getServiceName. split; [|split; [|split]].
  - intros name Hin. unfold serviceNames.
    erewrite (elem_of_list_to_map_1 (M := gmap Z)); [reflexivity| |exact Hin].
    apply (bool_decide_unpack _). vm_compute. exact I.
  - intros Hout. unfold serviceNames.
    rewrite (not_elem_of_list_to_map_1 (M := gmap Z)); [reflexivity|].
    exact Hout.
  - now intros name ->.
  - now intros ->.
Qed.
(** C9.  [ScanHost] returns no error and one record for each port on
    which [scanPort] was called and the connection succeeded, none for a
    port whose connection failed; the ports called are configured ports,
    each at most once, and all of them when the context is not cancelled.
    Every record is open, over tcp, with the service name that the table
    has for its port, ftp for 21, ssh for 22 and so on to mongodb for
    27017, or unknown for a port that the table lacks.  So a host on
    which port 22 alone accepts connections gives, when 22 is configured
    once, the single record of port 22, open, ssh. *)
Theorem scan_open_ports :
  forall c t ps attempted ctx_cancelled res err,
    ScanHost (NewPortScanner c t ps) nw host attempted ctx_cancelled
             (res, err) ->
    err = None
    /\ attempted ⊆+ ports (NewPortScanner c t ps)
    /\ (ctx_cancelled = false ->
        attempted ≡ₚ ports (NewPortScanner c t ps))
    /\ map sp_Port res
       = filter (fun p => accepts nw host p = true) attempted
    /\ Forall (fun sp => sp_State sp = "open"
                         /\ sp_Protocol sp = "tcp"
                         /\ sp_Service sp = getServiceName (sp_Port sp)
                         /\ accepts nw host (sp_Port sp) = true) res
    /\ Forall
         (fun sp =>
            (forall name,
               (sp_Port sp, name)
               ∈ [(21, "ftp"); (22, "ssh"); (23, "telnet"); (25, "smtp");
                  (53, "dns"); (80, "http"); (110, "pop3"); (111, "rpc");
                  (135, "msrpc"); (139, "netbios"); (143, "imap");
                  (443, "https"); (445, "smb"); (993, "imaps");
                  (995, "pop3s"); (1433, "mssql"); (1521, "oracle");
                  (1723, "pptp"); (3306, "mysql"); (3389, "rdp");
                  (5432, "postgresql"); (5900, "vnc"); (5984, "couchdb");
                  (6379, "redis"); (8080, "http-alt"); (8443, "https-alt");
                  (8888, "http-alt"); (9092, "kafka");
                  (9200, "elasticsearch"); (11211, "memcached");
                  (27017, "mongodb")] ->
               sp_Service sp = name)
            /\ (sp_Port sp
                ∉ [21; 22; 23; 25; 53; 80; 110; 111; 135; 139; 143; 443;
                   445; 993; 995; 1433; 1521; 1723; 3306; 3389; 5432; 5900;
                   5984; 6379; 8080; 8443; 8888; 9092; 9200; 11211; 27017] ->
                sp_Service sp = "unknown")
            /\ (forall name,
                  serviceNames !! sp_Port sp = Some name ->
                  sp_Service sp = name)
            /\ (serviceNames !! sp_Port sp = None ->
                sp_Service sp = "unknown")) res
    /\ (forall port,
          serviceNames !! port = None -> getServiceName port = "unknown")
    /\ (ctx_cancelled = false ->
        filter (fun p => p = 22) (ports (NewPortScanner c t ps)) = [22] ->
        (forall p, accepts nw host p = true <-> p = 22) ->
        exists now,
          res = [mkScanPort 22 "tcp" "ssh" "open"
                            (grabBanner (read nw host 22)) now]).
Proof.
  intros c t ps attempted ctx_cancelled res err
         (st & Hreach & Hret & Hcan & -> & [= -> ->]).
  destruct (returned_spec _ _ _ _ _ Hreach Hret)
    as (Hlog & Hhosts & Hsub & Hall).
  rewrite (scan_log _ Hlog) in Hhosts.
  destruct (scan_conv_ports _ _ Hhosts) as [Hports Hrecords].
  assert (Hfields :
            Forall (fun sp => sp_State sp = "open"
                              /\ sp_Protocol sp = "tcp"
                              /\ sp_Service sp = getServiceName (sp_Port sp)
                              /\ accepts nw host (sp_Port sp) = true)
                   (Pool.hosts st)).
  { eapply Forall_impl; [exact Hrecords|].
    intros sp (r & Hin & Hstate & Hproto & Hserv & _ & Hport).
    apply list_elem_of_fmap in Hin as (p & -> & Hp).
    apply list_elem_of_filter in Hp as [Hp _].
    rewrite Hstate, Hserv, Hport. simpl. auto. }
  split; [reflexivity|]. split; [exact Hsub|].
  split; [|split; [|split; [|split]]].
  - intros ->. apply Hall; [assumption | apply NewPortScanner_workers].
  - rewrite Hports, map_map. simpl. apply map_id.
  - exact Hfields.
  - eapply Forall_impl; [exact Hfields|].
    intros sp (_ & _ & -> & _). apply getServiceName_table.
  - split.
    + intros port Hnone. unfold getServiceName. now rewrite Hnone.
    + intros -> H22 Honly.
      specialize (Hall Hcan (NewPortScanner_workers c t ps)).
      assert (Hf : filter (fun p => accepts nw host p = true)
                          (map fst (Pool.log st)) = [22]).
      { apply Permutation_singleton_r.
        rewrite Hall, <- H22. now rewrite (list_filter_iff _ _ _ Honly). }
      rewrite Hf in Hhosts. simpl in Hhosts.
      inversion Hhosts as [|r h rs hs [now ->] Hnil]; subst.
      inversion Hnil; subst. exists now. reflexivity.
Qed.

End ScanFacts.

Section ScanWitness.

Import PortScan Samples.

Lemma scan_run :
  exists st,
    Pool.run (scan_fn ssh_only "192.168.1.1") scan_conv scan_schedule
             (Pool.start DefaultPorts 20) = Some st
    /\ Pool.returned st = true /\ Pool.cancelled st = false.
Proof. vm_compute. eexists. repeat split. Qed.

Lemma ssh_only_accepts host p : accepts ssh_only host p = true <-> p = 22.
Proof.
  unfold accepts. simpl. destruct (Z.eqb_spec p 22); split; congruence.
Qed.

Lemma DefaultPorts_ssh_once : filter (fun p => p = 22) DefaultPorts = [22].
Proof. vm_compute. reflexivity. Qed.

Lemma scan_open_ports_witness :
  exists attempted res now,
    ScanHost (NewPortScanner 0 0 []) ssh_only "192.168.1.1" attempted false
             (res, None)
    /\ res = [mkScanPort 22 "tcp" "ssh" "open" "SSH-2.0-OpenSSH_9.6" now].
Proof.
  destruct scan_run as (st & Hst & Hret & Hlive).
  pose proof (run_reachable (scan_fn ssh_only "192.168.1.1") scan_conv
                DefaultPorts 20 scan_schedule _ st
                (Pool.reachable_start _ _ _ _) Hst) as Hreach.
  assert (Hscan : ScanHost (NewPortScanner 0 0 []) ssh_only "192.168.1.1"
                           (map fst (Pool.log st)) false
                           (Pool.hosts st, None)).
  { exists st. auto. }
  destruct (scan_open_ports ssh_only "192.168.1.1" 0 0 []
              (map fst (Pool.log st)) false (Pool.hosts st) None Hscan)
    as (_ & _ & _ & _ & _ & _ & _ & Hssh).
  destruct (Hssh eq_refl DefaultPorts_ssh_once
              (ssh_only_accepts "192.168.1.1")) as [now Hres].
  exists (map fst (Pool.log st)), (Pool.hosts st), now.
  split; [exact Hscan | exact Hres].
Defined.

End ScanWitness.
(** * Further properties *)

(** ** Lookup, trigger and status of the scheduler *)

Section TriggerFacts.

Import Scheduler Status.

Lemma GetJob_spec name s :
  match GetJob name s with
  | Some i =>
      exists c, s !! i = Some c /\ Name (job c) = name
        /\ forall j c', (j < i)%nat -> s !! j = Some c' ->
                        Name (job c') <> name
  | None => forall c, c ∈ s -> Name (job c) <> name
  end.
Proof.
  induction s as [|c s IH]; simpl.
  - intros c Hc. inversion Hc.
  - destruct (String.eqb_spec (Name (job c)) name) as [Heq|Hne].
    + exists c. repeat split; auto. intros j c' Hj. lia.
    + destruct (GetJob name s) as [i|]; simpl.
      * destruct IH as (c0 & Hc0 & Hname & Hfirst).
        exists c0. repeat split; auto.
        intros [|j] c' Hj Hc'; simpl in Hc'.
        -- congruence.
        -- apply (Hfirst j); auto. lia.
      * intros c' Hc'. apply elem_of_cons in Hc' as [->|Hc']; auto.
  Qed.

Lemma lookup_map {A B} (f : A -> B) (l : list A) (i : nat) :
  map f l !! i = option_map f (l !! i).
Proof.
  revert i. induction l as [|x l IH]; intros [|i]; simpl; auto.
Qed.


Lemma TriggerJob_found name now s :
  fst (TriggerJob name now s) = true
  <-> exists c, c ∈ s /\ Name (job c) = name.
Proof.
  unfold TriggerJob. pose proof (GetJob_spec name s) as Hspec.
  destruct (GetJob name s) as [i|].
  - destruct Hspec as (c & Hc & Hname & Hfirst). rewrite Hc. simpl.
    split; auto. intros _. exists c. split; auto.
    now apply list_elem_of_lookup_2 in Hc.
  - simpl. split; [discriminate|]. intros (c & Hc & Hname).
    now apply Hspec in Hc.
Qed.


End TriggerFacts.

Section SchedulerKeeps.

Import Scheduler Status.

Lemma same_job_refl c : same_job c c.
Proof. now repeat split. Qed.

Lemma same_job_trans c1 c2 c3 :
  same_job c1 c2 -> same_job c2 c3 -> same_job c1 c3.
Proof. unfold same_job. intuition congruence. Qed.

Lemma same_job_check now c : same_job c (check now c).
Proof. unfold check. destruct (shouldRun now (job c)); now repeat split. Qed.

Lemma same_job_launch now c c' : launch now c = Some c' -> same_job c c'.
Proof.
  unfold launch, runJob_begin.
  destruct (spawned c); [discriminate|].
  destruct (running (job c)); intros [= <-]; now repeat split.
Qed.

Lemma same_job_complete ctx now c c' :
  complete ctx now c = Some c' -> same_job c c'.
Proof.
  unfold complete, runJob_end.
  destruct (inflight c); [discriminate|].
  destruct (Run (job c) ctx); intros [= <-]; now repeat split.
Qed.

Lemma same_job_trigger now c : same_job c (trigger now c).
Proof. now repeat split. Qed.

Lemma same_job_insert (s : list cell) i c c' j d :
  s !! i = Some c -> same_job c c' -> s !! j = Some d ->
  exists d', <[i := c']> s !! j = Some d' /\ same_job d d'.
Proof.
  intros Hi Hsame Hj. destruct (decide (i = j)) as [->|Hne].
  - exists c'. rewrite list_lookup_insert_eq by now apply lookup_lt_Some in Hi.
    split; [reflexivity|]. congruence.
  - exists d. rewrite list_lookup_insert_ne by assumption.
    split; [assumption | apply same_job_refl].
Qed.

Lemma step_keeps s s' :
  step s s' ->
  forall j d, s !! j = Some d -> exists d', s' !! j = Some d' /\ same_job d d'.
Proof.
  unfold state. intros Hstep j d Hj. destruct Hstep.
  - exists d. unfold AddJob. rewrite lookup_app_l by now apply lookup_lt_Some in Hj.
    split; [assumption | apply same_job_refl].
  - eapply same_job_insert; eauto using same_job_check.
  - exists (check now d). unfold checkJobs. rewrite lookup_map, Hj.
    split; [reflexivity | apply same_job_check].
  - eapply same_job_insert; eauto using same_job_launch.
  - eapply same_job_insert; eauto using same_job_complete.
  - eapply same_job_insert; eauto using same_job_trigger.
Qed.

Lemma steps_keep s s' :
  steps s s' ->
  forall j d, s !! j = Some d -> exists d', s' !! j = Some d' /\ same_job d d'.
Proof.
  induction 1 as [s|s1 s2 s3 Hstep _ IH]; intros j d Hj.
  - exists d. split; [assumption | apply same_job_refl].
  - destruct (step_keeps _ _ Hstep j d Hj) as (d2 & Hd2 & Hs2).
    destruct (IH j d2 Hd2) as (d3 & Hd3 & Hs3).
    exists d3. split; [assumption|]. eapply same_job_trans; eauto.
Qed.

Lemma GetJob_keeps name (s s' : state) :
  (forall j d, s !! j = Some d ->
               exists d', s' !! j = Some d' /\ same_job d d') ->
  forall i, GetJob name s = Some i -> GetJob name s' = Some i.
Proof.
  revert s'. induction s as [|c s IH]; intros s' Hkeep i; simpl.
  - discriminate.
  - destruct (Hkeep 0%nat c eq_refl) as (c' & Hc' & Hname & _).
    destruct s' as [|c0 s']; [discriminate|]. simpl in Hc'.
    injection Hc' as ->. simpl. rewrite Hname.
    destruct (String.eqb (Name (job c)) name); [auto|].
    destruct (GetJob name s) as [k|] eqn:Hk; [|discriminate].
    intros [= <-]. rewrite (IH s' (fun j d => Hkeep (S j) d) k eq_refl).
    reflexivity.
Qed.

(** X2.  Whatever the scheduler does (registrations, ticks, executions
    starting and completing, triggers), it never removes a job and never
    changes the name, the interval or the function of one: every job
    stays at its position, and a name that [GetJob] finds keeps denoting
    the same job. *)
Theorem registered_jobs_are_kept s s' :
  Status.steps s s' ->
  (length s <= length s')%nat
  /\ (forall i c, s !! i = Some c ->
        exists c', s' !! i = Some c'
          /\ Name (job c') = Name (job c)
          /\ Interval (job c') = Interval (job c)
          /\ Run (job c') = Run (job c))
  /\ (forall name i, GetJob name s = Some i -> GetJob name s' = Some i).
Proof.
  intros Hsteps. pose proof (steps_keep s s' Hsteps) as Hkeep.
  split; [|split].
  - destruct (decide (length s <= length s')%nat) as [|Hgt]; [assumption|].
    destruct (lookup_lt_is_Some_2 s (length s')) as [d Hd]; [lia|].
    destruct (Hkeep _ _ Hd) as (d' & Hd' & _).
    apply lookup_lt_Some in Hd'. lia.
  - exact Hkeep.
  - intros name. now apply GetJob_keeps.
Qed.

Lemma registered_jobs_are_kept_witness :
  Status.steps Samples.registered Samples.launched_twice
  /\ GetJob "traceroute" Samples.launched_twice = Some 0%nat.
Proof.
  assert (Hsteps : Status.steps Samples.registered Samples.launched_twice).
  { eapply steps_step; [apply (step_tick (6 * second))|].
    eapply steps_step; [apply (step_tick (7 * second))|].
    eapply steps_step;
      [eapply (step_launch (7 * second) 0); reflexivity|].
    eapply steps_step;
      [eapply (step_launch (7 * second) 0); reflexivity|].
    apply steps_refl. }
  split; [exact Hsteps|].
  now apply (registered_jobs_are_kept _ _ Hsteps).
Defined.

(** X3.  In every state that the scheduler can reach, [GetJobStatuses]
    gives one status for each job, in the order of registration and
    under the job's name, and a status says [Running] exactly when an
    execution of that job is in flight; a job without a recorded error
    has the empty [LastError]. *)
Theorem statuses_report_executions s :
  reachable s ->
  length (GetJobStatuses s) = length s
  /\ forall i c, s !! i = Some c ->
       exists st, GetJobStatuses s !! i = Some st
         /\ st_Name st = Name (job c)
         /\ st_NextRun st = nextRun (job c)
         /\ st_ErrorCount st = errorCount (job c)
         /\ (st_Running st = true <-> inflight c = 1%nat)
         /\ (st_Running st = false <-> inflight c = 0%nat)
         /\ (lastError (job c) = None -> st_LastError st = EmptyString).
Proof.
  intros Hreach. split.
  - unfold GetJobStatuses. apply length_map.
  - intros i c Hc. exists (status_of (job c)).
    unfold GetJobStatuses, state in *. rewrite lookup_map, Hc.
    pose proof (reachable_cell_ok s Hreach) as Hok.
    assert (Hcell : cell_ok c) by (eapply Forall_lookup_1; eauto).
    unfold cell_ok in Hcell. simpl.
    repeat split; auto; try (destruct (running (job c)); congruence).
    intros ->. reflexivity.
Qed.

Lemma statuses_report_executions_witness :
  exists st,
    GetJobStatuses Samples.launched_twice = [st]
    /\ st_Name st = "traceroute" /\ st_Running st = true.
Proof.
  destruct (statuses_report_executions _ launched_twice_reachable)
    as [_ Hat].
  destruct (Hat 0%nat _ eq_refl) as (st & Hst & Hname & _ & _ & Hrun & _).
  exists st. split; [|split].
  - vm_compute in Hst. injection Hst as <-. reflexivity.
  - exact Hname.
  - apply Hrun. reflexivity.
Defined.

End SchedulerKeeps.

Section Registration.

Import Scheduler Status.

(** X4.  [registerJobs] on a fresh scheduler registers the four probe
    jobs under four different names, which [TriggerJob] finds and no
    other.  Whatever its interval, a job is not started by any tick up
    to five seconds after its registration, and is started by every
    tick after that while it has not begun to run. *)
Theorem registerJobs_first_runs t1 t2 t3 t4 i1 i2 i3 i4 r1 r2 r3 r4 :
  let s := registerJobs t1 t2 t3 t4 i1 i2 i3 i4 r1 r2 r3 r4 NewScheduler in
  map (fun c => Name (job c)) s
  = ["ip_check"; "traceroute"; "ping_sweep"; "port_scan"]
  /\ reachable s
  /\ (forall name now,
        fst (TriggerJob name now s) = true
        <-> name ∈ ["ip_check"; "traceroute"; "ping_sweep"; "port_scan"])
  /\ (forall later,
        map spawned (checkJobs later s)
        = map (fun t => if t + second * 5 <? later then 1%nat else 0%nat)
              [t1; t2; t3; t4]).
Proof.
  intros s. split; [reflexivity|]. split; [|split].
  - unfold s, registerJobs.
    repeat (eapply reachable_step; [|apply step_add]). constructor.
  - intros name now. rewrite TriggerJob_found.
    unfold s, registerJobs, AddJob. simpl. split.
    + intros (c & Hc & <-).
      rewrite !elem_of_cons in Hc. rewrite !elem_of_cons.
      destruct Hc as [->|[->|[->|[->|Hc]]]]; simpl; auto.
      inversion Hc.
    + intros Hname. rewrite !elem_of_cons in Hname.
      destruct Hname as [->|[->|[->|[->|Hname]]]]; [| | | |inversion Hname].
      * eexists. split; [apply list_elem_of_here|reflexivity].
      * eexists. split; [do 1 apply list_elem_of_further;
                         apply list_elem_of_here|reflexivity].
      * eexists. split; [do 2 apply list_elem_of_further;
                         apply list_elem_of_here|reflexivity].
      * eexists. split; [do 3 apply list_elem_of_further;
                         apply list_elem_of_here|reflexivity].
  - intros later. unfold s, registerJobs, AddJob, checkJobs, check, shouldRun.
    simpl.
    destruct (t1 + second * 5 <? later), (t2 + second * 5 <? later),
      (t3 + second * 5 <? later), (t4 + second * 5 <? later); reflexivity.
Qed.

End Registration.

(** ** The jobs and the calls they make *)

Section TracerouteRun.

Import Runs.

Context {Result : Type}.
Variable Trace : nat -> string -> Result * option error.
Variable Save : nat -> Result -> option error.

Lemma live_polls_le ctx poll n : (live_polls ctx poll n <= n)%nat.
Proof.
  revert poll. induction n as [|n IH]; intros poll; simpl; [lia|].
  destruct (Done ctx poll); [lia|]. specialize (IH (S poll)). lia.
Qed.

Lemma live_polls_live ctx poll n j :
  (j < live_polls ctx poll n)%nat -> Done ctx (poll + j) = false.
Proof.
  revert poll j. induction n as [|n IH]; intros poll j; simpl; [lia|].
  destruct (Done ctx poll) eqn:Hd; [lia|].
  destruct j as [|j]; intros Hj.
  - now rewrite Nat.add_0_r.
  - replace (poll + S j)%nat with (S poll + j)%nat by lia.
    apply IH. lia.
Qed.

Lemma live_polls_done ctx poll n :
  (live_polls ctx poll n < n)%nat ->
  Done ctx (poll + live_polls ctx poll n) = true.
Proof.
  revert poll. induction n as [|n IH]; intros poll; simpl; [lia|].
  destruct (Done ctx poll) eqn:Hd; intros Hlt.
  - now rewrite Nat.add_0_r.
  - replace (poll + S (live_polls ctx (S poll) n))%nat
      with (S poll + live_polls ctx (S poll) n)%nat by lia.
    apply IH. lia.
Qed.

Lemma runTraceroute_from_calls poll targets ctx :
  fst (runTraceroute_from Trace Save poll targets ctx)
  = Jobs.runTraceroute_from poll targets ctx
  /\ traced (snd (runTraceroute_from Trace Save poll targets ctx))
     = take (live_polls ctx poll (length targets)) targets
  /\ saved (snd (runTraceroute_from Trace Save poll targets ctx))
     = traces_from Trace poll
         (take (live_polls ctx poll (length targets)) targets)
  /\ fst (runTraceroute_from Trace Save poll targets ctx)
     = if (live_polls ctx poll (length targets) <? length targets)%nat
       then Some (Err ctx) else None.
Proof.
  revert poll. induction targets as [|target rest IH]; intros poll.
  - repeat split; reflexivity.
  - cbn [runTraceroute_from Jobs.runTraceroute_from length live_polls].
    destruct (Done ctx poll) eqn:Hd.
    + repeat split; reflexivity.
    + destruct (IH (S poll)) as (Hres & Htr & Hsv & Hnone).
      cbn [take traces_from].
      change (S ?a <? S ?b)%nat with (a <? b)%nat.
      destruct (Trace poll target) as [result [e|]] eqn:Ht;
        destruct (runTraceroute_from Trace Save (S poll) rest ctx)
          as [res calls] eqn:Hrun; simpl in Hres, Htr, Hsv, Hnone.
      * repeat split; simpl; congruence.
      * destruct (Save poll result); repeat split; simpl; congruence.
Qed.

(** X5.  [runTraceroute] traces the targets in the order of the
    configuration, one after the other, up to the first one before which
    it finds the context done, and no further; it saves the result of
    every trace that succeeds, and of no other.  What it returns does not
    depend on the traces or on the saves: nil when every target has been
    reached, and the error of the context otherwise. *)
Theorem runTraceroute_calls targets ctx :
  let k := live_polls ctx 0 (length targets) in
  let run := runTraceroute Trace Save targets ctx in
  fst run = Jobs.runTraceroute targets ctx
  /\ (k <= length targets)%nat
  /\ (forall j, (j < k)%nat -> Done ctx j = false)
  /\ traced (snd run) = take k targets
  /\ saved (snd run) = traces_from Trace 0 (take k targets)
  /\ (k = length targets -> fst run = None)
  /\ ((k < length targets)%nat ->
      Done ctx k = true /\ fst run = Some (Err ctx)).
Proof.
  intros k run. subst k run. unfold runTraceroute.
  destruct (runTraceroute_from_calls 0 targets ctx)
    as (Hres & Htr & Hsv & Hnone).
  split; [exact Hres|]. split; [apply live_polls_le|].
  split; [intros j Hj; apply (live_polls_live ctx 0 _ j Hj)|].
  split; [exact Htr|]. split; [exact Hsv|]. split.
  - intros Heq. rewrite Hnone, Heq, Nat.ltb_irrefl. reflexivity.
  - intros Hlt. split.
    + apply (live_polls_done ctx 0 (length targets) Hlt).
    + rewrite Hnone. now rewrite (proj2 (Nat.ltb_lt _ _) Hlt).
Qed.

End TracerouteRun.

Section PortScanRun.

Import Runs.

Variable GetAliveHosts : list StoredHost * option error.
Variable ScanHost : nat -> string -> list PortScan.ScanPort * option error.
Variable SavePort : Z -> PortScan.ScanPort -> option error.

Lemma saved_ports_save id ports calls :
  saved_ports (save_ports SavePort id ports ++ calls)
  = map (fun port => (id, port)) ports ++ saved_ports calls.
Proof.
  induction ports as [|port ports IH]; [reflexivity|].
  cbn [save_ports map app]. fold (save_ports SavePort id ports).
  destruct (SavePort id port); simpl; f_equal; exact IH.
Qed.

Lemma scanned_save id ports calls :
  scanned (save_ports SavePort id ports ++ calls) = scanned calls.
Proof.
  induction ports as [|port ports IH]; [reflexivity|].
  cbn [save_ports map app]. fold (save_ports SavePort id ports).
  destruct (SavePort id port); simpl; exact IH.
Qed.

Lemma scan_hosts_calls poll hosts ctx total :
  let run := scan_hosts ScanHost SavePort poll hosts ctx total in
  let k := live_polls ctx poll (length hosts) in
  scanned (snd (fst run)) = map sh_IP (take k hosts)
  /\ saved_ports (snd (fst run)) = found_from ScanHost poll (take k hosts)
  /\ fst (fst run)
     = if (k <? length hosts)%nat then Some (Err ctx) else None.
Proof.
  revert poll total. induction hosts as [|host rest IH]; intros poll total.
  - repeat split; reflexivity.
  - cbn [scan_hosts length live_polls].
    destruct (Done ctx poll) eqn:Hd.
    + repeat split; reflexivity.
    + cbn [take found_from map].
      change (S ?a <? S ?b)%nat with (a <? b)%nat.
      destruct (ScanHost poll (sh_IP host)) as [ports [e|]] eqn:Hs.
      * destruct (IH (S poll) total) as (Hsc & Hsv & Hres).
        destruct (scan_hosts ScanHost SavePort (S poll) rest ctx total)
          as [[res calls] tot]. simpl in *.
        repeat split; congruence.
      * destruct (IH (S poll)
                    (int_wrap (total + Z.of_nat (length ports))))
          as (Hsc & Hsv & Hres).
        destruct (scan_hosts ScanHost SavePort (S poll) rest ctx
                    (int_wrap (total + Z.of_nat (length ports))))
          as [[res calls] tot]. simpl in Hsc, Hsv, Hres.
        cbn [fst snd]. split; [|split].
        -- change (scanned (CallScanHost ?ip :: ?l))
             with (ip :: scanned l).
           rewrite scanned_save. now f_equal.
        -- change (saved_ports (CallScanHost ?ip :: ?l))
             with (saved_ports l).
           rewrite saved_ports_save. now f_equal.
        -- exact Hres.
Qed.

Lemma found_from_elem poll hosts id port :
  (id, port) ∈ found_from ScanHost poll hosts ->
  exists j host,
    hosts !! j = Some host /\ id = sh_ID host
    /\ port ∈ fst (ScanHost (poll + j) (sh_IP host))
    /\ snd (ScanHost (poll + j) (sh_IP host)) = None.
Proof.
  revert poll. induction hosts as [|host rest IH]; intros poll; simpl.
  - intros H. inversion H.
  - destruct (ScanHost poll (sh_IP host)) as [ports [e|]] eqn:Hs.
    + intros H. destruct (IH _ H) as (j & h & Hj & Hid & Hp & Hn).
      exists (S j), h. replace (poll + S j)%nat with (S poll + j)%nat by lia.
      auto.
    + intros H. apply elem_of_app in H as [H|H].
      * apply list_elem_of_fmap in H as (p & [= -> ->] & Hp).
        exists 0%nat, host. rewrite Nat.add_0_r, Hs. auto.
      * destruct (IH _ H) as (j & h & Hj & Hid & Hp & Hn).
        exists (S j), h.
        replace (poll + S j)%nat with (S poll + j)%nat by lia. auto.
Qed.

(** X6.  [runPortScan] returns the error of the storage, and scans
    nothing, when the alive hosts cannot be read, and returns nil when
    there is none.  Otherwise it scans the hosts in the order the storage
    gave them, up to the first one before which it finds the context
    done, and saves every port found on a scanned host with the key of
    that host, and nothing else; a save that fails changes nothing.  It
    returns nil when every host has been reached and the error of the
    context otherwise. *)
Theorem runPortScan_calls ctx :
  let run := runPortScan GetAliveHosts ScanHost SavePort ctx in
  let hosts := fst GetAliveHosts in
  let k := live_polls ctx 0 (length hosts) in
  (forall err, snd GetAliveHosts = Some err -> run = (Some err, []))
  /\ (snd GetAliveHosts = None ->
      scanned (snd run) = map sh_IP (take k hosts)
      /\ saved_ports (snd run) = found_from ScanHost 0 (take k hosts)
      /\ (forall id port,
            (id, port) ∈ saved_ports (snd run) ->
            exists j host,
              (j < k)%nat /\ hosts !! j = Some host /\ id = sh_ID host
              /\ port ∈ fst (ScanHost j (sh_IP host)))
      /\ (k = length hosts -> fst run = None)
      /\ ((k < length hosts)%nat -> fst run = Some (Err ctx))).
Proof.
  intros run hosts k. subst run hosts k. unfold runPortScan.
  destruct GetAliveHosts as [hosts [e|]]; cbn [fst snd].
  - split; [intros err [= ->]; reflexivity | discriminate].
  - split; [discriminate|]. intros _.
    assert (Hgen :
      let run := scan_hosts ScanHost SavePort 0 hosts ctx 0 in
      match hosts with
      | [] => (None, [])
      | _ :: _ => let '(res, calls, _) := run in (res, calls)
      end = fst run).
    { cbv zeta. destruct hosts as [|h hs]; [reflexivity|].
      now destruct (scan_hosts ScanHost SavePort 0 (h :: hs) ctx 0)
        as [[? ?] ?]. }
    cbv zeta in Hgen. rewrite Hgen. clear Hgen.
    destruct (scan_hosts_calls 0 hosts ctx 0) as (Hsc & Hsv & Hres).
    split; [exact Hsc|]. split; [exact Hsv|]. split; [|split].
    + intros id port Hin. rewrite Hsv in Hin.
      apply found_from_elem in Hin as (j & host & Hj & Hid & Hp & _).
      apply lookup_take_Some in Hj as [Hj Hlt].
      exists j, host. auto.
    + intros Heq. rewrite Hres, Heq, Nat.ltb_irrefl. reflexivity.
    + intros Hlt. rewrite Hres.
      now rewrite (proj2 (Nat.ltb_lt _ _) Hlt).
Qed.

End PortScanRun.

(** ** The public address: ties, return and validity *)

Section ConsensusOrder.

Import IP.

Lemma occurrences_two ip other ips :
  other <> ip ->
  occurrences other ips + occurrences ip ips <= Z.of_nat (length ips).
Proof.
  intros Hne. unfold occurrences.
  induction ips as [|x ips IH]; [simpl; lia|].
  rewrite !filter_cons. cbn [length].
  destruct (decide (x = other)), (decide (x = ip)); cbn [length];
    try congruence; lia.
Qed.

Lemma fold_pick_keep order acc :
  (forall e, e ∈ order -> snd e <= snd acc) ->
  fold_left pick order acc = acc.
Proof.
  revert acc. induction order as [|e order IH]; intros acc Hle;
    [reflexivity|].
  simpl. assert (Hpick : pick acc e = acc).
  { unfold pick. specialize (Hle e ltac:(left)).
    destruct (Z.ltb_spec (snd acc) (snd e)); [lia | reflexivity]. }
  rewrite Hpick. apply IH. intros e' He'. apply Hle. now right.
Qed.

(** X9.  Among the collected addresses, one that is given more often
    than every other is what [consensus] returns, whatever the order in
    which Go ranges over the map of counts; so is an address given by
    more than half of the providers that answered. *)
Theorem consensus_majority ips order ip :
  Z.of_nat (length ips) <= max_int ->
  range_order (tally ips) order ->
  ((forall other, other <> ip ->
                  occurrences other ips < occurrences ip ips) ->
   consensus_in order = ip)
  /\ (Z.of_nat (length ips) < 2 * occurrences ip ips ->
      consensus_in order = ip).
Proof.
  intros Hlen Hord.
  assert (Huniq : (forall other, other <> ip ->
                     occurrences other ips < occurrences ip ips) ->
                  consensus_in order = ip).
  { intros Hmax.
    assert (Hother : String "x" ip <> ip).
    { intros H. apply (f_equal String.length) in H. simpl in H. lia. }
    pose proof (Hmax _ Hother) as Hpos.
    pose proof (occurrences_bounds (String "x" ip) ips) as Hb.
    assert (Hne : ips <> []).
    { intros ->. unfold occurrences in Hpos. simpl in Hpos. lia. }
    destruct (consensus_in_greatest ips order Hne Hlen Hord) as [_ Hgreat].
    destruct (decide (consensus_in order = ip)) as [|Hdiff]; [assumption|].
    specialize (Hmax _ Hdiff). specialize (Hgreat ip). lia. }
  split; [exact Huniq|].
  intros Hhalf. apply Huniq. intros other Hne.
  pose proof (occurrences_two ip other ips Hne). lia.
Qed.

Lemma consensus_majority_witness :
  consensus_in (map_to_list (tally [Samples.answer_a; Samples.answer_b;
                                    Samples.answer_a]))
  = Samples.answer_a.
Proof.
  apply (consensus_majority
           [Samples.answer_a; Samples.answer_b; Samples.answer_a]
           _ Samples.answer_a).
  - unfold max_int. simpl. lia.
  - unfold range_order. reflexivity.
  - vm_compute. reflexivity.
Defined.

(** X10.  When several collected addresses share the highest count, the
    order in which Go ranges over the map decides: each of them is what
    [consensus] returns under some order. *)
Theorem consensus_tie ips ip :
  Z.of_nat (length ips) <= max_int ->
  ip ∈ ips ->
  (forall other, occurrences other ips <= occurrences ip ips) ->
  exists order,
    range_order (tally ips) order /\ consensus_in order = ip.
Proof.
  intros Hlen Hin Hmax.
  apply occurrences_pos in Hin.
  assert (Hip : tally ips !! ip = Some (occurrences ip ips)).
  { rewrite tally_lookup by assumption. now rewrite decide_True. }
  exists ((ip, occurrences ip ips)
            :: map_to_list (delete ip (tally ips))).
  split.
  - unfold range_order. now apply map_to_list_delete.
  - unfold consensus_in. simpl.
    assert (Hfirst : pick (EmptyString, 0) (ip, occurrences ip ips)
                     = (ip, occurrences ip ips)).
    { unfold pick. simpl. now rewrite (proj2 (Z.ltb_lt _ _) Hin). }
    rewrite Hfirst, fold_pick_keep; [reflexivity|].
    intros [ip' c'] He. apply elem_of_map_to_list in He.
    apply lookup_delete_Some in He as [_ He].
    rewrite tally_lookup in He by assumption.
    destruct (decide (0 < occurrences ip' ips)); [|discriminate].
    injection He as <-. simpl. apply Hmax.
Qed.

Lemma consensus_tie_witness :
  exists order1 order2,
    range_order (tally [Samples.answer_a; Samples.answer_b]) order1
    /\ range_order (tally [Samples.answer_a; Samples.answer_b]) order2
    /\ consensus_in order1 = Samples.answer_a
    /\ consensus_in order2 = Samples.answer_b.
Proof.
  assert (Hocc : forall ip other,
            ip ∈ [Samples.answer_a; Samples.answer_b] ->
            occurrences other [Samples.answer_a; Samples.answer_b]
            <= occurrences ip [Samples.answer_a; Samples.answer_b]).
  { intros ip other Hip. unfold occurrences.
    rewrite !filter_cons, !filter_nil.
    apply elem_of_cons in Hip as [->|Hip];
      [|apply elem_of_cons in Hip as [->|Hip]; [|inversion Hip]];
      repeat case_decide; simpl; try lia; try congruence;
      subst; discriminate. }
  destruct (consensus_tie [Samples.answer_a; Samples.answer_b]
              Samples.answer_a) as (o1 & Ho1 & Hc1).
  - unfold max_int. simpl. lia.
  - left.
  - intros other. apply Hocc. left.
  - destruct (consensus_tie [Samples.answer_a; Samples.answer_b]
                Samples.answer_b) as (o2 & Ho2 & Hc2).
    + unfold max_int. simpl. lia.
    + right. left.
    + intros other. apply Hocc. right. left.
    + exists o1, o2. auto.
Defined.

End ConsensusOrder.

Section Returns.

Import IP.

Lemma collect_cancelled ctx pick_order n : forall evs ips errs,
  cancelled n evs = true ->
  collect n evs ctx pick_order ips errs
  = Some (EmptyString, Some (Err ctx)).
Proof.
  induction n as [|n IH]; intros evs ips errs Hcan.
  - destruct evs; discriminate.
  - destruct evs as [|ev evs]; [discriminate|].
    destruct ev; simpl in *; auto.
Qed.

(** X11.  [GetPublicIP] returns exactly when a [select] of the
    collection finds the context done or every one of its
    [len(providers)] iterations has received something; until then it
    waits, whether or not the timeout has fired.  With no provider it
    fails at once.  It never returns an address together with an
    error. *)
Theorem GetPublicIP_returns n evs ctx pick_order :
  (is_Some (GetPublicIP n evs ctx pick_order)
   <-> cancelled n evs = true \/ (n <= length evs)%nat)
  /\ (cancelled n evs = true ->
      GetPublicIP n evs ctx pick_order
      = Some (EmptyString, Some (Err ctx)))
  /\ (forall ip err,
        GetPublicIP n evs ctx pick_order = Some (ip, err) ->
        err <> None -> ip = EmptyString)
  /\ GetPublicIP 0 evs ctx pick_order
     = Some (EmptyString, Some (Failure "no IP providers responded")).
Proof.
  unfold GetPublicIP. split; [|split; [|split]].
  - split.
    + intros Hsome.
      destruct (cancelled n evs) eqn:Hcan; [now left|]. right.
      destruct (le_lt_dec n (length evs)) as [|Hlt]; [assumption|].
      rewrite (collect_blocks ctx pick_order n evs [] [] Hlt Hcan) in Hsome.
      now destruct Hsome.
    + intros [Hcan|Hlen].
      * rewrite collect_cancelled by assumption. eauto.
      * now apply collect_returns.
  - apply collect_cancelled.
  - intros ip err Hc Herr.
    destruct (cancelled n evs) eqn:Hcan.
    + rewrite collect_cancelled in Hc by assumption. congruence.
    + apply collect_result in Hc as [[Hcan' _]|[_ [errs' Hd]]];
        [congruence|].
      simpl in Hd.
      assert (Hnil : collected n evs = []).
      { apply (decide_ip_error pick_order _ errs'). now rewrite <- Hd. }
      rewrite Hnil in Hd. simpl in Hd. destruct errs'; congruence.
  - reflexivity.
Qed.

End Returns.

Section Validity.

Import IP Fetch.

Lemma substring_fits (s : string) : forall m n,
  (0 < n)%nat ->
  String.length (String.substring m n s) = n ->
  (m + n <= String.length s)%nat.
Proof.
  induction s as [|x s IH]; intros m n Hn Hlen.
  - destruct m, n; simpl in Hlen; lia.
  - destruct m as [|m]; simpl in *.
    + destruct n as [|n]; [lia|]. simpl in Hlen.
      destruct n as [|n]; [lia|].
      specialize (IH 0%nat (S n) ltac:(lia) ltac:(lia)). lia.
    + specialize (IH m n Hn Hlen). lia.
Qed.

Lemma Contains_spec s sub :
  Contains s sub = true <-> exists pre post, s = pre +:+ sub +:+ post.
Proof.
  unfold Contains. split.
  - destruct (index 0 sub s) as [m|] eqn:Hi; [|discriminate]. intros _.
    apply index_correct1 in Hi.
    destruct (String.length sub) as [|k] eqn:Hk.
    + destruct sub; [|discriminate]. exists EmptyString, s. reflexivity.
    + assert (Hfit : (m + S k <= String.length s)%nat).
      { apply substring_fits; [lia|]. now rewrite Hi. }
      exists (String.substring 0 m s),
        (String.substring (m + S k) (String.length s - (m + S k)) s).
      pose proof (substring_split s m (S k) Hfit) as H.
      rewrite Hi in H. exact H.
  - intros (pre & post & ->).
    destruct (index 0 sub (pre +:+ sub +:+ post)) eqn:Hi; [reflexivity|].
    destruct sub as [|x sub].
    + apply index_correct4 in Hi. lia.
    + exfalso.
      apply (index_correct3 0 (String.length pre) _ _ Hi);
        [discriminate | lia | apply substring_middle].
Qed.

Lemma utoa_length a :
  Net.byte_ok a -> (1 <= String.length (Net.utoa a) <= 3)%nat.
Proof.
  intros [Hlo Hhi]. unfold Net.utoa, Net.digits_of.
  destruct (Z.ltb_spec a 10); [simpl; lia|].
  destruct (Z.ltb_spec (a / 10) 10); [simpl; lia|].
  destruct (Z.ltb_spec (a / 10 / 10) 10); simpl; lia.
Qed.

(** X12.  [isValidIP] accepts a text exactly when it has from 7 to 45
    bytes and a dot or a colon occurs in it.  It accepts every IPv4
    address written as [IP.String] writes it. *)
Theorem isValidIP_accepts String16 :
  (forall ip,
     isValidIP ip = true
     <-> (7 <= String.length ip <= 45)%nat
         /\ ((exists pre post, ip = pre +:+ "." +:+ post)
             \/ (exists pre post, ip = pre +:+ ":" +:+ post)))
  /\ (forall a b c d,
        Net.byte_ok a -> Net.byte_ok b -> Net.byte_ok c -> Net.byte_ok d ->
        isValidIP (Net.IPString String16 [a; b; c; d]) = true).
Proof.
  assert (Hiff : forall ip,
     isValidIP ip = true
     <-> (7 <= String.length ip <= 45)%nat
         /\ ((exists pre post, ip = pre +:+ "." +:+ post)
             \/ (exists pre post, ip = pre +:+ ":" +:+ post))).
  { intros ip. unfold isValidIP. rewrite <- !Contains_spec.
    destruct (Nat.ltb_spec (String.length ip) 7); simpl.
    - split; [discriminate | lia].
    - destruct (Nat.ltb_spec 45 (String.length ip)); simpl.
      + split; [discriminate | lia].
      + rewrite orb_true_iff. split; [intros H'; split; [lia|exact H'] | tauto]. }
  split; [exact Hiff|].
  intros a b c d Ha Hb Hc Hd. apply Hiff.
  change (Net.IPString String16 [a; b; c; d])
    with (Net.utoa a +:+ "." +:+ Net.utoa b +:+ "." +:+ Net.utoa c
            +:+ "." +:+ Net.utoa d).
  pose proof (utoa_length a Ha). pose proof (utoa_length b Hb).
  pose proof (utoa_length c Hc). pose proof (utoa_length d Hd).
  split.
  - rewrite !length_append. simpl. lia.
  - left. eauto.
Qed.

Lemma isValidIP_accepts_witness :
  isValidIP (Net.IPString Samples.no_text [203; 0; 113; 7]) = true.
Proof.
  apply (isValidIP_accepts Samples.no_text); unfold Net.byte_ok; lia.
Defined.

End Validity.

Section ValidAnswers.

Import IP Fetch.

Variable TrimSpace : string -> string.

Lemma collected_received n : forall evs x,
  x ∈ collected n evs -> RecvResult x ∈ evs.
Proof.
  induction n as [|n IH]; intros evs x Hx.
  - destruct evs; inversion Hx.
  - destruct evs as [|[ip|e| |] evs]; simpl in Hx;
      try (inversion Hx; fail);
      try (right; now apply IH).
    apply elem_of_cons in Hx as [->|Hx]; [left | right; now apply IH].
Qed.

Lemma provider_result name resp x :
  provider TrimSpace name resp = RecvResult x ->
  fetchIP TrimSpace resp = (x, None) /\ isValidIP x = true.
Proof.
  unfold provider.
  destruct (fetchIP TrimSpace resp) as [ip [e|]] eqn:Hf; [discriminate|].
  intros [= ->]. split; [reflexivity|].
  unfold fetchIP in Hf. destruct resp as [e|e|status body [e|]];
    try discriminate.
  - destruct (negb (status =? 200)); discriminate.
  - destruct (negb (status =? 200)); [discriminate|].
    destruct (isValidIP (TrimSpace (String.substring 0 64 body))) eqn:Hv;
      simpl in Hf; [|discriminate].
    injection Hf as <-. exact Hv.
Qed.

(** X13.  Every address that a provider's goroutine sends has passed
    [isValidIP]; hence an address that [GetPublicIP] returns without an
    error is one that [fetchIP] returned for a response with status 200,
    and has from 7 to 45 bytes. *)
Theorem GetPublicIP_valid n evs ctx pick_order ip :
  (forall counts, range_order counts (pick_order counts)) ->
  Z.of_nat n <= max_int ->
  (forall x, RecvResult x ∈ evs ->
             exists name resp, provider TrimSpace name resp = RecvResult x) ->
  GetPublicIP n evs ctx pick_order = Some (ip, None) ->
  isValidIP ip = true
  /\ (7 <= String.length ip <= 45)%nat
  /\ exists body,
       fetchIP TrimSpace (Response 200 body None) = (ip, None).
Proof.
  intros Hord Hn Hprov Hget. unfold GetPublicIP in Hget.
  pose proof (collected_length n evs) as Hcl.
  apply collect_result in Hget as [[_ [=]]|[_ [errs' Hd]]].
  simpl in Hd.
  assert (Hne : collected n evs <> []).
  { intros Hnil. apply (decide_ip_error pick_order _ errs') in Hnil.
    apply Hnil. now rewrite <- Hd. }
  assert (Hip : ip = consensus_in (pick_order (tally (collected n evs)))).
  { rewrite <- (decide_ip_address pick_order _ errs') by assumption.
    now rewrite <- Hd. }
  destruct (consensus_in_greatest (collected n evs)
              (pick_order (tally (collected n evs))) Hne ltac:(lia)
              (Hord _)) as [Hin _].
  rewrite <- Hip in Hin. apply collected_received in Hin.
  destruct (Hprov _ Hin) as (name & resp & Hp).
  apply provider_result in Hp as [Hf Hv].
  split; [exact Hv|]. split.
  - unfold isValidIP in Hv.
    destruct (Nat.ltb_spec (String.length ip) 7); [discriminate|].
    destruct (Nat.ltb_spec 45 (String.length ip)); [discriminate|]. lia.
  - unfold fetchIP in Hf. destruct resp as [e|e|status body [e|]];
      try discriminate.
    + destruct (negb (status =? 200)); discriminate.
    + destruct (Z.eqb_spec status 200) as [->|]; [|discriminate].
      exists body. exact Hf.
Qed.

End ValidAnswers.

Lemma GetPublicIP_valid_witness :
  Fetch.isValidIP Samples.answer_a = true.
Proof.
  apply (GetPublicIP_valid (fun s => s) 1
           [IP.RecvResult Samples.answer_a] Samples.live map_to_list
           Samples.answer_a).
  - intros counts. unfold IP.range_order. reflexivity.
  - unfold max_int. lia.
  - intros x Hx. apply list_elem_of_singleton in Hx. injection Hx as ->.
    exists "ipify", (Fetch.Response 200 "203.0.113.7" None). reflexivity.
  - reflexivity.
Defined.

(** ** The fields of a parsed hop *)

Section HopFields.

Import Traceroute Captures.

Lemma star_k_sound {A : Type} p (k : string -> option A) s m :
  star_k p k s = Some m ->
  exists s1 s2, s = s1 +:+ s2 /\ all_chars p s1 /\ k s2 = Some m.
Proof.
  induction s as [|c s IH]; simpl.
  - intros Hk. exists EmptyString, EmptyString.
    repeat split; [constructor | exact Hk].
  - destruct (p c) eqn:Hp.
    + destruct (star_k p k s) as [r|] eqn:Hs.
      * intros [= ->]. destruct (IH eq_refl) as (s1 & s2 & -> & Hall & Hk).
        exists (String c s1), s2.
        repeat split; [now constructor | exact Hk].
      * intros Hk. exists EmptyString, (String c s).
        repeat split; [constructor | exact Hk].
    + intros Hk. exists EmptyString, (String c s).
      repeat split; [constructor | exact Hk].
Qed.

Lemma consumed_append (s1 s2 : string) : consumed (s1 +:+ s2) s2 = s1.
Proof.
  unfold consumed. rewrite length_append.
  replace (String.length s1 + String.length s2 - String.length s2)%nat
    with (String.length s1) by lia.
  apply substring_0_all.
Qed.

(** What the matcher returns comes from a match of a prefix of the text,
    with the groups that this match sets. *)
Lemma run_sound r : forall s caps k m,
  run r s caps k = Some m ->
  exists s1 s2 caps',
    s = s1 +:+ s2 /\ captures r s1 caps caps' /\ k s2 caps' = Some m.
Proof.
  induction r as [p|p|p|p|r1 IH1 r2 IH2|r1 IH1 r2 IH2|i r IH];
    intros s caps k m; simpl.
  - destruct s as [|c s]; [discriminate|].
    destruct (p c) eqn:Hp; [|discriminate].
    intros Hk. exists (String c EmptyString), s, caps.
    repeat split; [now constructor | exact Hk].
  - intros Hs. apply star_k_sound in Hs as (s1 & s2 & -> & Hall & Hk).
    exists s1, s2, caps. repeat split; [now constructor | exact Hk].
  - destruct s as [|c s]; [discriminate|].
    destruct (p c) eqn:Hp; [|discriminate].
    intros Hs. apply star_k_sound in Hs as (s1 & s2 & -> & Hall & Hk).
    exists (String c s1), s2, caps.
    repeat split; [now constructor | exact Hk].
  - destruct s as [|c s].
    + intros Hk. exists EmptyString, EmptyString, caps.
      repeat split; [constructor | exact Hk].
    + destruct (p c) eqn:Hp.
      * destruct (k s caps) as [m'|] eqn:Hks.
        -- intros [= ->]. exists (String c EmptyString), s, caps.
           repeat split; [now constructor | exact Hks].
        -- intros Hk. exists EmptyString, (String c s), caps.
           repeat split; [constructor | exact Hk].
      * intros Hk. exists EmptyString, (String c s), caps.
        repeat split; [constructor | exact Hk].
  - intros H1. apply IH1 in H1 as (s1 & s2 & caps1 & -> & Hc1 & H2).
    apply IH2 in H2 as (s3 & s4 & caps2 & -> & Hc2 & Hk).
    exists (s1 +:+ s3), s4, caps2. rewrite append_assoc.
    repeat split; [econstructor; eauto | exact Hk].
  - destruct (run r1 s caps k) as [m'|] eqn:H1.
    + intros [= ->]. apply IH1 in H1 as (s1 & s2 & caps' & -> & Hc & Hk).
      exists s1, s2, caps'. repeat split; [now apply captures_alt_l | exact Hk].
    + intros H2. apply IH2 in H2 as (s1 & s2 & caps' & -> & Hc & Hk).
      exists s1, s2, caps'. repeat split; [now apply captures_alt_r | exact Hk].
  - intros H. apply IH in H as (s1 & s2 & caps' & -> & Hc & Hk).
    rewrite consumed_append in Hk.
    exists s1, s2, (<[i := s1]> caps').
    repeat split; [now constructor | exact Hk].
Qed.

Lemma captures_matches r s caps caps' :
  captures r s caps caps' -> matches r s.
Proof.
  induction 1;
    [apply matches_chr | apply matches_star | apply matches_plus
     | apply matches_quest_none | apply matches_quest_some
     | apply matches_cat | apply matches_alt_l | apply matches_alt_r
     | apply matches_group]; assumption.
Qed.

Lemma captures_groupless r s caps caps' :
  groupless r = true -> captures r s caps caps' -> caps' = caps.
Proof.
  intros Hg Hc. induction Hc; simpl in Hg; try reflexivity;
    try discriminate;
    try (apply andb_prop in Hg as [Hg1 Hg2]); auto.
  rewrite IHHc2, IHHc1; auto.
Qed.

Ltac split_captures :=
  repeat match goal with
  | H : captures (Group _ _) _ _ _ |- _ => inversion H; subst; clear H
  | H : captures ?r ?s ?c ?c' |- _ =>
      first
        [ assert (groupless r = true) as Hg by reflexivity;
          pose proof (captures_matches _ _ _ _ H);
          apply (captures_groupless _ _ _ _ Hg) in H;
          clear Hg; subst c'
        | inversion H; subst; clear H ]
  end.

(** The groups after a match of the hop pattern. *)
Lemma hop_captures pre caps' :
  captures hopRegex pre [EmptyString; EmptyString; EmptyString; EmptyString]
           caps' ->
  exists ws num rest,
    pre = ws +:+ num +:+ rest
    /\ all_chars is_space ws /\ matches (Plus is_digit) num
    /\ ((exists ip lat,
           matches ip_text ip /\ matches latency_text lat
           /\ caps' = [EmptyString; num; ip; lat])
        \/ caps' = [EmptyString; num; EmptyString; EmptyString]).
Proof.
  intros H. unfold hopRegex, answered, unanswered, cats in H.
  split_captures.
  - match goal with H : matches (Star is_space) _ |- _ => inversion H; subst end.
    do 3 eexists. split; [reflexivity|]. split; [assumption|].
    split; [assumption|]. left. do 2 eexists.
    split; [eassumption|]. split; [eassumption|]. reflexivity.
  - match goal with H : matches (Star is_space) _ |- _ => inversion H; subst end.
    do 3 eexists. split; [reflexivity|]. split; [assumption|].
    split; [assumption|]. right. reflexivity.
Qed.

Lemma all_chars_digits s : all_chars is_digit s <-> all_digits s = true.
Proof.
  induction s as [|c s IH]; simpl.
  - split; [reflexivity | constructor].
  - rewrite andb_true_iff, <- IH. split.
    + intros H. inversion H; subst. auto.
    + intros [Hc Hs]. now constructor.
Qed.

Lemma all_chars_app p s1 s2 :
  all_chars p s1 -> all_chars p s2 -> all_chars p (s1 +:+ s2).
Proof.
  induction 1 as [|c s Hc Hs IH]; intros H2;
    rewrite ?append_nil_l, ?append_cons; [assumption|].
  constructor; auto.
Qed.

Lemma decimal_value_nonneg s : forall acc,
  all_digits s = true -> 0 <= acc -> 0 <= decimal_value acc s.
Proof.
  induction s as [|c s IH]; intros acc Hd Hacc; simpl in *; [assumption|].
  apply andb_prop in Hd as [Hc Hs]. apply IH; [assumption|].
  unfold is_digit in Hc. apply andb_prop in Hc as [H1 H2].
  apply N.leb_le in H1. unfold digit_value. lia.
Qed.

Lemma digit_not_sign c : is_digit c = true -> c <> "-"%char /\ c <> "+"%char.
Proof. intros H. split; intros ->; discriminate. Qed.

Lemma Atoi_digits num :
  matches (Plus is_digit) num ->
  Atoi num = Z.min (decimal_value 0 num) max_int
  /\ 0 <= decimal_value 0 num.
Proof.
  intros H. inversion H as [| |p c s Hc Hs| | | | | |]; subst.
  assert (Hall : all_digits (String c s) = true).
  { apply all_chars_digits. now constructor. }
  split; [|now apply decimal_value_nonneg].
  destruct (digit_not_sign c Hc) as [Hm Hp].
  assert (Hat : Atoi (String c s) = Atoi_unsigned false (String c s)).
  { unfold Atoi.
    destruct c as [[] [] [] [] [] [] [] []]; try reflexivity; congruence. }
  rewrite Hat. unfold Atoi_unsigned. now rewrite Hall.
Qed.

Lemma split_point_digits s :
  all_digits s = true -> split_point s = (s, None).
Proof.
  induction s as [|c s IH]; [reflexivity|].
  cbn [all_digits split_point]. intros H.
  apply andb_prop in H as [Hc Hs].
  destruct (is_char "." c) eqn:Hp.
  - apply Ascii.eqb_eq in Hp. subst c. discriminate.
  - now rewrite (IH Hs).
Qed.

Lemma split_point_at s frac :
  all_digits s = true ->
  split_point (s +:+ String "." frac) = (s, Some frac).
Proof.
  induction s as [|c s IH]; intros H.
  - reflexivity.
  - cbn [all_digits] in H. apply andb_prop in H as [Hc Hs].
    rewrite append_cons. cbn [split_point].
    destruct (is_char "." c) eqn:Hp.
    + apply Ascii.eqb_eq in Hp. subst c. discriminate.
    + now rewrite (IH Hs).
Qed.

Lemma latency_shape lat :
  matches latency_text lat ->
  exists c s q f,
    lat = String c s +:+ q +:+ f
    /\ is_digit c = true /\ all_chars is_digit s /\ all_chars is_digit f
    /\ (q = EmptyString \/ q = ".").
Proof.
  intros H. unfold latency_text, cats in H.
  repeat match goal with
         | H : matches (Cat _ _) _ |- _ => inversion H; subst; clear H
         end.
  match goal with
  | H : matches (Plus _) _ |- _ => inversion H; subst; clear H
  end.
  match goal with
  | H : matches (Star _) _ |- _ => inversion H; subst; clear H
  end.
  match goal with
  | H : matches (Quest _) _ |- _ => inversion H; subst; clear H
  end.
  - do 4 eexists. split; [reflexivity|]. auto.
  - match goal with
    | H : is_char "." _ = true |- _ => apply Ascii.eqb_eq in H; subst
    end.
    do 4 eexists. split; [reflexivity|]. auto.
Qed.

(** The value read from a text of the third group. *)
Lemma ParseFloat_latency lat :
  matches latency_text lat ->
  exists whole frac,
    all_chars is_digit whole /\ whole <> EmptyString
    /\ all_chars is_digit frac
    /\ (lat = whole +:+ "." +:+ frac \/ (lat = whole /\ frac = EmptyString))
    /\ ParseFloat lat
       = Float64.nearest (decimal_value 0 (whole +:+ frac))
                         (pow10 (String.length frac)).
Proof.
  intros H.
  apply latency_shape in H as (c & s & q & f & -> & Hc & Hs & Hf & [->| ->]).
  - rewrite append_nil_l.
    assert (Hw : all_chars is_digit (String c s)) by now constructor.
    exists (String c s +:+ f), EmptyString.
    assert (Hall : all_chars is_digit (String c s +:+ f))
      by now apply all_chars_app.
    split; [exact Hall|]. split; [rewrite append_cons; discriminate|].
    split; [constructor|]. split; [now right|].
    unfold ParseFloat.
    rewrite split_point_digits by now apply all_chars_digits.
    rewrite (proj1 (all_chars_digits _) Hall).
    now rewrite append_nil_r.
  - assert (Hw : all_chars is_digit (String c s)) by now constructor.
    exists (String c s), f.
    split; [exact Hw|]. split; [discriminate|]. split; [exact Hf|].
    split; [now left|].
    unfold ParseFloat.
    change ("." +:+ f) with (String "." f).
    rewrite split_point_at by now apply all_chars_digits.
    rewrite (proj1 (all_chars_digits _) Hw),
      (proj1 (all_chars_digits _) Hf).
    reflexivity.
Qed.

Lemma ip_text_nonempty ip : matches ip_text ip -> ip <> EmptyString.
Proof.
  intros H. unfold ip_text, cats in H.
  inversion H as [| | | | |r1 r2 s1 s2 H1 H2| | |]; subst.
  inversion H1; subst. rewrite append_cons. discriminate.
Qed.

(** The number of a hop, and when it is lost. *)
Lemma parse_line_bounds line hop :
  parse_line line = Some hop ->
  0 <= HopNum hop <= max_int
  /\ (Lost hop = true <-> IP hop = EmptyString).
Proof.
  unfold parse_line, FindStringSubmatch.
  destruct (run hopRegex line _ _) as [m|] eqn:Hrun; [|discriminate].
  apply run_sound in Hrun as (pre & post & caps' & -> & Hcap & Hm).
  injection Hm as <-.
  apply hop_captures in Hcap
    as (ws & num & rest & -> & _ & Hnum & [(ip & lat & Hip & _ & ->)| ->]);
    destruct (Atoi_digits num Hnum) as [Hat Hpos];
    cbn [length Nat.leb lookup_total list_lookup_total insert list_insert
         andb String.eqb negb].
  - rewrite (proj2 (String.eqb_neq ip EmptyString)
               (ip_text_nonempty ip Hip)).
    cbn [negb]. intros [= <-]. cbn [HopNum IP Lost]. rewrite Hat.
    split; [unfold max_int in *; lia|].
    pose proof (ip_text_nonempty ip Hip). split; [discriminate | congruence].
  - intros [= <-]. cbn [HopNum IP Lost]. rewrite Hat.
    split; [unfold max_int in *; lia | split; reflexivity].
Qed.

(** The parts of a text of the hop pattern, with the groups that the
    match sets. *)
Lemma hop_shape pre caps' :
  captures hopRegex pre [EmptyString; EmptyString; EmptyString; EmptyString]
           caps' ->
  exists ws num sp,
    all_chars is_space ws /\ matches (Plus is_digit) num
    /\ matches (Plus is_space) sp
    /\ ((exists ip sp2 lat sp3,
           pre = ws +:+ num +:+ sp +:+ ip +:+ sp2 +:+ lat +:+ sp3 +:+ "ms"
           /\ matches ip_text ip /\ matches (Plus is_space) sp2
           /\ matches latency_text lat /\ all_chars is_space sp3
           /\ caps' = [EmptyString; num; ip; lat])
        \/ (exists sp2 sp3,
              pre = ws +:+ num +:+ sp +:+ "*" +:+ sp2 +:+ "*" +:+ sp3 +:+ "*"
              /\ matches (Plus is_space) sp2 /\ matches (Plus is_space) sp3
              /\ caps' = [EmptyString; num; EmptyString; EmptyString])).
Proof.
  intros H. unfold hopRegex, answered, unanswered, cats in H.
  split_captures.
  - match goal with H : matches (Star is_space) _ |- _ => inversion H; subst end.
    repeat match goal with
           | H : matches (Cat (Star _) _) _ |- _ => inversion H; subst; clear H
           | H : matches (Cat (Chr _) _) _ |- _ => inversion H; subst; clear H
           end.
    repeat match goal with
           | H : matches (Chr _) _ |- _ => inversion H; subst; clear H
           | H : matches (Star _) _ |- _ => inversion H; subst; clear H
           | H : is_char _ _ = true |- _ => apply Ascii.eqb_eq in H; subst
           end.
    do 3 eexists. split; [|split; [|split]];
      [| | |left; do 4 eexists; split; [reflexivity|];
            split; [eassumption|]; split; [eassumption|];
            split; [eassumption|]; split; [eassumption|]; reflexivity];
      eassumption.
  - match goal with H : matches (Star is_space) _ |- _ => inversion H; subst end.
    unfold star_sign in *.
    repeat match goal with
           | H : matches (Cat _ _) _ |- _ => inversion H; subst; clear H
           end.
    repeat match goal with
           | H : matches (Chr _) _ |- _ => inversion H; subst; clear H
           | H : is_char _ _ = true |- _ => apply Ascii.eqb_eq in H; subst
           end.
    do 3 eexists. split; [|split; [|split]];
      [| | |right; do 2 eexists; split; [reflexivity|];
            split; [eassumption|]; split; [eassumption|]; reflexivity];
      eassumption.
Qed.

(** X14.  A line gives a hop only when it is made of white space, if
    any, a run of digits, white space, and then either an address, white
    space, a numeral, white space if any and the letters ms, or three
    asterisks separated by white space; what follows is ignored.  The hop
    number is the value of the run of digits, or the largest [int] when
    the value does not fit, and so is never negative; the host name is
    always empty.  In the first case the hop is not lost, its address is
    that of the line, four runs of digits joined by points, and its
    latency is the [float64] nearest to the numeral, digits with at most
    one point, so it is not always the value of the numeral:
    0.1234567890123456789 is stored as 8895999183877727 / 2 ^ 56, and a
    numeral of 400 digits as the infinity.  In the second case the hop
    is lost, with no address and latency 0. *)
Theorem parse_line_fields :
  (forall line hop,
     parse_line line = Some hop ->
     exists ws num sp rest,
       line = ws +:+ num +:+ sp +:+ rest
       /\ all_chars is_space ws /\ matches (Plus is_digit) num
       /\ matches (Plus is_space) sp
       /\ HopNum hop = Z.min (decimal_value 0 num) max_int
       /\ 0 <= HopNum hop <= max_int
       /\ Hostname hop = EmptyString
       /\ ((exists ip sp2 whole point frac sp3 tail,
              rest = ip +:+ sp2 +:+ whole +:+ point +:+ frac +:+ sp3
                     +:+ "ms" +:+ tail
              /\ matches ip_text ip /\ matches (Plus is_space) sp2
              /\ matches (Plus is_digit) whole
              /\ (point = "." \/ (point = EmptyString /\ frac = EmptyString))
              /\ all_chars is_digit frac /\ all_chars is_space sp3
              /\ IP hop = ip /\ Lost hop = false
              /\ LatencyMs hop
                 = Float64.nearest (decimal_value 0 (whole +:+ frac))
                                   (pow10 (String.length frac)))
           \/ (exists sp2 sp3 tail,
                 rest = "*" +:+ sp2 +:+ "*" +:+ sp3 +:+ "*" +:+ tail
                 /\ matches (Plus is_space) sp2
                 /\ matches (Plus is_space) sp3
                 /\ IP hop = EmptyString /\ Lost hop = true
                 /\ LatencyMs hop = SpecFloat.S754_zero false)))
  /\ parse_line " 3  10.0.0.1  0.1234567890123456789 ms"
     = Some (mkHop 3 "10.0.0.1" EmptyString
               (SpecFloat.S754_finite false 8895999183877727 (-56)) false)
  /\ parse_line (" 4  10.0.0.1  " +:+ Samples.nines +:+ " ms")
     = Some (mkHop 4 "10.0.0.1" EmptyString
               (SpecFloat.S754_infinity false) false).
Proof.
  split; [|split; vm_compute; reflexivity].
  intros line hop. unfold parse_line, FindStringSubmatch.
  destruct (run hopRegex line _ _) as [m|] eqn:Hrun; [|discriminate].
  apply run_sound in Hrun as (pre & post & caps' & -> & Hcap & Hm).
  injection Hm as <-. rewrite consumed_append.
  apply hop_shape in Hcap
    as (ws & num & sp & Hws & Hnum & Hsp
        & [(ip & sp2 & lat & sp3 & -> & Hip & Hsp2 & Hlat & Hsp3 & ->)
          |(sp2 & sp3 & -> & Hsp2 & Hsp3 & ->)]).
  - destruct (Atoi_digits num Hnum) as [Hat Hpos].
    pose proof (ip_text_nonempty ip Hip) as Hne.
    destruct (ParseFloat_latency lat Hlat)
      as (whole & frac & Hw & Hwne & Hf & Hshape & Hval).
    assert (Hlne : lat <> EmptyString).
    { destruct Hshape as [->|[-> _]]; [|assumption].
      destruct whole; [congruence|]. rewrite append_cons. discriminate. }
    cbn [length Nat.leb lookup_total list_lookup_total insert list_insert
         andb].
    rewrite (proj2 (String.eqb_neq ip EmptyString) Hne).
    rewrite (proj2 (String.eqb_neq lat EmptyString) Hlne).
    cbn [negb]. intros [= <-]. cbn [HopNum IP Hostname LatencyMs Lost].
    exists ws, num, sp,
      (ip +:+ sp2 +:+ lat +:+ sp3 +:+ "ms" +:+ post).
    split; [now rewrite !append_assoc|].
    split; [exact Hws|]. split; [exact Hnum|]. split; [exact Hsp|].
    split; [exact Hat|].
    split; [rewrite Hat; unfold max_int in *; lia|].
    split; [reflexivity|]. left.
    assert (Hwhole : matches (Plus is_digit) whole).
    { destruct whole as [|c w]; [congruence|].
      inversion Hw; subst. now apply matches_plus. }
    destruct Hshape as [->|[-> ->]].
    + exists ip, sp2, whole, ".", frac, sp3, post.
      split; [now rewrite !append_assoc|].
      split; [exact Hip|]. split; [exact Hsp2|]. split; [exact Hwhole|].
      split; [now left|]. split; [exact Hf|]. split; [exact Hsp3|].
      split; [reflexivity|]. split; [reflexivity|]. exact Hval.
    + exists ip, sp2, whole, EmptyString, EmptyString, sp3, post.
      split; [now rewrite !append_nil_l|].
      split; [exact Hip|]. split; [exact Hsp2|]. split; [exact Hwhole|].
      split; [now right|]. split; [constructor|]. split; [exact Hsp3|].
      split; [reflexivity|]. split; [reflexivity|]. exact Hval.
  - destruct (Atoi_digits num Hnum) as [Hat Hpos].
    cbn [length Nat.leb lookup_total list_lookup_total insert list_insert
         andb String.eqb negb].
    intros [= <-]. cbn [HopNum IP Hostname LatencyMs Lost].
    exists ws, num, sp, ("*" +:+ sp2 +:+ "*" +:+ sp3 +:+ "*" +:+ post).
    split; [now rewrite !append_assoc|].
    split; [exact Hws|]. split; [exact Hnum|]. split; [exact Hsp|].
    split; [exact Hat|].
    split; [rewrite Hat; unfold max_int in *; lia|].
    split; [reflexivity|]. right.
    exists sp2, sp3, post. repeat split; assumption.
Qed.

Lemma parse_line_fields_witness :
  exists ws num sp rest,
    "99999999999999999999 10.0.0.1 2.5ms" = ws +:+ num +:+ sp +:+ rest
    /\ matches (Plus is_digit) num
    /\ matches (Plus is_space) sp
    /\ parse_line "99999999999999999999 10.0.0.1 2.5ms"
       = Some (mkHop max_int "10.0.0.1" EmptyString
                 (SpecFloat.S754_finite false 5629499534213120 (-51)) false).
Proof.
  destruct (proj1 parse_line_fields "99999999999999999999 10.0.0.1 2.5ms"
              (mkHop max_int "10.0.0.1" EmptyString
                 (SpecFloat.S754_finite false 5629499534213120 (-51)) false)
              eq_refl)
    as (ws & num & sp & rest & Hline & _ & Hnum & Hsp & _).
  exists ws, num, sp, rest. split; [exact Hline|]. split; [exact Hnum|].
  split; [exact Hsp|]. reflexivity.
Defined.

End HopFields.

(** ** The traceroute probe *)

Section ProbeFacts.

Import Traceroute Captures TraceProbe.

Lemma set_bounds p c :
  1 <= maxHops p <= 64 /\ 0 < timeout p ->
  1 <= maxHops (set p c) <= 64 /\ 0 < timeout (set p c).
Proof.
  intros [Hm Ht]. destruct c as [max|t]; simpl.
  - unfold SetMaxHops.
    destruct (Z.ltb_spec 0 max), (Z.leb_spec max 64); simpl; lia.
  - unfold SetTimeout. destruct (Z.ltb_spec 0 t); simpl; lia.
Qed.

(** X15.  Whatever calls of [SetMaxHops] and [SetTimeout] are made on a
    probe built by [NewTracerouteProbe], its hop limit stays from 1 to
    64 and its timeout stays positive: a call with a value outside
    these bounds changes nothing.  The timeout has no part in the
    command that [Trace] runs, so setting it changes no trace. *)
Theorem probe_settings calls :
  let p := fold_left set calls NewTracerouteProbe in
  1 <= maxHops p <= 64
  /\ 0 < timeout p
  /\ (forall max, max <= 0 \/ 64 < max -> SetMaxHops max p = p)
  /\ (forall t, t <= 0 -> SetTimeout t p = p)
  /\ (forall Output t now target,
        Trace Output (SetTimeout t p) now target
        = Trace Output p now target).
Proof.
  intros p.
  assert (Hb : 1 <= maxHops p <= 64 /\ 0 < timeout p).
  { subst p. induction calls as [|c calls IH] using rev_ind.
    - simpl. unfold Scheduler.second. lia.
    - rewrite fold_left_app. simpl. now apply set_bounds. }
  destruct Hb as [Hm Ht]. split; [exact Hm|]. split; [exact Ht|].
  split; [|split].
  - intros max Hmax. unfold SetMaxHops.
    destruct (Z.ltb_spec 0 max), (Z.leb_spec max 64); simpl;
      try reflexivity; lia.
  - intros t Hle. unfold SetTimeout.
    destruct (Z.ltb_spec 0 t); [lia | reflexivity].
  - intros Output t now target. unfold SetTimeout.
    destruct (0 <? t); reflexivity.
Qed.

Lemma parseTracerouteOutput_lines output :
  parseTracerouteOutput output = (omap parse_line (lines output), None).
Proof. unfold parseTracerouteOutput. now rewrite scan_steps. Qed.

(** X16.  [Trace] always returns a result, for its target and its time.
    It runs the second command, with [-I], only after the first has
    failed, and fails exactly when both fail, with the error of the
    second in its message and a result without hops.  Otherwise the
    hops are those of the lines of the output of the command that
    succeeded, in order; the text of the output never makes it fail,
    and every hop has a number that is not negative. *)
Theorem Trace_outcome Output p now target :
  let first := Output (command false p target) in
  let second := Output (command true p target) in
  let run := Trace Output p now target in
  Target (fst run) = target
  /\ Timestamp (fst run) = now
  /\ (snd first = None ->
      run = (mkTraceResult target now (omap parse_line (lines (fst first))),
             None))
  /\ (snd first <> None -> snd second = None ->
      run = (mkTraceResult target now (omap parse_line (lines (fst second))),
             None))
  /\ (forall e, snd first <> None -> snd second = Some e ->
      run = (mkTraceResult target now [],
             Some (Failure ("traceroute failed: " +:+ Error e))))
  /\ (forall hop, hop ∈ Hops (fst run) ->
        0 <= HopNum hop <= max_int
        /\ (Lost hop = true <-> IP hop = EmptyString)).
Proof.
  intros first second run. subst first second run.
  assert (Hhops : forall out hop,
            hop ∈ omap parse_line (lines out) ->
            0 <= HopNum hop <= max_int
            /\ (Lost hop = true <-> IP hop = EmptyString)).
  { intros out hop Hin. apply list_elem_of_omap in Hin as (l & _ & Hl).
    now apply parse_line_bounds in Hl. }
  unfold Trace, runSystemTraceroute.
  destruct (Output (command false p target)) as [out1 [e1|]];
    [destruct (Output (command true p target)) as [out2 [e2|]]|];
    rewrite ?parseTracerouteOutput_lines; cbn [fst snd Target Timestamp Hops].
  - split; [reflexivity|]. split; [reflexivity|].
    split; [discriminate|]. split; [discriminate|].
    split; [intros e _ [= <-]; reflexivity|].
    intros hop Hin. inversion Hin.
  - split; [reflexivity|]. split; [reflexivity|].
    split; [discriminate|]. split; [reflexivity|].
    split; [discriminate|]. apply Hhops.
  - split; [reflexivity|]. split; [reflexivity|].
    split; [reflexivity|]. split; [congruence|].
    split; [congruence|]. apply Hhops.
Qed.

End ProbeFacts.

(** ** Goroutines that share variables *)

Section FanOutFacts.

Import FanOut.

Context {V : Type}.
Variable act : nat -> V -> V.
Variable capacity : option Z.
Variable n : nat.
Variable v0 : V.

Lemma in_flight_acquire rs i :
  rs !! i = Some Waiting ->
  in_flight (<[i := Working]> rs) = S (in_flight rs).
Proof.
  revert i. induction rs as [|g rs IH]; intros [|i] Hi; simpl in *;
    try discriminate.
  - now injection Hi as ->.
  - destruct g; simpl; now rewrite (IH i Hi).
Qed.

Lemma in_flight_finish rs i :
  rs !! i = Some Working ->
  S (in_flight (<[i := Finished]> rs)) = in_flight rs.
Proof.
  revert i. induction rs as [|g rs IH]; intros [|i] Hi; simpl in *;
    try discriminate.
  - now injection Hi as ->.
  - destruct g; simpl; now rewrite <- (IH i Hi).
Qed.

Lemma remaining_acquire rs i :
  rs !! i = Some Waiting ->
  S (remaining (<[i := Working]> rs)) = remaining rs.
Proof.
  revert i. induction rs as [|g rs IH]; intros [|i] Hi; simpl in *;
    try discriminate.
  - now injection Hi as ->.
  - destruct g; simpl; now rewrite <- (IH i Hi).
Qed.

Lemma remaining_finish rs i :
  rs !! i = Some Working ->
  S (remaining (<[i := Finished]> rs)) = remaining rs.
Proof.
  revert i. induction rs as [|g rs IH]; intros [|i] Hi; simpl in *;
    try discriminate.
  - now injection Hi as ->.
  - destruct g; simpl; now rewrite <- (IH i Hi).
Qed.

Lemma remaining_replicate k : remaining (replicate k Waiting) = (2 * k)%nat.
Proof. induction k as [|k IH]; simpl; [reflexivity|]. rewrite IH. lia. Qed.

Lemma in_flight_replicate k : in_flight (replicate k Waiting) = 0%nat.
Proof. induction k as [|k IH]; simpl; auto. Qed.

(** Every step is one of the [remaining] ones. *)
Lemma fan_step_remaining st st' :
  step act capacity st st' ->
  S (remaining (routines st')) = remaining (routines st).
Proof.
  destruct 1; simpl; [now apply remaining_acquire | now apply remaining_finish].
Qed.

Lemma fan_returned_lookup (st : @state V) i :
  returned st = true -> (i < length (routines st))%nat ->
  routines st !! i = Some Finished.
Proof.
  unfold returned. intros Hall Hi.
  destruct (lookup_lt_is_Some_2 _ _ Hi) as [g Hg]. rewrite Hg.
  rewrite forallb_forall in Hall.
  specialize (Hall g). rewrite <- list_elem_of_In in Hall.
  specialize (Hall (list_elem_of_lookup_2 _ _ _ Hg)).
  now destruct g.
Qed.

Lemma fan_not_returned rs :
  forallb is_finished rs = false ->
  exists i g, rs !! i = Some g /\ g <> Finished.
Proof.
  induction rs as [|g rs IH]; simpl; [discriminate|].
  destruct g; simpl;
    try (intros _; exists 0%nat; eexists; split; [reflexivity|discriminate]).
  intros H. destruct (IH H) as (i & g & Hi & Hg). exists (S i), g. auto.
Qed.

Lemma in_flight_zero rs :
  in_flight rs = 0%nat -> forall i, rs !! i <> Some Working.
Proof.
  induction rs as [|g rs IH]; intros H [|i] Hi; simpl in *;
    try discriminate.
  - injection Hi as ->. discriminate.
  - destruct g; try discriminate; now apply (IH H i).
Qed.

Lemma in_flight_pos rs :
  in_flight rs <> 0%nat -> exists i, rs !! i = Some Working.
Proof.
  induction rs as [|g rs IH]; simpl; [congruence|].
  destruct g; try (intros H; destruct (IH H) as [i Hi]; now exists (S i)).
  intros _. now exists 0%nat.
Qed.

(** What holds in every state that the goroutines can reach. *)
Lemma fan_invariant st :
  reachable act capacity n v0 st ->
  length (routines st) = n
  /\ NoDup (order st)
  /\ (forall i, i ∈ order st <-> routines st !! i = Some Finished)
  /\ shared st = written act (order st) v0
  /\ (forall c, capacity = Some c ->
                in_flight (routines st) = 0%nat
                \/ Z.of_nat (in_flight (routines st)) <= c).
Proof.
  induction 1 as [|st st' _ IH Hstep].
  - simpl. split; [apply length_replicate|]. split; [constructor|].
    split; [|split; [reflexivity|]].
    + intros i. split; [intros H; inversion H|].
      intros H. apply lookup_replicate in H as [[=] _].
    + intros c _. left. apply in_flight_replicate.
  - destruct IH as (Hlen & Hnd & Hord & Hsh & Hcap).
    destruct Hstep as [i st Hi Hadm|i st Hi]; simpl.
    + split; [now rewrite length_insert|]. split; [exact Hnd|].
      split; [|split; [exact Hsh|]].
      * intros j. rewrite Hord. destruct (decide (i = j)) as [->|Hne].
        -- rewrite list_lookup_insert_eq
             by now apply lookup_lt_Some in Hi.
           split; congruence.
        -- now rewrite list_lookup_insert_ne.
      * intros c Hc. right. rewrite in_flight_acquire by assumption.
        unfold admits in Hadm. rewrite Hc in Hadm.
        apply Z.ltb_lt in Hadm. lia.
    + split; [now rewrite length_insert|].
      assert (Hnew : i ∉ order st).
      { rewrite Hord. congruence. }
      split; [|split; [|split]].
      * apply NoDup_app. split; [exact Hnd|]. split.
        -- intros j Hj Hj'. apply list_elem_of_singleton in Hj'. congruence.
        -- apply NoDup_singleton.
      * intros j. rewrite elem_of_app, list_elem_of_singleton, Hord.
        destruct (decide (i = j)) as [->|Hne].
        -- rewrite list_lookup_insert_eq
             by now apply lookup_lt_Some in Hi.
           split; auto.
        -- rewrite list_lookup_insert_ne by assumption.
           split; [intros [?|?]; congruence | auto].
      * unfold written. rewrite fold_left_app. simpl. now rewrite Hsh.
      * intros c Hc. pose proof (in_flight_finish _ _ Hi) as Hf.
        destruct (Hcap c Hc) as [Hz|Hle]; [lia|]. right. lia.
Qed.

(** When [wg.Wait()] returns, every goroutine has written once. *)
Lemma fan_returned_order st :
  reachable act capacity n v0 st -> returned st = true ->
  order st ≡ₚ seq 0 n /\ shared st = written act (order st) v0.
Proof.
  intros Hr Hret.
  destruct (fan_invariant st Hr) as (Hlen & Hnd & Hord & Hsh & _).
  split; [|exact Hsh].
  apply NoDup_Permutation; [exact Hnd | apply NoDup_seq|].
  intros i. rewrite Hord, elem_of_seq. split.
  - intros Hi. apply lookup_lt_Some in Hi. lia.
  - intros Hi. apply fan_returned_lookup; [exact Hret | lia].
Qed.

(** Unless the semaphore has no place at all, the goroutines never
    come to a stop before the end. *)
Lemma fan_progress st :
  match capacity with
  | None => True
  | Some c => 1 <= c
  end ->
  returned st = false ->
  exists st', step act capacity st st'.
Proof.
  intros Hcap Hret. unfold returned in Hret.
  destruct (Nat.eq_dec (in_flight (routines st)) 0%nat) as [Hz|Hnz].
  - apply fan_not_returned in Hret as (i & g & Hi & Hg).
    destruct g; [|now apply in_flight_zero in Hi|congruence].
    eexists. apply (step_acquire act capacity i st Hi).
    unfold admits. destruct capacity as [c|]; [|reflexivity].
    apply Z.ltb_lt. lia.
  - apply in_flight_pos in Hnz as [i Hi].
    eexists. apply (step_finish act capacity i st Hi).
Qed.

(** And they come to the end: some run, from any state they can
    reach, makes [wg.Wait()] return. *)
Lemma fan_returns :
  match capacity with
  | None => True
  | Some c => 1 <= c
  end ->
  forall k st,
    remaining (routines st) = k ->
    reachable act capacity n v0 st ->
    exists st', reachable act capacity n v0 st' /\ returned st' = true.
Proof.
  intros Hcap. induction k as [|k IH]; intros st Hk Hr.
  - destruct (returned st) eqn:Hret; [eauto|].
    destruct (fan_progress st Hcap Hret) as [st' Hstep].
    apply fan_step_remaining in Hstep. lia.
  - destruct (returned st) eqn:Hret; [eauto|].
    destruct (fan_progress st Hcap Hret) as [st' Hstep].
    apply (IH st').
    + apply fan_step_remaining in Hstep. lia.
    + now apply (reachable_step act capacity n v0 st).
Qed.

Lemma fire_step i st st' :
  fire act capacity i st = Some st' -> step act capacity st st'.
Proof.
  unfold fire. destruct (routines st !! i) as [[| |]|] eqn:Hi;
    try discriminate.
  - destruct (admits capacity (routines st)) eqn:Ha; [|discriminate].
    intros [= <-]. now constructor.
  - intros [= <-]. now constructor.
Qed.

Lemma fan_run_reachable schedule : forall st st',
  reachable act capacity n v0 st ->
  run act capacity schedule st = Some st' ->
  reachable act capacity n v0 st'.
Proof.
  induction schedule as [|i rest IH]; intros st st' Hr; simpl.
  - now intros [= <-].
  - destruct (fire act capacity i st) as [st1|] eqn:Hf; [|discriminate].
    apply IH. apply (reachable_step act capacity n v0 st); [exact Hr|].
    now apply (fire_step i).
Qed.

End FanOutFacts.

Section PingHostsFacts.

Import Ping Hosts.

Variable nw : network.
Variable now : nat -> Z.
Variable ips : list string.

Lemma ping_one_length idx results :
  length (ping_one nw now ips idx results) = length results.
Proof.
  unfold ping_one. destruct (ips !! idx); [apply length_insert | reflexivity].
Qed.

Lemma ping_written done : forall results,
  length results = length ips ->
  length (FanOut.written (ping_one nw now ips) done results) = length ips
  /\ forall j,
       FanOut.written (ping_one nw now ips) done results !! j
       = if decide (j ∈ done)
         then option_map (pingHost nw (now j)) (ips !! j)
         else results !! j.
Proof.
  induction done as [|i done IH]; intros results Hlen.
  - split; [exact Hlen|]. intros j. rewrite decide_False; [reflexivity|].
    intros H. inversion H.
  - unfold FanOut.written. simpl.
    fold (FanOut.written (ping_one nw now ips) done
            (ping_one nw now ips i results)).
    destruct (IH (ping_one nw now ips i results)) as [Hl Hat].
    { now rewrite ping_one_length. }
    split; [exact Hl|]. intros j. rewrite Hat.
    destruct (decide (j ∈ done)) as [Hin|Hnin].
    + rewrite decide_True; [reflexivity | now right].
    + destruct (decide (j = i)) as [->|Hne].
      * rewrite decide_True by now left.
        unfold ping_one. destruct (ips !! i) as [addr|] eqn:Hi.
        -- rewrite list_lookup_insert_eq; [reflexivity|].
           apply lookup_lt_Some in Hi. lia.
        -- simpl. apply lookup_ge_None. apply lookup_ge_None in Hi. lia.
      * rewrite decide_False.
        -- unfold ping_one. destruct (ips !! i); [|reflexivity].
           now rewrite list_lookup_insert_ne.
        -- intros H. apply elem_of_cons in H as [?|?]; congruence.
Qed.

(** X17.  [PingHosts] returns one entry for each address it is given,
    at the position of the address and for that address, whatever the
    order in which the goroutines run.  At no time do more goroutines
    than the concurrency of the probe hold a place of the semaphore,
    and when that concurrency is at least 1, as [NewPingProbe] makes it,
    the call can always come to its end. *)
Theorem PingHosts_results p :
  (forall res,
     PingHosts p nw now ips res ->
     length res = length ips
     /\ forall i addr,
          ips !! i = Some addr ->
          res !! i = Some (pingHost nw (now i) addr)
          /\ IP (pingHost nw (now i) addr) = addr)
  /\ (forall st,
        FanOut.reachable (ping_one nw now ips) (Some (concurrency p))
                         (length ips) (replicate (length ips) zero_host) st ->
        (FanOut.in_flight (FanOut.routines st) = 0%nat
         \/ Z.of_nat (FanOut.in_flight (FanOut.routines st))
            <= concurrency p)
        /\ length (FanOut.shared st) = length ips)
  /\ (1 <= concurrency p -> exists res, PingHosts p nw now ips res)
  /\ (forall c t, 1 <= concurrency (NewPingProbe c t)).
Proof.
  split; [|split; [|split]].
  - intros res (st & Hr & Hret & ->).
    destruct (fan_returned_order _ _ _ _ st Hr Hret) as [Hperm Hsh].
    destruct (ping_written (FanOut.order st)
                (replicate (length ips) zero_host)
                ltac:(apply length_replicate)) as [Hl Hat].
    rewrite Hsh. split; [exact Hl|].
    intros i addr Hi. split; [|apply pingHost_IP].
    rewrite Hat, Hi. rewrite decide_True; [reflexivity|].
    rewrite Hperm. apply elem_of_seq. apply lookup_lt_Some in Hi. lia.
  - intros st Hr.
    destruct (fan_invariant _ _ _ _ st Hr)
      as (_ & _ & _ & Hsh & Hcap).
    split; [now apply Hcap|].
    rewrite Hsh.
    now apply ping_written, length_replicate.
  - intros Hc.
    destruct (fan_returns (ping_one nw now ips) (Some (concurrency p))
                (length ips) (replicate (length ips) zero_host) Hc _
                (FanOut.start (length ips) (replicate (length ips) zero_host))
                eq_refl (FanOut.reachable_start _ _ _ _))
      as (st & Hr & Hret).
    exists (FanOut.shared st), st. auto.
  - intros c t. unfold NewPingProbe. simpl.
    destruct (Z.leb_spec c 0); lia.
Qed.

End PingHostsFacts.

Section TraceMultipleFacts.

Import TraceProbe Traces.

Variable Output : nat -> list string -> string * option error.
Variable now : nat -> Z.
Variable p : TracerouteProbe.
Variable targets : list string.

Lemma trace_one_length idx v :
  length (fst (trace_one Output now p targets idx v)) = length (fst v).
Proof.
  unfold trace_one. destruct (targets !! idx); [|reflexivity].
  destruct (Trace _ _ _ _) as [r [e|]]; simpl;
    [reflexivity | apply length_insert].
Qed.

Lemma trace_written done : forall v,
  length (fst v) = length targets ->
  let w := FanOut.written (trace_one Output now p targets) done v in
  length (fst w) = length targets
  /\ (forall j,
        fst w !! j
        = if decide (j ∈ done /\ Traces.stored Output now p targets j <> None)
          then Some (Traces.stored Output now p targets j) else fst v !! j)
  /\ snd w = match snd v with
             | Some e => Some e
             | None => head (omap (Traces.reported Output now p targets) done)
             end.
Proof.
  induction done as [|i done IH]; intros v Hlen.
  - intros w. subst w. unfold FanOut.written. cbn [fold_left].
    split; [exact Hlen|]. split.
    + intros j. rewrite decide_False; [reflexivity|].
      intros [H _]. inversion H.
    + now destruct (snd v).
  - intros w. subst w. unfold FanOut.written. simpl.
    fold (FanOut.written (trace_one Output now p targets) done
            (trace_one Output now p targets i v)).
    destruct (IH (trace_one Output now p targets i v))
      as (Hl & Hat & Herr).
    { now rewrite trace_one_length. }
    split; [exact Hl|]. split.
    + intros j. rewrite Hat.
      destruct (decide (j ∈ done
                        /\ Traces.stored Output now p targets j <> None))
        as [[Hin Hs]|Hn].
      * rewrite decide_True; [reflexivity|]. split; [now right | exact Hs].
      * destruct (decide (j = i)) as [->|Hne].
        -- unfold trace_one, Traces.stored.
           destruct (targets !! i) as [t|] eqn:Hi.
           ++ destruct (Trace (Output i) p (now i) t) as [r [e|]] eqn:Ht.
              ** simpl. rewrite decide_False; [reflexivity|].
                 intros [_ H]. congruence.
              ** simpl. rewrite decide_True by (split; [now left|congruence]).
                 rewrite list_lookup_insert_eq; [reflexivity|].
                 apply lookup_lt_Some in Hi. lia.
           ++ rewrite decide_False; [reflexivity|]. intros [_ H]. congruence.
        -- rewrite decide_False.
           ++ unfold trace_one. destruct (targets !! i); [|reflexivity].
              destruct (Trace _ _ _ _) as [r [e|]]; simpl; [reflexivity|].
              now rewrite list_lookup_insert_ne.
           ++ intros [H Hs]. apply Hn. split; [|exact Hs].
              apply elem_of_cons in H as [?|?]; congruence.
    + rewrite Herr. unfold trace_one, Traces.reported.
      destruct (targets !! i) as [t|] eqn:Hi; simpl.
      * destruct (Trace (Output i) p (now i) t) as [r [e|]] eqn:Ht; simpl.
        -- now destruct (snd v).
        -- reflexivity.
      * reflexivity.
Qed.

(** X18.  [TraceMultiple] returns a slice as long as the targets: at
    the position of a target whose trace succeeded, the result of that
    trace, and nil at the position of a target whose trace failed,
    whatever the order in which the goroutines end.  The error it
    returns is nil exactly when every trace succeeded; otherwise it is
    the error of the failed trace whose goroutine came first, and the
    results of the traces that succeeded are returned with it. *)
Theorem TraceMultiple_results done results err :
  TraceMultiple Output now p targets done (results, err) ->
  done ≡ₚ seq 0 (length targets)
  /\ length results = length targets
  /\ (forall i t,
        targets !! i = Some t ->
        results !! i
        = Some (match Trace (Output i) p (now i) t with
                | (result, None) => Some result
                | (_, Some _) => None
                end))
  /\ err = head (omap (fun i =>
                         match targets !! i with
                         | Some t => snd (Trace (Output i) p (now i) t)
                         | None => None
                         end) done)
  /\ (err = None
      <-> forall i t, targets !! i = Some t ->
                      snd (Trace (Output i) p (now i) t) = None)
  /\ (forall e, err = Some e ->
        exists i t, targets !! i = Some t
                    /\ snd (Trace (Output i) p (now i) t) = Some e).
Proof.
  intros (st & Hr & Hret & -> & Hres).
  destruct (fan_returned_order _ _ _ _ st Hr Hret) as [Hperm Hsh].
  destruct (trace_written (FanOut.order st)
              (replicate (length targets) None, None)
              ltac:(apply length_replicate)) as (Hl & Hat & Herr).
  rewrite <- Hsh, <- Hres in Hl, Hat, Herr.
  cbn [fst snd] in Hl, Hat, Herr.
  change (err = head (omap (Traces.reported Output now p targets)
                           (FanOut.order st))) in Herr.
  split; [exact Hperm|]. split; [exact Hl|].
  assert (Hin : forall i, (i < length targets)%nat -> i ∈ FanOut.order st).
  { intros i Hi. rewrite Hperm. apply elem_of_seq. lia. }
  split; [|split; [exact Herr|]].
  - intros i t Hi. rewrite Hat.
    pose proof (lookup_lt_Some _ _ _ Hi) as Hlt.
    assert (Hst : Traces.stored Output now p targets i
                  = match Trace (Output i) p (now i) t with
                             | (result, None) => Some result
                             | (_, Some _) => None
                             end).
    { unfold Traces.stored. now rewrite Hi. }
    rewrite <- Hst.
    destruct (decide (i ∈ FanOut.order st
                      /\ Traces.stored Output now p targets i <> None))
      as [_|Hn]; [reflexivity|].
    rewrite lookup_replicate_2 by assumption.
    destruct (Traces.stored Output now p targets i) eqn:Hs; [|reflexivity].
    exfalso. apply Hn. split; [now apply Hin | discriminate].
  - assert (Hhead : forall l,
              head (omap (Traces.reported Output now p targets) l) = None
              <-> forall i, i ∈ l -> Traces.reported Output now p targets i = None).
    { induction l as [|i l IH]; simpl.
      - split; [intros _ i H; inversion H | reflexivity].
      - destruct (Traces.reported Output now p targets i) eqn:Hrep; simpl.
        + split; [discriminate|]. intros H.
          specialize (H i ltac:(left)). congruence.
        + rewrite IH. split.
          * intros H j Hj. apply elem_of_cons in Hj as [->|Hj]; auto.
          * intros H j Hj. apply H. now right. }
    split.
    + rewrite Herr, Hhead. split.
      * intros H i t Hi. specialize (H i (Hin i (lookup_lt_Some _ _ _ Hi))).
        unfold Traces.reported in H. now rewrite Hi in H.
      * intros H i _. unfold Traces.reported.
        destruct (targets !! i) eqn:Hi; [now apply (H i)|reflexivity].
    + intros e He. rewrite Herr in He.
      assert (Hex : forall l,
                head (omap (Traces.reported Output now p targets) l) = Some e ->
                exists i, Traces.reported Output now p targets i = Some e).
      { induction l as [|i l IH]; simpl; [discriminate|].
        destruct (Traces.reported Output now p targets i) eqn:Hrep; simpl; [|exact IH].
        intros [= ->]. eauto. }
      destruct (Hex _ He) as [i Hi]. unfold Traces.reported in Hi.
      destruct (targets !! i) as [t|] eqn:Ht; [|discriminate]. eauto.
Qed.

End TraceMultipleFacts.

Lemma traces_run :
  exists st,
    FanOut.run (Traces.trace_one Samples.tracer Samples.clock
                  TraceProbe.NewTracerouteProbe ["1.1.1.1"; "8.8.8.8"])
               None [0; 1; 1; 0]%nat
               (FanOut.start 2 ([None; None], None)) = Some st
    /\ FanOut.returned st = true
    /\ FanOut.order st = [1; 0]%nat
    /\ snd (FanOut.shared st)
       = Some (Failure "traceroute failed: exit status 1").
Proof. vm_compute. eexists. repeat split. Qed.

Lemma TraceMultiple_results_witness :
  exists results err,
    Traces.TraceMultiple Samples.tracer Samples.clock
      TraceProbe.NewTracerouteProbe ["1.1.1.1"; "8.8.8.8"] [1; 0]%nat
      (results, err)
    /\ length results = 2%nat
    /\ results !! 0%nat = Some None
    /\ err = Some (Failure "traceroute failed: exit status 1").
Proof.
  destruct traces_run as (st & Hrun & Hret & Hord & Herr).
  pose proof (fan_run_reachable
                (Traces.trace_one Samples.tracer Samples.clock
                   TraceProbe.NewTracerouteProbe ["1.1.1.1"; "8.8.8.8"])
                None 2 ([None; None], None) [0; 1; 1; 0]%nat _ st
                (FanOut.reachable_start _ _ _ _) Hrun) as Hreach.
  assert (Hmul : Traces.TraceMultiple Samples.tracer Samples.clock
                   TraceProbe.NewTracerouteProbe ["1.1.1.1"; "8.8.8.8"]
                   [1; 0]%nat (fst (FanOut.shared st), snd (FanOut.shared st))).
  { exists st. split; [exact Hreach|]. split; [exact Hret|].
    split; [now rewrite Hord | now destruct (FanOut.shared st)]. }
  destruct (TraceMultiple_results Samples.tracer Samples.clock
              TraceProbe.NewTracerouteProbe ["1.1.1.1"; "8.8.8.8"]
              [1; 0]%nat _ _ Hmul) as (_ & Hlen & Hat & _).
  exists (fst (FanOut.shared st)), (snd (FanOut.shared st)).
  split; [exact Hmul|]. split; [exact Hlen|].
  split; [exact (Hat 0%nat "1.1.1.1" eq_refl) | exact Herr].
Defined.

Section ScanMultipleFacts.

Import PortScan Scans.

Variable hosts : list string.
Variable scan : nat -> list ScanPort * option error.

Lemma scan_written done :
  let m := FanOut.written (scan_one hosts scan) done ∅ in
  (forall h ports,
     m !! h = Some ports ->
     ports <> []
     /\ exists i, i ∈ done /\ hosts !! i = Some h /\ scan i = (ports, None))
  /\ (forall i h,
        i ∈ done -> hosts !! i = Some h ->
        fst (scan i) <> [] -> snd (scan i) = None ->
        is_Some (m !! h)).
Proof.
  induction done as [|i done IH] using rev_ind.
  - simpl. split.
    + intros h ports H. rewrite lookup_empty in H. discriminate.
    + intros i h H. inversion H.
  - intros m. subst m. unfold FanOut.written. rewrite fold_left_app.
    cbn [fold_left].
    fold (FanOut.written (scan_one hosts scan) done ∅).
    set (m := FanOut.written (scan_one hosts scan) done ∅) in *.
    destruct IH as [Hfrom Hto].
    assert (Hold :
      (forall h ports,
         m !! h = Some ports ->
         ports <> []
         /\ exists j, j ∈ done ++ [i] /\ hosts !! j = Some h
                      /\ scan j = (ports, None))).
    { intros h ports Hm. destruct (Hfrom h ports Hm) as [Hne (j & Hj & H)].
      split; [exact Hne|]. exists j. split; [|exact H].
      apply elem_of_app. now left. }
    unfold scan_one in *.
    destruct (hosts !! i) as [hi|] eqn:Hi.
    + destruct (scan i) as [[|port ports] [e|]] eqn:Hs.
      * split; [exact Hold|]. intros j h Hj Hh Hne Hnone.
        apply elem_of_app in Hj as [Hj|Hj]; [now apply (Hto j)|].
        apply list_elem_of_singleton in Hj as ->. rewrite Hs in Hnone.
        discriminate.
      * split; [exact Hold|]. intros j h Hj Hh Hne Hnone.
        apply elem_of_app in Hj as [Hj|Hj]; [now apply (Hto j)|].
        apply list_elem_of_singleton in Hj as ->. rewrite Hs in Hne.
        now destruct Hne.
      * split; [exact Hold|]. intros j h Hj Hh Hne Hnone.
        apply elem_of_app in Hj as [Hj|Hj]; [now apply (Hto j)|].
        apply list_elem_of_singleton in Hj as ->. rewrite Hs in Hnone.
        discriminate.
      * split.
        -- intros h ps Hm. destruct (decide (hi = h)) as [->|Hne].
           ++ rewrite lookup_insert_eq in Hm. injection Hm as <-.
              split; [discriminate|]. exists i.
              split; [apply elem_of_app; right; now left|]. auto.
           ++ rewrite lookup_insert_ne in Hm by assumption.
              now apply Hold.
        -- intros j h Hj Hh Hne Hnone.
           destruct (decide (hi = h)) as [->|Hdiff].
           ++ rewrite lookup_insert_eq. eauto.
           ++ rewrite lookup_insert_ne by assumption.
              apply elem_of_app in Hj as [Hj|Hj]; [now apply (Hto j)|].
              apply list_elem_of_singleton in Hj as ->. congruence.
    + split; [exact Hold|]. intros j h Hj Hh Hne Hnone.
      apply elem_of_app in Hj as [Hj|Hj]; [now apply (Hto j)|].
      apply list_elem_of_singleton in Hj as ->. congruence.
Qed.

(** X19.  [ScanMultipleHosts] never returns an error.  The map it
    returns has an entry exactly for the hosts on which some scan found
    an open port, and never an empty one; the entry of a host is what a
    scan of that host returned, the only one when the host is given
    once, whatever the order in which the goroutines run.  At no time do
    more than five goroutines hold a place of the semaphore. *)
Theorem ScanMultipleHosts_results s nw results err :
  ScanMultipleHosts s nw hosts scan (results, err) ->
  err = None
  /\ (forall h ports,
        results !! h = Some ports ->
        ports <> []
        /\ exists i, hosts !! i = Some h /\ scan i = (ports, None))
  /\ (forall i h,
        hosts !! i = Some h -> fst (scan i) <> [] -> is_Some (results !! h))
  /\ (NoDup hosts ->
      forall i h,
        hosts !! i = Some h ->
        results !! h
        = match fst (scan i) with
          | [] => None
          | ports => Some ports
          end)
  /\ (forall st,
        FanOut.reachable (scan_one hosts scan) (Some 5) (length hosts) ∅ st ->
        (FanOut.in_flight (FanOut.routines st) <= 5)%nat).
Proof.
  intros [Hscan (st & Hr & Hret & Heq)]. injection Heq as -> ->.
  destruct (fan_returned_order _ _ _ _ st Hr Hret) as [Hperm Hsh].
  destruct (scan_written (FanOut.order st)) as [Hfrom Hto].
  rewrite <- Hsh in Hfrom, Hto.
  assert (Hnone : forall i h, hosts !! i = Some h -> snd (scan i) = None).
  { intros i h Hi. destruct (Hscan i h Hi) as (a & c & st' & _ & _ & _ & _ & H).
    now rewrite H. }
  assert (Hin : forall i h, hosts !! i = Some h -> i ∈ FanOut.order st).
  { intros i h Hi. rewrite Hperm. apply elem_of_seq.
    apply lookup_lt_Some in Hi. lia. }
  assert (Hfrom' : forall h ports,
            FanOut.shared st !! h = Some ports ->
            ports <> []
            /\ exists i, hosts !! i = Some h /\ scan i = (ports, None)).
  { intros h ports Hm. destruct (Hfrom h ports Hm) as [Hne (i & _ & H)].
    eauto. }
  assert (Hto' : forall i h,
            hosts !! i = Some h -> fst (scan i) <> [] ->
            is_Some (FanOut.shared st !! h)).
  { intros i h Hi Hne. apply (Hto i h); eauto. }
  split; [reflexivity|]. split; [exact Hfrom'|]. split; [exact Hto'|].
  split.
  - intros Hnd i h Hi.
    destruct (FanOut.shared st !! h) as [ports|] eqn:Hm.
    + destruct (Hfrom' h ports Hm) as [Hne (j & Hj & Hs)].
      assert (j = i) as -> by (eapply NoDup_lookup; eauto).
      rewrite Hs. simpl. now destruct ports.
    + destruct (fst (scan i)) as [|port ports] eqn:Hs; [reflexivity|].
      destruct (Hto' i h Hi) as [x Hx]; [rewrite Hs; discriminate|].
      congruence.
  - intros st' Hr'.
    destruct (fan_invariant _ _ _ _ st' Hr') as (_ & _ & _ & _ & Hcap).
    destruct (Hcap 5 eq_refl); lia.
Qed.

End ScanMultipleFacts.

Lemma scan_run_hosts :
  exists st,
    Pool.run (PortScan.scan_fn Samples.ssh_only "192.168.1.1")
             PortScan.scan_conv Samples.scan_schedule
             (Pool.start PortScan.DefaultPorts 20) = Some st
    /\ Pool.returned st = true /\ Pool.cancelled st = false
    /\ Pool.hosts st <> [].
Proof. vm_compute. eexists. repeat split. discriminate. Qed.

Lemma ScanMultipleHosts_results_witness :
  exists scan results,
    Scans.ScanMultipleHosts (PortScan.NewPortScanner 0 0 []) Samples.ssh_only
      ["192.168.1.1"] scan (results, None)
    /\ is_Some (results !! "192.168.1.1").
Proof.
  destruct scan_run_hosts as (st & Hst & Hret & Hlive & Hhosts).
  pose proof (run_reachable
                (PortScan.scan_fn Samples.ssh_only "192.168.1.1")
                PortScan.scan_conv PortScan.DefaultPorts 20
                Samples.scan_schedule _ st
                (Pool.reachable_start _ _ _ _) Hst) as Hreach.
  assert (Hscan : PortScan.ScanHost (PortScan.NewPortScanner 0 0 [])
                    Samples.ssh_only "192.168.1.1"
                    (map fst (Pool.log st)) false (Pool.hosts st, None)).
  { exists st. auto. }
  set (scan := fun _ : nat => (Pool.hosts st, @None error)).
  assert (Hmul : Scans.ScanMultipleHosts (PortScan.NewPortScanner 0 0 [])
                   Samples.ssh_only ["192.168.1.1"] scan
                   (Scans.scan_one ["192.168.1.1"] scan 0 ∅, None)).
  { split.
    - intros idx h Hh. exists (map fst (Pool.log st)), false.
      destruct idx as [|idx]; [|destruct idx; discriminate].
      injection Hh as <-. exact Hscan.
    - eexists. split; [|split].
      + apply (fan_run_reachable
                 (Scans.scan_one ["192.168.1.1"] scan) (Some 5) 1 ∅
                 [0; 0]%nat (FanOut.start 1 ∅));
          [apply FanOut.reachable_start | reflexivity].
      + reflexivity.
      + reflexivity. }
  exists scan, (Scans.scan_one ["192.168.1.1"] scan 0 ∅).
  split; [exact Hmul|].
  destruct (ScanMultipleHosts_results ["192.168.1.1"] scan _ _ _ _ Hmul)
    as (_ & _ & Hto & _).
  apply (Hto 0%nat "192.168.1.1" eq_refl).
  exact Hhosts.
Defined.

(** ** Addresses and blocks *)

Section Successor.

Import Net Ping.

Lemma ip_value_from acc ip :
  fold_left (fun acc b => acc * 256 + b) ip acc
  = acc * 256 ^ Z.of_nat (length ip) + ip_value ip.
Proof.
  unfold ip_value. revert acc.
  induction ip as [|b ip IH]; intros acc; simpl length; simpl fold_left.
  - simpl. lia.
  - rewrite (IH (acc * 256 + b)), (IH (0 * 256 + b)).
    rewrite Nat2Z.inj_succ, Z.pow_succ_r by lia. lia.
Qed.

Lemma ip_value_cons b ip :
  ip_value (b :: ip) = b * 256 ^ Z.of_nat (length ip) + ip_value ip.
Proof. unfold ip_value at 1. simpl. rewrite ip_value_from. lia. Qed.

Lemma ip_value_bounds ip :
  Forall byte_ok ip -> 0 <= ip_value ip < 256 ^ Z.of_nat (length ip).
Proof.
  induction 1 as [|b ip Hb _ IH].
  - unfold ip_value. simpl. lia.
  - rewrite ip_value_cons. simpl length.
    rewrite Nat2Z.inj_succ, Z.pow_succ_r by lia.
    unfold byte_ok in Hb. nia.
Qed.

Lemma incIP_carry_value ip :
  Forall byte_ok ip ->
  Forall byte_ok (fst (incIP_carry ip))
  /\ length (fst (incIP_carry ip)) = length ip
  /\ ip_value (fst (incIP_carry ip))
     + (if snd (incIP_carry ip) then 256 ^ Z.of_nat (length ip) else 0)
     = ip_value ip + 1.
Proof.
  induction 1 as [|b ip Hb Hall IH].
  - simpl. unfold ip_value. simpl. split; [constructor|]. split; [reflexivity | lia].
  - destruct IH as (Hok & Hlen & Hval). simpl.
    destruct (incIP_carry ip) as [rest carry]. simpl in Hok, Hlen, Hval.
    unfold byte_ok in Hb.
    destruct carry; simpl.
    + split; [|split].
      * constructor; [|exact Hok]. unfold byte_ok.
        Z.div_mod_to_equations; lia.
      * now rewrite Hlen.
      * rewrite !ip_value_cons, Hlen, Nat2Z.inj_succ, Z.pow_succ_r by lia.
        pose proof (Z.pow_pos_nonneg 256 (Z.of_nat (length ip))) as Hpos.
        destruct (Z.ltb_spec 0 ((b + 1) mod 256)); simpl.
        -- assert ((b + 1) mod 256 = b + 1)
             by (Z.div_mod_to_equations; lia). nia.
        -- assert (b = 255) by (Z.div_mod_to_equations; lia).
           assert ((b + 1) mod 256 = 0) by (subst b; reflexivity). nia.
    + split; [|split].
      * now constructor.
      * now rewrite Hlen.
      * rewrite !ip_value_cons, Hlen. lia.
Qed.

(** X20.  [incIP] on an address of any length, read as a number with
    the first byte the most significant, adds one to it; on the address
    whose bytes are all 255 it wraps around to the address of zeros, and
    does not fail.  The length is kept and every byte stays a byte. *)
Theorem incIP_successor ip :
  Forall byte_ok ip ->
  Forall byte_ok (incIP ip)
  /\ length (incIP ip) = length ip
  /\ ip_value (incIP ip)
     = (ip_value ip + 1) mod 256 ^ Z.of_nat (length ip)
  /\ (ip_value ip + 1 < 256 ^ Z.of_nat (length ip) ->
      ip_value (incIP ip) = ip_value ip + 1)
  /\ (ip_value ip + 1 = 256 ^ Z.of_nat (length ip) ->
      ip_value (incIP ip) = 0).
Proof.
  intros Hall. unfold incIP.
  destruct (incIP_carry_value ip Hall) as (Hok & Hlen & Hval).
  pose proof (ip_value_bounds ip Hall) as Hb.
  pose proof (ip_value_bounds _ Hok) as Hb'. rewrite Hlen in Hb'.
  assert (Hmod : ip_value (fst (incIP_carry ip))
                 = (ip_value ip + 1) mod 256 ^ Z.of_nat (length ip)).
  { destruct (snd (incIP_carry ip)).
    - apply (Z.mod_unique _ _ 1); lia.
    - rewrite Z.mod_small by lia. lia. }
  split; [exact Hok|]. split; [exact Hlen|]. split; [exact Hmod|]. split.
  - intros Hlt. rewrite Hmod. apply Z.mod_small. lia.
  - intros Heq. rewrite Hmod, Heq. apply Z.mod_same. lia.
Qed.

Lemma incIP_successor_witness :
  incIP [10; 0; 255; 255] = [10; 1; 0; 0]
  /\ ip_value (incIP [255; 255; 255; 255]) = 0.
Proof.
  split; [reflexivity|].
  apply (incIP_successor [255; 255; 255; 255]).
  - repeat constructor; unfold byte_ok; lia.
  - reflexivity.
Defined.

End Successor.

Section Hosts.

Import Net Ping.

Variable ParseCIDR6 : string -> option (Net.IP * IPNet).
Variable String16 : Net.IP -> string.

Lemma block_length base n : length (block String16 base n) = n.
Proof. unfold block. now rewrite length_map, length_seq. Qed.

(** X21.  On IPv4 text with a prefix length from 1 to 32, [expandCIDR]
    returns no error and the addresses of the block that contains the
    given address, in ascending order: all of them but the first and the
    last for a prefix length up to 30, which makes two less than the
    size of the block, both addresses for 31 and the single address for
    32.  The list is never empty. *)
Theorem expandCIDR_v4_hosts cidr addr mask ip4 ones fuel :
  cut_slash cidr = Some (addr, mask) ->
  address_family addr = IPv4Text ->
  parseIPv4 addr = Some ip4 ->
  dtoi mask = Some ones ->
  1 <= ones <= 32 ->
  (Z.to_nat (2 ^ (32 - ones)) < fuel)%nat ->
  let size := 2 ^ (32 - ones) in
  let base := ip_value ip4 / size * size in
  exists ips,
    expandCIDR ParseCIDR6 String16 fuel cidr = Some (ips, None)
    /\ ips = (if ones <=? 30
              then block String16 (base + 1) (Z.to_nat size - 2)
              else block String16 base (Z.to_nat size))
    /\ Z.of_nat (length ips) = (if ones <=? 30 then size - 2 else size)
    /\ ips <> []
    /\ base <= ip_value ip4 < base + size.
Proof.
  intros Hcut Hfam Hparse Hmask Hones Hfuel size base.
  pose proof (expandCIDR_v4_block String16 ParseCIDR6 cidr addr mask ip4
                ones fuel Hcut Hfam Hparse Hmask Hones Hfuel) as Hexp.
  fold size in Hexp. fold base in Hexp.
  pose proof (block_size_bounds ones Hones) as Hsize. fold size in Hsize.
  assert (Hin : base <= ip_value ip4 < base + size).
  { subst base. pose proof (Z.mod_pos_bound (ip_value ip4) size ltac:(lia)).
    pose proof (Z.div_mod (ip_value ip4) size ltac:(lia)). lia. }
  destruct (Z.leb_spec ones 30) as [Hle|Hgt].
  - assert (Hfour : 4 <= size).
    { subst size. change 4 with (2 ^ 2). apply Z.pow_le_mono_r; lia. }
    rewrite trim_ends_block in Hexp by lia.
    eexists. split; [exact Hexp|]. split; [reflexivity|].
    rewrite block_length. split; [lia|]. split; [|exact Hin].
    intros Hnil. apply (f_equal length) in Hnil.
    rewrite block_length in Hnil. simpl in Hnil. lia.
  - assert (Htwo : size <= 2).
    { subst size. change 2 with (2 ^ 1) at 2. apply Z.pow_le_mono_r; lia. }
    rewrite trim_ends_small in Hexp by lia.
    eexists. split; [exact Hexp|]. split; [reflexivity|].
    rewrite block_length. split; [lia|]. split; [|exact Hin].
    intros Hnil. apply (f_equal length) in Hnil.
    rewrite block_length in Hnil. simpl in Hnil. lia.
Qed.

End Hosts.

Lemma expandCIDR_v4_hosts_witness :
  exists ips,
    Ping.expandCIDR Samples.no_v6 Samples.no_text 5 "192.168.1.2/30"
    = Some (ips, None)
    /\ Z.of_nat (length ips) = 2.
Proof.
  destruct (expandCIDR_v4_hosts Samples.no_v6 Samples.no_text
              "192.168.1.2/30" "192.168.1.2" "30" [192; 168; 1; 2] 30 5
              eq_refl eq_refl eq_refl eq_refl ltac:(lia) ltac:(simpl; lia))
    as (ips & Hexp & _ & Hlen & _).
  exists ips. split; [exact Hexp | exact Hlen].
Defined.

(** ** The sweep and the scan when the context is cancelled *)

Section Cancelled.

Import Net Ping.

Variable ParseCIDR6 : string -> option (Net.IP * IPNet).
Variable String16 : Net.IP -> string.
Variable nw : network.

(** X22.  Whether or not the context is cancelled during the sweep,
    [SweepSubnet] returns no error on text that [expandCIDR] accepts,
    and at most one entry for each address of the expansion: the entries
    are results of [pingHost] on addresses of the expansion, no address
    more often than the expansion has it, so never more entries than
    addresses.  On text that [expandCIDR] refuses it returns the error,
    prefixed, and no entry. *)
Theorem sweep_under_cancellation p fuel cidr ctx_cancelled hosts err :
  SweepSubnet ParseCIDR6 String16 p nw fuel cidr ctx_cancelled (hosts, err) ->
  (forall ips,
     expandCIDR ParseCIDR6 String16 fuel cidr = Some (ips, None) ->
     err = None
     /\ map IP hosts ⊆+ ips
     /\ (length hosts <= length ips)%nat
     /\ Forall (fun h => exists now, h = pingHost nw now (IP h)) hosts)
  /\ (forall ips e,
        expandCIDR ParseCIDR6 String16 fuel cidr = Some (ips, Some e) ->
        hosts = []
        /\ err = Some (Failure ("invalid CIDR: " +:+ Error e))).
Proof.
  unfold SweepSubnet. intros Hsweep. split.
  - intros ips Hexp. rewrite Hexp in Hsweep.
    destruct Hsweep as (s & Hreach & Hret & _ & [= -> ->]).
    destruct (returned_spec _ _ _ _ _ Hreach Hret)
      as (Hlog & Hhosts & Hsub & _).
    apply sweep_conv_id in Hhosts.
    destruct (sweep_log nw _ Hlog) as [Hips Hping].
    rewrite Hhosts. split; [reflexivity|]. split; [|split].
    + now rewrite Hips.
    + apply submseteq_length in Hsub.
      rewrite <- (length_map IP), Hips. exact Hsub.
    + exact Hping.
  - intros ips e Hexp. rewrite Hexp in Hsweep.
    injection Hsweep as -> ->. auto.
Qed.

End Cancelled.

Lemma cancelled_run :
  exists s,
    Pool.run (Ping.sweep_fn Samples.lan) Ping.sweep_conv
             Samples.cancelled_schedule
             (Pool.start ["192.168.1.1"; "192.168.1.2"] 2) = Some s
    /\ Pool.returned s = true /\ Pool.cancelled s = true
    /\ length (Pool.hosts s) = 1%nat.
Proof. vm_compute. eexists. repeat split. Qed.

Lemma sweep_under_cancellation_witness :
  exists hosts,
    Ping.SweepSubnet Samples.no_v6 Samples.no_text (Ping.NewPingProbe 2 0)
      Samples.lan 5 "192.168.1.0/30" true (hosts, None)
    /\ length hosts = 1%nat
    /\ map Ping.IP hosts ⊆+ ["192.168.1.1"; "192.168.1.2"].
Proof.
  destruct cancelled_run as (s & Hs & Hret & Hcan & Hlen).
  pose proof (run_reachable (Ping.sweep_fn Samples.lan) Ping.sweep_conv
                ["192.168.1.1"; "192.168.1.2"] 2
                Samples.cancelled_schedule _ s
                (Pool.reachable_start _ _ _ _) Hs) as Hreach.
  assert (Hsweep : Ping.SweepSubnet Samples.no_v6 Samples.no_text
                     (Ping.NewPingProbe 2 0) Samples.lan 5
                     "192.168.1.0/30" true (Pool.hosts s, None)).
  { unfold Ping.SweepSubnet.
    change (Ping.expandCIDR Samples.no_v6 Samples.no_text 5 "192.168.1.0/30")
      with (Some (["192.168.1.1"; "192.168.1.2"], @None error)).
    exists s. auto. }
  exists (Pool.hosts s). split; [exact Hsweep|]. split; [exact Hlen|].
  destruct (sweep_under_cancellation Samples.no_v6 Samples.no_text
              Samples.lan _ _ _ _ _ _ Hsweep) as [Hall _].
  destruct (Hall ["192.168.1.1"; "192.168.1.2"] eq_refl)
    as (_ & Hsub & _).
  exact Hsub.
Defined.

Section PoolEnds.

Context {T R H E : Type}.
Variable fn : E -> T -> option R.
Variable conv : E -> R -> H.

Lemma run_measure schedule : forall s s',
  Pool.run fn conv schedule s = Some s' ->
  (length schedule + Pool.measure s' <= Pool.measure s)%nat.
Proof.
  induction schedule as [|l rest IH]; intros s s'; simpl.
  - intros [= <-]. lia.
  - destruct (Pool.exec fn conv l s) as [s1|] eqn:Hl; [|discriminate].
    intros Hrun. apply IH in Hrun.
    apply exec_step, step_measure in Hl. lia.
Qed.

Lemma measure_start (items : list T) concurrency :
  Pool.measure (@Pool.start T R H items concurrency)
  = (6 * length items + concurrency + 4)%nat.
Proof.
  unfold Pool.measure, Pool.start. simpl.
  assert (Hsum : sum_list_with Pool.worker_weight
                   (replicate concurrency (@Pool.Receiving T))
                 = concurrency).
  { induction concurrency as [|k IH]; simpl; [reflexivity | now rewrite IH]. }
  rewrite Hsum. lia.
Qed.

Lemma pool_returns (env : E) items concurrency : forall k s,
  Pool.measure s = k ->
  Pool.reachable fn conv items concurrency s ->
  exists s', Pool.reachable fn conv items concurrency s'
             /\ Pool.returned s' = true.
Proof.
  induction k as [k IH] using lt_wf_ind. intros s Hk Hr.
  destruct (Pool.returned s) eqn:Hret; [eauto|].
  destruct (progress fn conv env s Hret) as [s' Hstep].
  apply (IH (Pool.measure s')) with (s := s'); [|reflexivity|].
  - apply step_measure in Hstep. lia.
  - now apply (Pool.reachable_step fn conv items concurrency s).
Qed.

Lemma pool_returns_from (env : E) : forall k s,
  Pool.measure s = k ->
  exists s', rtc (Pool.step fn conv) s s' /\ Pool.returned s' = true.
Proof.
  induction k as [k IH] using lt_wf_ind. intros s Hk.
  destruct (Pool.returned s) eqn:Hret; [exists s; split; [constructor | exact Hret]|].
  destruct (progress fn conv env s Hret) as [s1 Hstep].
  destruct (IH (Pool.measure s1)) with (s := s1) as (s' & Hsteps & Hdone);
    [|reflexivity|].
  - apply step_measure in Hstep. lia.
  - exists s'. split; [|exact Hdone]. econstructor; eauto.
Qed.

Lemma reachable_steps items concurrency s s' :
  rtc (Pool.step fn conv) s s' ->
  Pool.reachable fn conv items concurrency s ->
  Pool.reachable fn conv items concurrency s'.
Proof.
  induction 1 as [|s s1 s' Hstep _ IH]; intros Hr; [exact Hr|].
  apply IH. now apply (Pool.reachable_step fn conv items concurrency s).
Qed.

End PoolEnds.

Section ScanEnds.

Import PortScan.

Variable nw : network.
Variable host : string.

(** X23.  A scan of a host comes to its end, whatever the goroutines do
    and whether or not the context is cancelled: as long as [ScanHost]
    has not returned some goroutine can take a step, no run takes more
    than six steps for each port, one for each worker and four, and from
    every state that the scan reaches some run makes it return: steps
    from that very state lead to a state in which [ScanHost] has
    returned. *)
Theorem ScanHost_ends s :
  let workers := Z.to_nat (concurrency s) in
  (forall st,
     Pool.returned st = false ->
     exists st', Pool.step (scan_fn nw host) scan_conv st st')
  /\ (forall schedule st,
        Pool.run (scan_fn nw host) scan_conv schedule
                 (Pool.start (ports s) workers) = Some st ->
        (length schedule <= 6 * length (ports s) + workers + 4)%nat)
  /\ (forall st,
        Pool.reachable (scan_fn nw host) scan_conv (ports s) workers st ->
        exists st' attempted ctx_cancelled res,
          Pool.reachable (scan_fn nw host) scan_conv (ports s) workers st'
          /\ ScanHost s nw host attempted ctx_cancelled (res, None))
  /\ (forall st,
        Pool.reachable (scan_fn nw host) scan_conv (ports s) workers st ->
        exists st',
          rtc (Pool.step (scan_fn nw host) scan_conv) st st'
          /\ Pool.returned st' = true
          /\ ScanHost s nw host (map fst (Pool.log st')) (Pool.cancelled st')
                      (Pool.hosts st', None)).
Proof.
  intros workers. split; [|split; [|split]].
  - intros st Hret. exact (progress (scan_fn nw host) scan_conv 0 st Hret).
  - intros schedule st Hrun. apply run_measure in Hrun.
    rewrite measure_start in Hrun. lia.
  - intros st Hr.
    destruct (pool_returns (scan_fn nw host) scan_conv 0 (ports s) workers
                _ st eq_refl Hr) as (st' & Hr' & Hret).
    exists st', (map fst (Pool.log st')), (Pool.cancelled st'),
      (Pool.hosts st').
    split; [exact Hr'|]. exists st'. auto.
  - intros st Hr.
    destruct (pool_returns_from (scan_fn nw host) scan_conv 0 _ st eq_refl)
      as (st' & Hsteps & Hret).
    exists st'. split; [exact Hsteps|]. split; [exact Hret|].
    exists st'. split; [|auto].
    exact (reachable_steps _ _ _ _ _ _ Hsteps Hr).
Qed.

Lemma grabBanner_cut data :
  (String.length (grabBanner data) <= 200)%nat
  /\ (forall d, data = Some d -> exists rest, d = grabBanner data +:+ rest)
  /\ (data = None -> grabBanner data = EmptyString).
Proof.
  unfold grabBanner. destruct data as [[|c d]|]; cbv beta iota.
  - split; [simpl; lia|]. split; [|discriminate].
    intros d [= <-]. exists EmptyString. reflexivity.
  - set (b := String c d).
    destruct (Nat.ltb_spec 200 (String.length b)) as [Hlt|Hle].
    + split; [rewrite substring_length; lia|].
      split; [|discriminate]. intros d' [= <-].
      exists (String.substring 200 (String.length b - 200) b).
      exact (substring_split b 0 200 ltac:(lia)).
    + split; [exact Hle|]. split; [|discriminate].
      intros d' [= <-]. exists EmptyString. now rewrite append_nil_r.
  - split; [simpl; lia|]. split; [discriminate | reflexivity].
Qed.

(** X24.  Every banner that [ScanHost] reports is what [grabBanner]
    made of the bytes read from the port of its record: it has at most
    200 bytes and is the beginning of those bytes, and it is empty when
    the read failed or gave nothing. *)
Theorem banners_are_cut s attempted ctx_cancelled res err :
  ScanHost s nw host attempted ctx_cancelled (res, err) ->
  Forall (fun sp =>
            sp_Banner sp = grabBanner (read nw host (sp_Port sp))
            /\ (String.length (sp_Banner sp) <= 200)%nat
            /\ (forall data,
                  read nw host (sp_Port sp) = Some data ->
                  exists rest, data = sp_Banner sp +:+ rest)
            /\ (read nw host (sp_Port sp) = None ->
                sp_Banner sp = EmptyString)) res.
Proof.
  intros (st & Hreach & Hret & _ & _ & [= -> ->]).
  destruct (returned_spec _ _ _ _ _ Hreach Hret) as (Hlog & Hhosts & _ & _).
  rewrite (scan_log nw host _ Hlog) in Hhosts.
  destruct (scan_conv_ports _ _ Hhosts) as [_ Hrecords].
  eapply Forall_impl; [exact Hrecords|].
  intros sp (r & Hin & _ & _ & _ & Hbanner & Hport).
  apply list_elem_of_fmap in Hin as (p & -> & _).
  simpl in Hbanner, Hport. rewrite Hbanner, Hport.
  split; [reflexivity|]. apply grabBanner_cut.
Qed.

End ScanEnds.

Lemma banners_are_cut_witness :
  exists attempted res,
    PortScan.ScanHost (PortScan.NewPortScanner 0 0 []) Samples.ssh_only
      "192.168.1.1" attempted false (res, None)
    /\ res <> []
    /\ Forall (fun sp => (String.length (PortScan.sp_Banner sp) <= 200)%nat)
              res.
Proof.
  destruct scan_run_hosts as (st & Hst & Hret & Hlive & Hhosts).
  pose proof (run_reachable
                (PortScan.scan_fn Samples.ssh_only "192.168.1.1")
                PortScan.scan_conv PortScan.DefaultPorts 20
                Samples.scan_schedule _ st
                (Pool.reachable_start _ _ _ _) Hst) as Hreach.
  assert (Hscan : PortScan.ScanHost (PortScan.NewPortScanner 0 0 [])
                    Samples.ssh_only "192.168.1.1"
                    (map fst (Pool.log st)) false (Pool.hosts st, None)).
  { exists st. auto. }
  exists (map fst (Pool.log st)), (Pool.hosts st).
  split; [exact Hscan|]. split; [exact Hhosts|].
  eapply Forall_impl;
    [exact (banners_are_cut Samples.ssh_only "192.168.1.1" _ _ _ _ _ Hscan)|].
  intros sp (_ & Hlen & _). exact Hlen.
Defined.

(** ** The settings of the scanner *)

Section ScannerSettings.

Import PortScan Scans.

Lemma SetPorts_keeps ports s :
  1 <= concurrency s /\ 0 < timeout s /\ PortScan.ports s <> [] ->
  1 <= concurrency (SetPorts ports s)
  /\ 0 < timeout (SetPorts ports s)
  /\ PortScan.ports (SetPorts ports s) <> [].
Proof.
  intros (Hc & Ht & Hp). destruct ports as [|p ports]; simpl; auto.
Qed.

(** X25.  A scanner built by [NewPortScanner], whatever it is given and
    whatever calls of [SetPorts] follow, has at least one worker, a
    positive timeout and at least one port to scan: values that are not
    positive are replaced by 20 workers and 3 seconds, an empty list by
    the fifty default ports, which are all different, and [SetPorts]
    with an empty list changes nothing. *)
Theorem scanner_settings c t ps calls :
  let s := fold_left (fun s ports => SetPorts ports s) calls
                     (NewPortScanner c t ps) in
  1 <= concurrency s
  /\ 0 < timeout s
  /\ ports s <> []
  /\ concurrency s = (if c <=? 0 then 20 else c)
  /\ timeout s = (if t <=? 0 then 3 * Scheduler.second else t)
  /\ (Forall (fun ports => ports = []) calls ->
      ports s = match ps with [] => DefaultPorts | _ => ps end)
  /\ SetPorts [] s = s
  /\ length DefaultPorts = 50%nat /\ NoDup DefaultPorts.
Proof.
  intros s. subst s.
  induction calls as [|ports calls IH] using rev_ind.
  - simpl. split; [destruct (Z.leb_spec c 0); lia|].
    split; [unfold Scheduler.second; destruct (Z.leb_spec t 0); lia|].
    split; [destruct ps; discriminate|].
    repeat split; try reflexivity.
    apply (bool_decide_unpack (NoDup DefaultPorts)). vm_compute. exact I.
  - rewrite fold_left_app. simpl.
    destruct IH as (Hc & Ht & Hp & Hce & Hte & Hall & _ & Hlen & Hnd).
    set (s := fold_left (fun s ports => SetPorts ports s) calls
                        (NewPortScanner c t ps)) in *.
    destruct (SetPorts_keeps ports s (conj Hc (conj Ht Hp)))
      as (Hc' & Ht' & Hp').
    split; [exact Hc'|]. split; [exact Ht'|]. split; [exact Hp'|].
    split; [destruct ports; simpl; exact Hce|].
    split; [destruct ports; simpl; exact Hte|].
    split; [|split; [reflexivity | split; assumption]].
    intros Hempty. apply Forall_app in Hempty as [Hempty Hlast].
    apply (proj1 (Forall_singleton _ _)) in Hlast. rewrite Hlast.
    simpl. now apply Hall.
Qed.

(** X26.  [GetTopPorts] gives the first [n] ports of its table, all
    fifty when [n] is larger, and panics when [n] is negative.  Its
    table is the list of [DefaultPorts], so the scan ports of the
    default configuration are those that [NewPortScanner] takes when it
    is given none. *)
Theorem GetTopPorts_prefix n :
  (n < 0 -> Config.GetTopPorts n = None)
  /\ (0 <= n ->
      exists l,
        Config.GetTopPorts n = Some l
        /\ l `prefix_of` DefaultPorts
        /\ Z.of_nat (length l) = Z.min n 50)
  /\ Config.GetTopPorts 50 = Some DefaultPorts
  /\ (forall c t l,
        Config.GetTopPorts 50 = Some l ->
        NewPortScanner c t l = NewPortScanner c t []).
Proof.
  unfold Config.GetTopPorts.
  change (Z.of_nat (length Config.topPorts)) with 50.
  split; [|split; [|split]].
  - intros Hn. destruct (Z.ltb_spec 50 n); [lia|].
    now rewrite (proj2 (Z.ltb_lt n 0) Hn).
  - intros Hn. destruct (Z.ltb_spec 50 n) as [Hbig|Hsmall].
    + exists DefaultPorts. split; [reflexivity|]. split; [reflexivity|].
      change (Z.of_nat (length DefaultPorts)) with 50. lia.
    + rewrite (proj2 (Z.ltb_ge n 0) Hn).
      exists (take (Z.to_nat n) Config.topPorts). split; [reflexivity|].
      split.
      * change DefaultPorts with Config.topPorts. apply prefix_take.
      * rewrite length_take.
        change (length Config.topPorts) with 50%nat. lia.
  - reflexivity.
  - intros c t l [= <-]. reflexivity.
Qed.

End ScannerSettings.

(** ** The lines of an output *)

Section ScannedLines.

Import Traceroute Lines.

Lemma cut_line_terminated l rest :
  no_line_feed l = true ->
  cut_line (l +:+ String "010" rest) = (l, Some rest).
Proof.
  induction l as [|c l IH]; intros Hl.
  - reflexivity.
  - cbn [no_line_feed] in Hl. apply andb_prop in Hl as [Hc Hl].
    rewrite append_cons. cbn [cut_line].
    destruct (is_char "010" c); [discriminate|].
    now rewrite (IH Hl).
Qed.

Lemma cut_line_last l :
  no_line_feed l = true -> cut_line l = (l, None).
Proof.
  induction l as [|c l IH]; intros Hl.
  - reflexivity.
  - cbn [no_line_feed] in Hl. apply andb_prop in Hl as [Hc Hl].
    cbn [cut_line]. destruct (is_char "010" c); [discriminate|].
    now rewrite (IH Hl).
Qed.

Lemma lines_cons l rest :
  fits l = true ->
  lines (l +:+ String "010" rest) = dropCR l :: lines rest.
Proof.
  unfold fits. intros Hl. apply andb_prop in Hl as [Hlf Hshort].
  apply Z.ltb_lt in Hshort.
  unfold lines. rewrite length_append. cbn [String.length].
  rewrite Nat.add_succ_r. cbn [scan_lines].
  destruct (l +:+ String "010" rest) as [|c s] eqn:Hs.
  { apply (f_equal String.length) in Hs. rewrite length_append in Hs.
    simpl in Hs. lia. }
  rewrite <- Hs, (cut_line_terminated l rest Hlf).
  destruct (Z.leb_spec MaxScanTokenSize (Z.of_nat (String.length l)));
    [lia|].
  f_equal. apply scan_lines_fuel; lia.
Qed.

Lemma lines_long l tail :
  no_line_feed l = true ->
  MaxScanTokenSize <= Z.of_nat (String.length l) ->
  tail = EmptyString \/ (exists rest, tail = String "010" rest) ->
  lines (l +:+ tail) = [].
Proof.
  intros Hlf Hlong Htail. unfold lines.
  destruct (String.length (l +:+ tail)) as [|n] eqn:Hn.
  - reflexivity.
  - cbn [scan_lines].
    destruct (l +:+ tail) as [|c s] eqn:Hs; [reflexivity|].
    rewrite <- Hs.
    destruct Htail as [->|[rest ->]].
    + rewrite append_nil_r, (cut_line_last l Hlf).
      now rewrite (proj2 (Z.leb_le _ _) Hlong).
    + rewrite (cut_line_terminated l rest Hlf).
      now rewrite (proj2 (Z.leb_le _ _) Hlong).
Qed.

Lemma lines_terminated ls t :
  Forall (fun l => fits l = true) ls ->
  lines (terminated ls +:+ t) = map dropCR ls ++ lines t.
Proof.
  induction 1 as [|l ls Hl _ IH].
  - reflexivity.
  - cbn [terminated fold_right]. fold (terminated ls).
    rewrite append_assoc, append_cons, lines_cons by assumption.
    simpl. now rewrite IH.
Qed.

(** What [dropCR] takes away: one carriage return at the end. *)
Lemma dropCR_cases l :
  l = dropCR l +:+ String "013" EmptyString
  \/ (dropCR l = l /\ forall l', l <> l' +:+ String "013" EmptyString).
Proof.
  induction l as [|c l IH].
  - right. split; [reflexivity|]. intros [|c' l']; discriminate.
  - destruct l as [|c' l].
    + cbn [dropCR]. destruct (is_char "013" c) eqn:Hc.
      * left. apply Ascii.eqb_eq in Hc. now subst c.
      * right. split; [reflexivity|]. intros [|c' l'] Heq.
        -- injection Heq as ->. discriminate.
        -- rewrite append_cons in Heq. injection Heq as _ Heq.
           destruct l'; discriminate.
    + change (dropCR (String c (String c' l)))
        with (String c (dropCR (String c' l))).
      destruct IH as [IH|[IH Hno]].
      * left. rewrite append_cons. now rewrite <- IH.
      * right. rewrite IH. split; [reflexivity|]. intros [|c'' l'] Heq.
        -- discriminate.
        -- rewrite append_cons in Heq. injection Heq as _ Heq.
           now apply (Hno l').
Qed.

Lemma dropCR_lines ls :
  Forall2 (fun l t =>
             l = t +:+ String "013" EmptyString
             \/ (t = l /\ forall l', l <> l' +:+ String "013" EmptyString))
          ls (map dropCR ls).
Proof.
  induction ls as [|l ls IH]; [constructor|].
  cbn [map]. constructor; [apply dropCR_cases | exact IH].
Qed.

(** X27.  The scanner gives back, in order, the lines of a text in which
    every line ends with a line feed, each without the carriage return
    at its end, if it has one: one carriage return is taken away, so a
    line that ends with two keeps one, and any other line is given back
    as it is.  A line of 64 KiB or more ends the scan: the lines before
    it are read, and that line and every line after it are dropped, and
    [parseTracerouteOutput] returns the hops found so far and no
    error. *)
Theorem long_line_ends_the_parse ls long tail :
  Forall (fun l => fits l = true) ls ->
  no_line_feed long = true ->
  MaxScanTokenSize <= Z.of_nat (String.length long) ->
  tail = EmptyString \/ (exists rest, tail = String "010" rest) ->
  Forall2 (fun l t =>
             l = t +:+ String "013" EmptyString
             \/ (t = l /\ forall l', l <> l' +:+ String "013" EmptyString))
          ls (lines (terminated ls))
  /\ lines (terminated ls) = map dropCR ls
  /\ lines (terminated ls +:+ long +:+ tail) = map dropCR ls
  /\ parseTracerouteOutput (terminated ls +:+ long +:+ tail)
     = parseTracerouteOutput (terminated ls)
  /\ snd (parseTracerouteOutput (terminated ls +:+ long +:+ tail)) = None.
Proof.
  intros Hls Hlf Hlong Htail.
  assert (H1 : lines (terminated ls) = map dropCR ls).
  { pose proof (lines_terminated ls EmptyString Hls) as H.
    rewrite append_nil_r in H. rewrite H. apply app_nil_r. }
  assert (H2 : lines (terminated ls +:+ long +:+ tail) = map dropCR ls).
  { rewrite lines_terminated by assumption.
    rewrite (lines_long long tail Hlf Hlong Htail). apply app_nil_r. }
  split; [rewrite H1; apply dropCR_lines|].
  split; [exact H1|]. split; [exact H2|]. split; [|reflexivity].
  unfold parseTracerouteOutput. now rewrite H1, H2.
Qed.

End ScannedLines.

Lemma long_line_facts :
  Lines.no_line_feed Samples.long_line = true
  /\ Traceroute.MaxScanTokenSize
     <= Z.of_nat (String.length Samples.long_line).
Proof. split; vm_compute; [reflexivity | discriminate]. Qed.

Lemma long_line_ends_the_parse_witness :
  map Traceroute.HopNum
      (fst (Traceroute.parseTracerouteOutput
              (Lines.terminated [" 1  192.168.0.1  1.234 ms"]
               +:+ Samples.long_line
               +:+ String "010" " 2  10.0.0.1  2 ms")))
  = [1].
Proof.
  destruct long_line_facts as [Hlf Hlong].
  destruct (long_line_ends_the_parse [" 1  192.168.0.1  1.234 ms"]
              Samples.long_line (String "010" " 2  10.0.0.1  2 ms"))
    as (_ & _ & _ & Hparse & _).
  - repeat constructor.
  - exact Hlf.
  - exact Hlong.
  - right. eexists. reflexivity.
  - rewrite Hparse. reflexivity.
Defined.

(** ** The address check and the sweep as jobs *)

Section CheckRuns.

Import Checks.

Lemma save_hosts_all SaveHost hosts : forall count,
  fst (save_hosts SaveHost hosts count) = hosts.
Proof.
  induction hosts as [|host rest IH]; intros count; [reflexivity|].
  cbn [save_hosts].
  specialize (IH (if Ping.Alive host then int_wrap (count + 1) else count)).
  destruct (save_hosts SaveHost rest _) as [saved total]. simpl in IH.
  destruct (SaveHost host); simpl; now rewrite IH.
Qed.

(** X28.  With no subnet configured [runPingSweep] makes no sweep, saves
    nothing and returns nil.  Otherwise it returns the error of
    [SweepSubnet], having saved nothing, or else nil, having called
    [SaveHost] once on every host of the sweep, in order, whether or not
    a save fails.  So a sweep of a subnet that is not cancelled saves
    one host for each address of the expansion, and text that is not a
    CIDR makes the job fail. *)
Theorem runPingSweep_saves ParseCIDR6 String16 c t nw fuel subnet
    ctx_cancelled res SaveHost :
  Ping.SweepSubnet ParseCIDR6 String16 (Ping.NewPingProbe c t) nw fuel
                   subnet ctx_cancelled res ->
  runPingSweep res SaveHost EmptyString = (None, [], false)
  /\ (subnet <> EmptyString ->
      runPingSweep res SaveHost subnet
      = (snd res, match snd res with
                  | Some _ => []
                  | None => fst res
                  end, true))
  /\ (subnet <> EmptyString ->
      forall ips,
        Ping.expandCIDR ParseCIDR6 String16 fuel subnet = Some (ips, None) ->
        fst (fst (runPingSweep res SaveHost subnet)) = None
        /\ map Ping.IP (snd (fst (runPingSweep res SaveHost subnet))) ⊆+ ips
        /\ (ctx_cancelled = false ->
            map Ping.IP (snd (fst (runPingSweep res SaveHost subnet)))
            ≡ₚ ips))
  /\ (subnet <> EmptyString ->
      forall ips e,
        Ping.expandCIDR ParseCIDR6 String16 fuel subnet
        = Some (ips, Some e) ->
        runPingSweep res SaveHost subnet
        = (Some (Failure ("invalid CIDR: " +:+ Error e)), [], true)).
Proof.
  intros Hsweep.
  assert (Hrun : subnet <> EmptyString ->
            runPingSweep res SaveHost subnet
            = (snd res, match snd res with
                        | Some _ => []
                        | None => fst res
                        end, true)).
  { intros Hne. unfold runPingSweep.
    rewrite (proj2 (String.eqb_neq subnet EmptyString) Hne).
    destruct res as [hosts [e|]]; [reflexivity|].
    now rewrite save_hosts_all. }
  split; [reflexivity|]. split; [exact Hrun|]. split.
  - intros Hne ips Hexp. rewrite (Hrun Hne).
    unfold Ping.SweepSubnet in Hsweep. rewrite Hexp in Hsweep.
    destruct Hsweep as (s & Hreach & Hret & Hcan & ->). cbn [fst snd].
    destruct (returned_spec _ _ _ _ _ Hreach Hret)
      as (Hlog & Hhosts & Hsub & Hall).
    apply sweep_conv_id in Hhosts.
    destruct (sweep_log nw _ Hlog) as [Hips _].
    rewrite Hhosts, Hips. split; [reflexivity|]. split; [exact Hsub|].
    intros ->. apply Hall; [exact Hcan | apply NewPingProbe_workers].
  - intros Hne ips e Hexp. rewrite (Hrun Hne).
    unfold Ping.SweepSubnet in Hsweep. rewrite Hexp in Hsweep.
    now rewrite Hsweep.
Qed.

Lemma runPingSweep_saves_witness :
  exists hosts,
    Ping.SweepSubnet Samples.no_v6 Samples.no_text (Ping.NewPingProbe 2 0)
      Samples.lan 5 "192.168.1.0/30" true (hosts, None)
    /\ runPingSweep (hosts, None) (fun _ => Some (Failure "disk full"))
                    "192.168.1.0/30"
       = (None, hosts, true).
Proof.
  destruct cancelled_run as (s & Hs & Hret & Hcan & Hlen).
  pose proof (run_reachable (Ping.sweep_fn Samples.lan) Ping.sweep_conv
                ["192.168.1.1"; "192.168.1.2"] 2
                Samples.cancelled_schedule _ s
                (Pool.reachable_start _ _ _ _) Hs) as Hreach.
  assert (Hsweep : Ping.SweepSubnet Samples.no_v6 Samples.no_text
                     (Ping.NewPingProbe 2 0) Samples.lan 5
                     "192.168.1.0/30" true (Pool.hosts s, None)).
  { unfold Ping.SweepSubnet.
    change (Ping.expandCIDR Samples.no_v6 Samples.no_text 5 "192.168.1.0/30")
      with (Some (["192.168.1.1"; "192.168.1.2"], @None error)).
    exists s. auto. }
  exists (Pool.hosts s). split; [exact Hsweep|].
  destruct (runPingSweep_saves Samples.no_v6 Samples.no_text 2 0
              Samples.lan 5 "192.168.1.0/30" true (Pool.hosts s, None)
              (fun _ => Some (Failure "disk full")) Hsweep)
    as (_ & Hrun & _).
  apply Hrun. discriminate.
Defined.

(** X29.  [runIPCheck] returns the error of [GetPublicIP], of
    [HasChanged] or of [Save], whichever comes first, and nil when none
    fails; a failure of [GetASNInfo] never makes it fail.  It calls
    [Save] at most once, only when the address is known and
    [HasChanged] has succeeded, on a record of that address made at that
    time, whose provider fields are empty when the lookup gave
    nothing. *)
Theorem runIPCheck_outcome GetPublicIP GetASNInfo HasChanged Save now :
  let run := runIPCheck GetPublicIP GetASNInfo HasChanged Save now in
  let ip := fst GetPublicIP in
  (forall e, snd GetPublicIP = Some e -> run = (Some e, []))
  /\ (forall e, snd GetPublicIP = None -> snd (HasChanged ip) = Some e ->
                run = (Some e, []))
  /\ (snd GetPublicIP = None -> snd (HasChanged ip) = None ->
      exists record,
        run = (Save record, [record])
        /\ rec_IP record = ip /\ rec_Timestamp record = now
        /\ (fst (GetASNInfo ip) = None ->
            record = mkIPRecord ip now EmptyString EmptyString EmptyString
                                EmptyString)
        /\ (forall info, fst (GetASNInfo ip) = Some info ->
            rec_ASN record = asn_ASN info /\ rec_ISP record = asn_ISP info
            /\ rec_Country record = asn_Country info
            /\ rec_City record = asn_City info))
  /\ (fst run = None
      <-> snd GetPublicIP = None /\ snd (HasChanged ip) = None
          /\ exists record, snd run = [record] /\ Save record = None)
  /\ (forall other,
        (forall x, fst (other x) = fst (GetASNInfo x)) ->
        runIPCheck GetPublicIP other HasChanged Save now = run)
  /\ (length (snd run) <= 1)%nat.
Proof.
  intros run ip. subst run ip. unfold runIPCheck.
  destruct GetPublicIP as [ip [e|]]; cbn [fst snd].
  - split; [intros e' [= <-]; reflexivity|].
    split; [discriminate|]. split; [discriminate|].
    split; [split; [discriminate | intros [[=] _]]|].
    split; [reflexivity | simpl; lia].
  - split; [discriminate|].
    destruct (HasChanged ip) as [changed [e|]]; cbn [fst snd].
    + split; [intros e' _ [= <-]; reflexivity|].
      split; [discriminate|].
      split; [split; [discriminate | intros (_ & [=] & _)]|].
      split; [reflexivity | simpl; lia].
    + split; [discriminate|].
      set (record := match fst (GetASNInfo ip) with
                     | Some info => _
                     | None => _
                     end).
      assert (Hrec : rec_IP record = ip /\ rec_Timestamp record = now).
      { subst record. now destruct (fst (GetASNInfo ip)). }
      split; [|split; [|split]].
      * intros _ _. exists record. split; [now destruct (Save record)|].
        split; [apply Hrec|]. split; [apply Hrec|]. split.
        -- intros Hnone. subst record. now rewrite Hnone.
        -- intros info Hinfo. subst record. now rewrite Hinfo.
      * destruct (Save record) as [e|] eqn:Hsave; cbn [fst snd].
        -- split; [discriminate|].
           intros (_ & _ & r & [= <-] & Hr). congruence.
        -- split; [|reflexivity]. intros _.
           split; [reflexivity|]. split; [reflexivity|].
           exists record. auto.
      * intros other Hsame. subst record. now rewrite Hsame.
      * destruct (Save record); simpl; lia.
Qed.

End CheckRuns.

(** ** The daemon *)

Section Lifecycle.

Import Daemon.

Variable cfg : Settings.




End Lifecycle.
